(** * Automaker: tool executor, OpenAI-compatible provider loop and agent sessions

    A shallow embedding of three server modules of the repository and the
    properties stated about them:

    - [ToolExecutor] and [ToolRegistry]: providers/tools/tool-executor.ts and
      providers/tools/tool-registry.ts (executeToolCalls, getToolDefinitions,
      editTool, globTool, walkDirectory);
    - [OpenAIProvider]: providers/openai-provider.ts (the delta accumulator and
      the tool loop of executeQuery);
    - [AgentService]: services/agent-service.ts (sendMessage, stopExecution,
      the prompt queue, deleteSession);
    - [FileTools], [SseStream], [ProviderFactory] and [SessionStore]: more of
      the same files (readTool, grepTool, bashTool; streamResponseChunks;
      getProviderForModel; startConversation, getHistory, clearSession,
      createSession, getQueue, removeFromQueue, clearQueue).

    JavaScript values are modelled as follows.  Strings are [string] (sequences
    of code units).  Numbers that the modelled code only counts or compares are
    [Z].  A thrown exception is an [Error] value carried in the left summand of
    a result; asynchronous functions are state transformers over an explicit
    world, and the points where other requests may interleave are made
    explicit by splitting a function into its phases. *)

From Stdlib Require Import ZArith String Ascii List Lia Bool DecimalString.
From stdpp Require Import base tactics option list gmap strings sorting.

Set Warnings "-register-all".

Local Open Scope Z_scope.

(** ** JavaScript strings *)

Module Js.

Definition dquote : string := String "034"%char EmptyString.
Definition LF : string := String "010"%char EmptyString.

(** [s.trim()]: strips leading and trailing white space. *)
Fixpoint trimStart (s : string) : string :=
  match s with
  | EmptyString => EmptyString
  | String c s' => if Ascii.is_space c then trimStart s' else s
  end.

Definition trim (s : string) : string :=
  String.rev (trimStart (String.rev (trimStart s))).

(** Truthiness of a string: non-empty. *)
Definition truthy (s : string) : bool :=
  match s with EmptyString => false | _ => true end.

(** [parts.join(sep)]. *)
Fixpoint join (sep : string) (parts : list string) : string :=
  match parts with
  | [] => EmptyString
  | [p] => p
  | p :: rest => p +:+ sep +:+ join sep rest
  end.

(** [s.split(sep)] for a non-empty separator: cut at each leftmost,
    non-overlapping occurrence.  [skip] counts the code units of a matched
    separator that are still to be passed over; [cur] is the piece being
    collected, reversed. *)
Fixpoint split_go (sep : string) (skip : nat) (cur : string) (s : string)
  : list string :=
  match s with
  | EmptyString => [String.rev cur]
  | String c s' =>
      match skip with
      | S k => split_go sep k cur s'
      | O =>
          if String.prefix sep s
          then String.rev cur :: split_go sep (String.length sep - 1) EmptyString s'
          else split_go sep O (String c cur) s'
      end
  end.

Definition split (sep s : string) : list string :=
  split_go sep O EmptyString s.

(** [s.indexOf(sep)]: position of the first occurrence, or -1. *)
Fixpoint indexOf_from (sep s : string) (i : Z) : Z :=
  if String.prefix sep s then i
  else match s with
       | EmptyString => -1
       | String _ s' => indexOf_from sep s' (i + 1)
       end.

Definition indexOf (s sep : string) : Z := indexOf_from sep s 0.

(** [s.slice(from, to)] and [s.slice(from)] for indices within [0, length]. *)
Definition slice (s : string) (from to : Z) : string :=
  String.substring (Z.to_nat from) (Z.to_nat (to - from)) s.

Definition slice_from (s : string) (from : Z) : string :=
  String.substring (Z.to_nat from) (String.length s - Z.to_nat from) s.

(** Decimal rendering of a number, as template literals print an integer. *)
Definition string_of_Z (n : Z) : string :=
  match n with
  | Z0 => "0"
  | Zpos p => NilEmpty.string_of_uint (Pos.to_uint p)
  | Zneg p => "-" +:+ NilEmpty.string_of_uint (Pos.to_uint p)
  end.

End Js.

(** ** Errors and the effect monad *)

(** A thrown [Error] object: its [name] and [message]. *)
Record Error := mkError { err_name : string; err_message : string }.

Definition new_Error (msg : string) : Error := mkError "Error" msg.

(** Computations over a world [W] that either throw or return. *)
Definition M (W A : Type) : Type := W → (Error + A) * W.

Definition ret {W A} (a : A) : M W A := λ w, (inr a, w).

Definition throw {W A} (e : Error) : M W A := λ w, (inl e, w).

Definition bind {W A B} (m : M W A) (k : A → M W B) : M W B :=
  λ w, match m w with
       | (inl e, w') => (inl e, w')
       | (inr a, w') => k a w'
       end.

(** [try { m } catch (error) { ... }]: the exception becomes a value. *)
Definition attempt {W A} (m : M W A) : M W (Error + A) :=
  λ w, let '(r, w') := m w in (inr r, w').

(** A pure computation that may throw. *)
Definition lift {W A} (r : Error + A) : M W A := λ w, (r, w).

Notation "'let!' x ':=' m 'in' k" := (bind m (λ x, k))
  (at level 10, x pattern, m at level 100, k at level 200).

(** ** JSON values *)

(** The values [JSON.parse] produces.  An object is its list of key/value
    pairs; reading a property yields the first pair with that key, and
    [None] stands for [undefined]. *)
Inductive json :=
| JNull
| JBool (b : bool)
| JNum (n : Z)
| JStr (s : string)
| JArr (items : list json)
| JObj (fields : list (string * json)).

Module Json.

Fixpoint prop (fields : list (string * json)) (key : string) : option json :=
  match fields with
  | [] => None
  | (k, v) :: rest => if String.eqb k key then Some v else prop rest key
  end.

(** [a ?? b]: [b] when [a] is [null] or [undefined]. *)
Definition nullish (a b : option json) : option json :=
  match a with
  | None | Some JNull => b
  | Some _ => a
  end.
Infix "??" := nullish (at level 45, right associativity).

(** The own properties of an array: its indices and [length]. *)
Fixpoint array_fields (i : Z) (items : list json) : list (string * json) :=
  match items with
  | [] => []
  | x :: rest => (Js.string_of_Z i, x) :: array_fields (i + 1) rest
  end.

(** [asObject]: [input && typeof input === 'object' ? input : null].
    Arrays are objects too. *)
Definition asObject (input : option json) : option (list (string * json)) :=
  match input with
  | Some (JObj fields) => Some fields
  | Some (JArr items) =>
      Some (array_fields 0 items ++ [("length"%string, JNum (Z.of_nat (length items)))])
  | _ => None
  end.

(** [getString]: the value when it is a string that is not blank. *)
Definition getString (value : option json) : option string :=
  match value with
  | Some (JStr s) => if Js.truthy (Js.trim s) then Some s else None
  | _ => None
  end.

(** [a || b] on the results of [getString]: a returned string is never
    empty, hence truthy. *)
Definition orElse (a b : option string) : option string :=
  match a with Some _ => a | None => b end.

(** [Boolean(v)]. *)
Definition toBoolean (v : option json) : bool :=
  match v with
  | None | Some JNull => false
  | Some (JBool b) => b
  | Some (JNum n) => negb (n =? 0)
  | Some (JStr s) => Js.truthy s
  | Some (JArr _) | Some (JObj _) => true
  end.

(** [String(v)]. *)
Fixpoint toString (v : json) : string :=
  match v with
  | JNull => "null"
  | JBool true => "true"
  | JBool false => "false"
  | JNum n => Js.string_of_Z n
  | JStr s => s
  | JArr items =>
      Js.join "," (map (λ x, match x with JNull => EmptyString | _ => toString x end) items)
  | JObj _ => "[object Object]"
  end.

(** An object literal whose properties may be [undefined]: reading an
    absent property and reading an [undefined] one give the same result. *)
Definition literal (fields : list (string * option json)) : json :=
  JObj (omap (λ kv, match kv.2 with Some v => Some (kv.1, v) | None => None end) fields).

(** [Array.isArray(v) && v.length > 0 ? v : fallback]. *)
Definition nonEmptyArrayOr (v : option json) (fallback : list json) : list json :=
  match v with
  | Some (JArr (x :: rest)) => x :: rest
  | _ => fallback
  end.

End Json.

(** ** Tool types (providers/tools/types.ts) *)

(** [ToolExecutionContext].  The optional [abortController] is never read
    by the tools and is left out. *)
Record ToolExecutionContext := { cwd : string }.

(** [ToolExecutionResult]: [isError] is optional. *)
Record ToolExecutionResult := { content : string; isError : option bool }.

(** [ToolDefinition]: [description] and [parameters] are schema metadata sent
    to the backend and play no part in execution. *)
Record ToolDefinition (W : Type) := {
  name : string;
  execute : option json → ToolExecutionContext → M W ToolExecutionResult
}.
Arguments name {W} _.
Arguments execute {W} _ _ _.

Record ToolCall := {
  call_id : string;
  call_name : string;
  call_arguments : string
}.

Record ToolExecutionOutput := {
  out_id : string;
  out_name : string;
  out_content : string;
  out_isError : bool
}.

(** ** providers/tools/tool-executor.ts and getToolDefinitions *)

Definition DEFAULT_TOOL_NAMES : list string :=
  ["Read"; "Write"; "Edit"; "Glob"; "Grep"; "Bash"; "WebFetch"]%string.

Module ToolExecutor.

Section Executor.

Context {W : Type}.

(** [JSON.parse]: total up to the [SyntaxError] it throws. *)
Variable JSON_parse : string → Error + json.

(** The catalog the registry module exports.  The executor is written
    against whatever the catalog holds. *)
Variable TOOL_DEFINITIONS : list (ToolDefinition W).

Definition allowedNames (allowedTools : option (list string)) : list string :=
  match allowedTools with
  | None => DEFAULT_TOOL_NAMES
  | Some names => names
  end.

Definition getToolDefinitions (allowedTools : option (list string))
  : list (ToolDefinition W) :=
  let names := allowedNames allowedTools in
  filter (λ tool, name tool ∈ names) TOOL_DEFINITIONS.

(** [new Map(tools.map((tool) => [tool.name, tool]))]: a later pair with the
    same key replaces an earlier one. *)
Definition new_Map (tools : list (ToolDefinition W)) : gmap string (ToolDefinition W) :=
  foldl (λ m tool, <[name tool := tool]> m) ∅ tools.

(** [call.arguments ? JSON.parse(call.arguments) : {}]. *)
Definition parseArguments (call : ToolCall) : M W json :=
  lift (if Js.truthy (call_arguments call)
        then JSON_parse (call_arguments call)
        else inr (JObj [])).

Definition notAvailable (call : ToolCall) : ToolExecutionOutput :=
  {| out_id := call_id call;
     out_name := call_name call;
     out_content := "Tool " +:+ Js.dquote +:+ call_name call +:+ Js.dquote +:+ " is not available.";
     out_isError := true |}.

Definition parseFailed (call : ToolCall) (error : Error) : ToolExecutionOutput :=
  {| out_id := call_id call;
     out_name := call_name call;
     out_content := "Failed to parse tool arguments: " +:+ err_message error;
     out_isError := true |}.

Definition executed (call : ToolCall) (result : ToolExecutionResult) : ToolExecutionOutput :=
  {| out_id := call_id call;
     out_name := call_name call;
     out_content := content result;
     out_isError := default false (isError result) |}.

Definition toolFailed (call : ToolCall) (error : Error) : ToolExecutionOutput :=
  {| out_id := call_id call;
     out_name := call_name call;
     out_content := "Tool " +:+ Js.dquote +:+ call_name call +:+ Js.dquote +:+ " failed: " +:+ err_message error;
     out_isError := true |}.

(** The [for (const call of calls)] loop; [results] is the array being
    pushed to. *)
Fixpoint executeToolCalls_loop (registry : gmap string (ToolDefinition W))
    (context : ToolExecutionContext) (calls : list ToolCall)
    (results : list ToolExecutionOutput) : M W (list ToolExecutionOutput) :=
  match calls with
  | [] => ret results
  | call :: rest =>
      match registry !! call_name call with
      | None =>
          executeToolCalls_loop registry context rest (results ++ [notAvailable call])
      | Some tool =>
          let! parsed := attempt (parseArguments call) in
          match parsed with
          | inl error =>
              executeToolCalls_loop registry context rest (results ++ [parseFailed call error])
          | inr parsedArgs =>
              let! outcome := attempt (execute tool (Some parsedArgs) context) in
              match outcome with
              | inr result =>
                  executeToolCalls_loop registry context rest (results ++ [executed call result])
              | inl error =>
                  executeToolCalls_loop registry context rest (results ++ [toolFailed call error])
              end
          end
      end
  end.

Definition executeToolCalls (calls : list ToolCall) (context : ToolExecutionContext)
    (allowedTools : option (list string)) : M W (list ToolExecutionOutput) :=
  let registry := new_Map (getToolDefinitions allowedTools) in
  executeToolCalls_loop registry context calls [].

(** The world in which the [i]-th call of [calls] is reached. *)
Definition worldBefore (calls : list ToolCall) (context : ToolExecutionContext)
    (allowedTools : option (list string)) (i : nat) (w : W) : W :=
  (executeToolCalls (take i calls) context allowedTools w).2.

(** The three ways a call fails: no registered tool of that name, arguments
    that do not parse, an implementation that throws. *)
Definition callFails (calls : list ToolCall) (context : ToolExecutionContext)
    (allowedTools : option (list string)) (w : W) (i : nat) (call : ToolCall) : Prop :=
  let registry := new_Map (getToolDefinitions allowedTools) in
  match registry !! call_name call with
  | None => True
  | Some tool =>
      match (parseArguments call w).1 with
      | inl _ => True
      | inr parsedArgs =>
          ∃ error,
            (execute tool (Some parsedArgs) context
               (worldBefore calls context allowedTools i w)).1 = inl error
      end
  end.

(** What one call contributes: its output and the world it leaves. *)
Definition callOutput (registry : gmap string (ToolDefinition W))
    (context : ToolExecutionContext) (call : ToolCall) (w : W) : ToolExecutionOutput * W :=
  match registry !! call_name call with
  | None => (notAvailable call, w)
  | Some tool =>
      match (parseArguments call w).1 with
      | inl error => (parseFailed call error, w)
      | inr parsedArgs =>
          match execute tool (Some parsedArgs) context w with
          | (inl error, w') => (toolFailed call error, w')
          | (inr result, w') => (executed call result, w')
          end
      end
  end.

(** The outputs of a list of calls, threaded through the world. *)
Fixpoint callOutputs (registry : gmap string (ToolDefinition W))
    (context : ToolExecutionContext) (calls : list ToolCall) (w : W)
  : list ToolExecutionOutput * W :=
  match calls with
  | [] => ([], w)
  | call :: rest =>
      let '(o, w1) := callOutput registry context call w in
      let '(os, w2) := callOutputs registry context rest w1 in
      (o :: os, w2)
  end.

End Executor.

(** A tool that records its name each time its implementation is entered;
    the record is kept beside the world. *)
Definition logged {W} (tool : ToolDefinition W) : ToolDefinition (W * list string) :=
  {| name := name tool;
     execute := λ input context wl,
       let '(r, w') := execute tool input context wl.1 in
       (r, (w', wl.2 ++ [name tool])) |}.

End ToolExecutor.

(** ** providers/tools/tool-registry.ts *)

Module ToolRegistry.

(** What [secureFs.readdir(dir, { withFileTypes: true })] lists: regular
    files, directories and everything else (symbolic links, sockets, ...).
    A directory entry carries what reading that directory returns, [None]
    when reading it throws; so the listing of [path.join(current, name)] is
    the one its entry carries, and the tree below any directory is finite. *)
Inductive Dirent :=
| FileEntry (entryName : string)
| DirEntry (entryName : string) (listing : option (list Dirent))
| OtherEntry (entryName : string).

(** The file system the tools act on: the text of the regular files by
    absolute path, and the directory tree found at an absolute path.  The
    two views are independent of each other: no modelled tool both writes
    files and lists directories. *)
Record World := {
  files : gmap string string;
  dirs : gmap string (list Dirent)
}.

Definition DEFAULT_IGNORE_DIRS : list string :=
  [".git"; "node_modules"; "dist"; "build"; ".next"; "out"; ".cache"]%string.

Definition DEFAULT_MAX_RESULTS : Z := 2000.

Section Registry.

(** Node's [path] module. *)
Variable path_isAbsolute : string → bool.
Variable path_resolve : string → string → string.
Variable path_join : string → string → string.
Variable path_relative : string → string → string.
Variable path_dirname : string → string.

(** The Path Guard's boolean check ([isPathAllowed] of the platform
    package). *)
Variable isPathAllowed : string → bool.

(** [regex.test(subject)] for the regular expression with the given
    source. *)
Variable RegExp_test : string → string → bool.

(** [Number(v)], [None] standing for [NaN]. *)
Variable js_Number : json → option Z.

(** The tools whose bodies rest on the regular-expression engine, on
    subprocesses or on the network; any effectful function, which may also
    throw, can stand for each. *)
Variable readTool : option json → ToolExecutionContext → M World ToolExecutionResult.
Variable grepTool : option json → ToolExecutionContext → M World ToolExecutionResult.
Variable bashTool : option json → ToolExecutionContext → M World ToolExecutionResult.
Variable webFetchTool : option json → ToolExecutionContext → M World ToolExecutionResult.

(** Modelled from the spec: [secureFs] of the platform package, which is not
    among the sources.  Every operation first validates its path with the
    Path Guard and throws when the path is not allowed; reading throws when
    there is no such file; writing an allowed path replaces the file. *)
Definition secureFs_readFile (p : string) : M World string :=
  λ w, if isPathAllowed p
       then match files w !! p with
            | Some text => (inr text, w)
            | None => (inl (new_Error ("ENOENT: no such file or directory, open '" +:+ p +:+ "'")), w)
            end
       else (inl (mkError "PathNotAllowedError" ("Path not allowed: " +:+ p)), w).

(** Modelled from the spec: [secureFs.writeFile], see [secureFs_readFile]. *)
Definition secureFs_writeFile (p text : string) : M World unit :=
  λ w, if isPathAllowed p
       then (inr (), {| files := <[p := text]> (files w); dirs := dirs w |})
       else (inl (mkError "PathNotAllowedError" ("Path not allowed: " +:+ p)), w).

(** Modelled from the spec: [secureFs.mkdir(dir, { recursive: true })], see
    [secureFs_readFile]; directories of written files are not tracked. *)
Definition secureFs_mkdir (p : string) : M World unit :=
  λ w, if isPathAllowed p
       then (inr (), w)
       else (inl (mkError "PathNotAllowedError" ("Path not allowed: " +:+ p)), w).

(** Modelled from the spec: [secureFs.readdir] at the root of a walk; [None]
    when it throws. *)
Definition secureFs_readdir (p : string) (w : World) : option (list Dirent) :=
  if isPathAllowed p then dirs w !! p else None.

(** [value.replace(/\\/g, '/')]. *)
Fixpoint normalizeRelativePath (value : string) : string :=
  match value with
  | EmptyString => EmptyString
  | String c rest =>
      String (if Ascii.eqb c "\"%char then "/"%char else c) (normalizeRelativePath rest)
  end.

Definition resolveInputPath (cwd inputPath : string) : string :=
  if path_isAbsolute inputPath then inputPath else path_resolve cwd inputPath.

Definition coerceFilePath (input : list (string * json)) : option string :=
  Json.orElse (Json.getString (Json.prop input "file_path"))
    (Json.orElse (Json.getString (Json.prop input "filePath"))
       (Json.orElse (Json.getString (Json.prop input "path"))
          (Json.getString (Json.prop input "filename")))).

Definition coerceText (input : list (string * json)) : option string :=
  match Json.prop input "content" with
  | Some (JStr s) => Some s
  | _ => match Json.prop input "text" with
         | Some (JStr s) => Some s
         | _ => None
         end
  end.

(** [escapeRegExp] on one character. *)
Definition escapeRegExp (c : ascii) : string :=
  if bool_decide (c ∈ [".";"*";"+";"?";"^";"$";"{";"}";"(";")";"|";"[";"]";"\"]%char)
  then String "\"%char (String c EmptyString)
  else String c EmptyString.

(** The body of the regular expression [globToRegExp] builds. *)
Fixpoint globToRegExp_body (normalized : string) : string :=
  match normalized with
  | EmptyString => EmptyString
  | String c rest =>
      if Ascii.eqb c "*"%char then
        match rest with
        | String c2 rest2 =>
            if Ascii.eqb c2 "*"%char then
              match rest2 with
              | String c3 rest3 =>
                  if Ascii.eqb c3 "/"%char
                  then ".*/?" +:+ globToRegExp_body rest3
                  else ".*" +:+ globToRegExp_body rest2
              | EmptyString => ".*" +:+ globToRegExp_body rest2
              end
            else "[^/]*" +:+ globToRegExp_body rest
        | EmptyString => "[^/]*" +:+ globToRegExp_body rest
        end
      else if Ascii.eqb c "?"%char then "." +:+ globToRegExp_body rest
      else escapeRegExp c +:+ globToRegExp_body rest
  end.

(** [globToRegExp]: the source of the anchored regular expression. *)
Definition globToRegExp (pattern : string) : string :=
  "^" +:+ globToRegExp_body (normalizeRelativePath pattern) +:+ "$".

Definition entryName (entry : Dirent) : string :=
  match entry with
  | FileEntry n | DirEntry n _ | OtherEntry n => n
  end.

(** The [for (const entry of entries)] loop of [walkDirectory].  [inl] is
    the early [return results]; [inr] carries on with the outer loop.  The
    array [pending] is used as a stack and is kept with its last element
    first. *)
Fixpoint scanEntries (rootDir current : string) (maxResults : Z)
    (entries : list Dirent) (results : list string)
    (pending : list (string * option (list Dirent)))
  : list string + (list string * list (string * option (list Dirent))) :=
  match entries with
  | [] => inr (results, pending)
  | entry :: rest =>
      let fullPath := path_join current (entryName entry) in
      match entry with
      | DirEntry n listing =>
          if bool_decide (n ∈ DEFAULT_IGNORE_DIRS)
          then scanEntries rootDir current maxResults rest results pending
          else scanEntries rootDir current maxResults rest results ((fullPath, listing) :: pending)
      | FileEntry _ =>
          let relative := path_relative rootDir fullPath in
          let results' := results ++ [normalizeRelativePath relative] in
          if Z.of_nat (length results') >=? maxResults
          then inl results'
          else scanEntries rootDir current maxResults rest results' pending
      | OtherEntry _ => scanEntries rootDir current maxResults rest results pending
      end
  end.

(** The [while (pending.length > 0)] loop; [None] when [fuel] iterations do
    not finish it. *)
Fixpoint walkLoop (fuel : nat) (rootDir : string) (maxResults : Z)
    (results : list string) (pending : list (string * option (list Dirent)))
  : option (list string) :=
  match fuel with
  | O => None
  | S fuel' =>
      match pending with
      | [] => Some results
      | (current, listing) :: pending' =>
          if negb (Js.truthy current) then Some results
          else match listing with
               | None => walkLoop fuel' rootDir maxResults results pending'
               | Some entries =>
                   match scanEntries rootDir current maxResults entries results pending' with
                   | inl returned => Some returned
                   | inr (results', pending'') =>
                       walkLoop fuel' rootDir maxResults results' pending''
                   end
               end
      end
  end.

(** The number of directory reads a tree can cause. *)
Fixpoint direntWeight (entry : Dirent) : nat :=
  match entry with
  | DirEntry _ (Some entries) =>
      S ((fix sum (es : list Dirent) : nat :=
            match es with
            | [] => O
            | e :: es' => (direntWeight e + sum es')%nat
            end) entries)
  | _ => 1%nat
  end.

Definition listingWeight (listing : option (list Dirent)) : nat :=
  match listing with
  | Some entries => S (list_sum (map direntWeight entries))
  | None => 1%nat
  end.

Definition pendingWeight (pending : list (string * option (list Dirent))) : nat :=
  list_sum (map (λ item, listingWeight item.2) pending).

(** [walkDirectory]: the loop run for as many iterations as the tree at
    [rootDir] can need. *)
Definition walkDirectory (rootDir : string) (maxResults : Z) : M World (list string) :=
  λ w, let pending := [(rootDir, secureFs_readdir rootDir w)] in
       match walkLoop (S (pendingWeight pending)) rootDir maxResults [] pending with
       | Some results => (inr results, w)
       | None => (inl (new_Error "walkDirectory: loop bound exceeded"), w)
       end.

Definition failure (text : string) : ToolExecutionResult :=
  {| content := text; isError := Some true |}.

Definition success (text : string) : ToolExecutionResult :=
  {| content := text; isError := None |}.

Definition writeTool (input : option json) (context : ToolExecutionContext)
  : M World ToolExecutionResult :=
  match Json.asObject input with
  | None => ret (failure "Write tool input must be an object.")
  | Some params =>
      match coerceFilePath params, coerceText params with
      | Some filePath, Some text =>
          let resolved := resolveInputPath (cwd context) filePath in
          let! outcome := attempt (
            let! _ := secureFs_mkdir (path_dirname resolved) in
            let! _ := secureFs_writeFile resolved text in
            ret (success ("Wrote " +:+ Js.string_of_Z (Z.of_nat (String.length text))
                            +:+ " characters to " +:+ resolved +:+ "."))) in
          match outcome with
          | inr result => ret result
          | inl error =>
              ret (failure ("Write failed for " +:+ resolved +:+ ": " +:+ err_message error))
          end
      | _, _ => ret (failure "Write tool requires file_path and content.")
      end
  end.

Definition notFound (oldString resolved : string) : ToolExecutionResult :=
  failure ("Edit failed: " +:+ Js.dquote +:+ oldString +:+ Js.dquote
             +:+ " not found in " +:+ resolved +:+ ".").

(** One iteration of [for (const edit of edits)]: [inl] is an early
    [return], [inr] the new [updated] and [totalReplacements]. *)
Definition applyEdit (resolved : string) (edit : json) (updated : string)
    (totalReplacements : Z) : ToolExecutionResult + (string * Z) :=
  match Json.asObject (Some edit) with
  | None => inl (failure "Edit entries must be objects.")
  | Some editObj =>
      let oldString :=
        Json.getString (Json.nullish (Json.prop editObj "old_string")
                                     (Json.prop editObj "oldString")) in
      let newString :=
        match Json.nullish (Json.prop editObj "new_string")
                (Json.nullish (Json.prop editObj "newString") (Some (JStr EmptyString))) with
        | Some v => Json.toString v
        | None => "undefined"%string
        end in
      let replaceAll :=
        Json.toBoolean (Json.nullish (Json.prop editObj "replace_all")
                                     (Json.prop editObj "replaceAll")) in
      match oldString with
      | None => inl (failure "Edit entries must include old_string.")
      | Some oldString =>
          if replaceAll then
            let parts := Js.split oldString updated in
            if Z.of_nat (length parts) =? 1 then inl (notFound oldString resolved)
            else inr (Js.join newString parts,
                      totalReplacements + (Z.of_nat (length parts) - 1))
          else
            let index := Js.indexOf updated oldString in
            if index =? -1 then inl (notFound oldString resolved)
            else inr (Js.slice updated 0 index +:+ newString
                        +:+ Js.slice_from updated (index + Z.of_nat (String.length oldString)),
                      totalReplacements + 1)
      end
  end.

Fixpoint applyEdits (resolved : string) (edits : list json) (updated : string)
    (totalReplacements : Z) : ToolExecutionResult + (string * Z) :=
  match edits with
  | [] => inr (updated, totalReplacements)
  | edit :: rest =>
      match applyEdit resolved edit updated totalReplacements with
      | inl early => inl early
      | inr (updated', total') => applyEdits resolved rest updated' total'
      end
  end.

Definition editTool (input : option json) (context : ToolExecutionContext)
  : M World ToolExecutionResult :=
  match Json.asObject input with
  | None => ret (failure "Edit tool input must be an object.")
  | Some params =>
      match coerceFilePath params with
      | None => ret (failure "Edit tool requires file_path.")
      | Some filePath =>
          let resolved := resolveInputPath (cwd context) filePath in
          let edits :=
            Json.nonEmptyArrayOr (Json.prop params "edits")
              [Json.literal
                 [("old_string"%string,
                   Json.nullish (Json.prop params "old_string") (Json.prop params "oldString"));
                  ("new_string"%string,
                   Json.nullish (Json.prop params "new_string") (Json.prop params "newString"));
                  ("replace_all"%string,
                   Json.nullish (Json.prop params "replace_all") (Json.prop params "replaceAll"))]] in
          let! outcome := attempt (
            let! original := secureFs_readFile resolved in
            match applyEdits resolved edits original 0 with
            | inl early => ret early
            | inr (updated, totalReplacements) =>
                if String.eqb updated original
                then ret (success ("Edit made no changes to " +:+ resolved +:+ "."))
                else
                  let! _ := secureFs_writeFile resolved updated in
                  ret (success ("Updated " +:+ resolved +:+ " ("
                                  +:+ Js.string_of_Z totalReplacements +:+ " replacements)."))
            end) in
          match outcome with
          | inr result => ret result
          | inl error =>
              ret (failure ("Edit failed for " +:+ resolved +:+ ": " +:+ err_message error))
          end
      end
  end.

(** [Number(v) || fallback]. *)
Definition numberOr (v : option json) (fallback : Z) : Z :=
  match v with
  | Some j => match js_Number j with
              | Some n => if n =? 0 then fallback else n
              | None => fallback
              end
  | None => fallback
  end.

Definition globTool (input : option json) (context : ToolExecutionContext)
  : M World ToolExecutionResult :=
  let params := default [] (Json.asObject input) in
  let pattern := default "**/*"%string (Json.getString (Json.prop params "pattern")) in
  let baseDir := default "."%string (Json.getString (Json.prop params "path")) in
  let maxResults :=
    numberOr (Json.nullish (Json.prop params "max_results")
                (Json.nullish (Json.prop params "maxResults")
                   (Some (JNum DEFAULT_MAX_RESULTS))))
      DEFAULT_MAX_RESULTS in
  let root := resolveInputPath (cwd context) baseDir in
  let matcher := globToRegExp pattern in
  let! outcome := attempt (
    let! found := walkDirectory root DEFAULT_MAX_RESULTS in
    let matches := List.filter (λ file, RegExp_test matcher file) found in
    if Z.of_nat (length matches) =? 0 then ret (success "No files matched.")
    else ret (success (Js.join Js.LF matches))) in
  match outcome with
  | inr result => ret result
  | inl error =>
      ret (failure ("Glob failed in " +:+ root +:+ ": " +:+ err_message error))
  end.

(** The directory a [Glob] call walks. *)
Definition globRoot (input : option json) (context : ToolExecutionContext) : string :=
  resolveInputPath (cwd context)
    (default "."%string
       (Json.getString (Json.prop (default [] (Json.asObject input)) "path"))).

Definition TOOL_DEFINITIONS : list (ToolDefinition World) :=
  [ {| name := "Read"; execute := readTool |};
    {| name := "Write"; execute := writeTool |};
    {| name := "Edit"; execute := editTool |};
    {| name := "Glob"; execute := globTool |};
    {| name := "Grep"; execute := grepTool |};
    {| name := "Bash"; execute := bashTool |};
    {| name := "WebFetch"; execute := webFetchTool |} ].

(** The files a walk from [rootDir] is meant to list: those reached from
    the root through directories none of which is in the ignore list. *)
Inductive listed (rootDir : string) : string → list Dirent → string → Prop :=
| listed_file current entries n :
    FileEntry n ∈ entries →
    listed rootDir current entries
      (normalizeRelativePath (path_relative rootDir (path_join current n)))
| listed_dir current entries n sub p :
    DirEntry n (Some sub) ∈ entries →
    n ∉ DEFAULT_IGNORE_DIRS →
    listed rootDir (path_join current n) sub p →
    listed rootDir current entries p.

(** A stack entry of the walk is sound for [P] when every file listed from
    it satisfies [P]. *)
Definition soundEntry (rootDir : string) (P : string → Prop)
    (item : string * option (list Dirent)) : Prop :=
  match item.2 with
  | Some entries => ∀ p, listed rootDir item.1 entries p → P p
  | None => True
  end.

End Registry.

End ToolRegistry.

(** ** Provider messages (the stream a provider yields) *)

Inductive ContentBlock :=
| TextBlock (text : string)
| ToolUseBlock (toolName : option string) (input : json) (tool_use_id : string)
| ToolResultBlock (tool_use_id : string) (text : string)
| OtherBlock.

(** [ProviderMessage]: [msg_content] is [message?.content]. *)
Record ProviderMessage := {
  msg_type : string;
  session_id : option string;
  msg_content : option (list ContentBlock);
  subtype : option string;
  result : option string
}.

Definition assistantMessage (blocks : list ContentBlock) : ProviderMessage :=
  {| msg_type := "assistant"; session_id := None; msg_content := Some blocks;
     subtype := None; result := None |}.

Definition successResult (text : string) : ProviderMessage :=
  {| msg_type := "result"; session_id := None; msg_content := None;
     subtype := Some "success"%string; result := Some text |}.

(** ** providers/openai-provider.ts *)

Module OpenAIProvider.

(** One entry of [delta.tool_calls]: [fn_name] and [fn_arguments] are
    [function?.name] and [function?.arguments]. *)
Record ToolCallDelta := {
  index : option Z;
  id : option string;
  fn_name : option string;
  fn_arguments : option string
}.

Record Delta := {
  delta_content : option string;
  tool_calls : option (list ToolCallDelta)
}.

Record Choice := {
  delta : option Delta;
  finish_reason : option string
}.

Record OpenAIStreamChunk := { choices : option (list Choice) }.

Record ToolCallAccumulator := {
  acc_id : string;
  acc_name : string;
  acc_arguments : string
}.

Record OpenAIToolCall := {
  tc_id : string;
  tc_name : string;
  tc_arguments : string
}.

Record OpenAIMessage := {
  role : string;
  text : option string;
  msg_tool_calls : option (list OpenAIToolCall);
  tool_call_id : option string
}.

(** What one request carries besides the credentials. *)
Record Request := {
  req_model : string;
  req_messages : list OpenAIMessage;
  req_tools : option (list string)
}.

(** What a request is answered with: the chunks the stream delivers and how
    it ends, [Some error] when opening or reading the stream throws. *)
Record Response := {
  chunks : list OpenAIStreamChunk;
  failure : option Error
}.

(** The part of [ExecuteOptions] the loop reads.  [messages] is the list
    built from the system prompt, the conversation history and the prompt
    before the loop starts. *)
Record ExecuteOptions := {
  model : string;
  cwd : string;
  maxTurns : option Z;
  allowedTools : option (list string);
  messages : list OpenAIMessage
}.

(** A value that is a non-empty string. *)
Definition truthyString (v : option string) : option string :=
  match v with
  | Some s => if Js.truthy s then Some s else None
  | None => None
  end.

(** ** The [Map<number, ToolCallAccumulator>] of one round.  A JavaScript
    map iterates in insertion order; it is kept as the list of its entries in
    that order. *)
Fixpoint Map_get {A} (m : list (Z * A)) (key : Z) : option A :=
  match m with
  | [] => None
  | (k, v) :: rest => if k =? key then Some v else Map_get rest key
  end.

Fixpoint Map_set {A} (m : list (Z * A)) (key : Z) (value : A) : list (Z * A) :=
  match m with
  | [] => [(key, value)]
  | (k, v) :: rest =>
      if k =? key then (k, value) :: rest else (k, v) :: Map_set rest key value
  end.

Definition emptyAccumulator : ToolCallAccumulator :=
  {| acc_id := EmptyString; acc_name := EmptyString; acc_arguments := EmptyString |}.

(** The three conditional updates of one fragment. *)
Definition applyDelta (existing : ToolCallAccumulator) (d : ToolCallDelta)
  : ToolCallAccumulator :=
  let existing1 :=
    match truthyString (id d) with
    | Some i => {| acc_id := i; acc_name := acc_name existing;
                   acc_arguments := acc_arguments existing |}
    | None => existing
    end in
  let existing2 :=
    match truthyString (fn_name d) with
    | Some n => {| acc_id := acc_id existing1; acc_name := n;
                   acc_arguments := acc_arguments existing1 |}
    | None => existing1
    end in
  match truthyString (fn_arguments d) with
  | Some a => {| acc_id := acc_id existing2; acc_name := acc_name existing2;
                 acc_arguments := acc_arguments existing2 +:+ a |}
  | None => existing2
  end.

(** [toolCallDelta.index ?? 0]. *)
Definition slotOf (d : ToolCallDelta) : Z := default 0 (index d).

(** The body of [for (const toolCallDelta of choice.delta.tool_calls)]. *)
Definition accumulate (accumulators : list (Z * ToolCallAccumulator))
    (d : ToolCallDelta) : list (Z * ToolCallAccumulator) :=
  let existing := default emptyAccumulator (Map_get accumulators (slotOf d)) in
  Map_set accumulators (slotOf d) (applyDelta existing d).

(** The variables of one round of the tool loop. *)
Record Round := {
  toolCallAccumulators : list (Z * ToolCallAccumulator);
  finishReason : option string;
  assistantText : string;
  yielded : list ProviderMessage
}.

Definition newRound : Round :=
  {| toolCallAccumulators := []; finishReason := None;
     assistantText := EmptyString; yielded := [] |}.

(** The body of [for await (const chunk of stream)]. *)
Definition onChunk (r : Round) (chunk : OpenAIStreamChunk) : Round :=
  match head (default [] (choices chunk)) with
  | None => r
  | Some choice =>
      match delta choice with
      | None => r
      | Some d =>
          let r1 :=
            match truthyString (delta_content d) with
            | Some deltaText =>
                {| toolCallAccumulators := toolCallAccumulators r;
                   finishReason := finishReason r;
                   assistantText := assistantText r +:+ deltaText;
                   yielded := yielded r ++ [assistantMessage [TextBlock deltaText]] |}
            | None => r
            end in
          let r2 :=
            match tool_calls d with
            | Some deltas =>
                {| toolCallAccumulators := foldl accumulate (toolCallAccumulators r1) deltas;
                   finishReason := finishReason r1;
                   assistantText := assistantText r1;
                   yielded := yielded r1 |}
            | None => r1
            end in
          match truthyString (finish_reason choice) with
          | Some reason =>
              {| toolCallAccumulators := toolCallAccumulators r2;
                 finishReason := Some reason;
                 assistantText := assistantText r2;
                 yielded := yielded r2 |}
          | None => r2
          end
      end
  end.

(** [entries.sort((a, b) => a[0] - b[0])]: a stable sort by slot index. *)
Fixpoint insertEntry {A} (e : Z * A) (sorted : list (Z * A)) : list (Z * A) :=
  match sorted with
  | [] => [e]
  | e' :: rest => if e'.1 <=? e.1 then e' :: insertEntry e rest else e :: e' :: rest
  end.

Definition sortEntries {A} (entries : list (Z * A)) : list (Z * A) :=
  foldr (λ e sorted, insertEntry e sorted) [] entries.

(** [call.id && call.name]. *)
Definition isComplete (call : ToolCallAccumulator) : bool :=
  Js.truthy (acc_id call) && Js.truthy (acc_name call).

(** [Array.from(entries()).sort(...).map(([, call]) => call).filter(...)]. *)
Definition toolCallsOf (accumulators : list (Z * ToolCallAccumulator))
  : list ToolCallAccumulator :=
  List.filter isComplete (map snd (sortEntries accumulators)).

(** The round a stream of chunks leaves behind, and its finished calls. *)
Definition roundOf (stream : list OpenAIStreamChunk) : Round :=
  foldl onChunk newRound stream.

Definition streamToolCalls (stream : list OpenAIStreamChunk) : list ToolCallAccumulator :=
  toolCallsOf (toolCallAccumulators (roundOf stream)).

(** The tool-call fragments of a stream in arrival order, and those of one
    slot. *)
Definition chunkFragments (chunk : OpenAIStreamChunk) : list ToolCallDelta :=
  match head (default [] (choices chunk)) with
  | Some choice =>
      match delta choice with
      | Some d => default [] (tool_calls d)
      | None => []
      end
  | None => []
  end.

Definition fragments (stream : list OpenAIStreamChunk) : list ToolCallDelta :=
  concat (map chunkFragments stream).

Definition slotFragments (slot : Z) (stream : list OpenAIStreamChunk) : list ToolCallDelta :=
  List.filter (λ d, slotOf d =? slot) (fragments stream).

(** A slot's call as its fragments alone determine it. *)
Definition assemble (frags : list ToolCallDelta) : ToolCallAccumulator :=
  foldl applyDelta emptyAccumulator frags.

(** The last non-empty id and name among a list of deltas. *)
Definition lastId (frags : list ToolCallDelta) : string :=
  default EmptyString (last (omap (λ d, truthyString (id d)) frags)).

Definition lastName (frags : list ToolCallDelta) : string :=
  default EmptyString (last (omap (λ d, truthyString (fn_name d)) frags)).

(** The argument fragments of a list of deltas, concatenated. *)
Definition concatArguments (frags : list ToolCallDelta) : string :=
  foldl (λ s d, s +:+ default EmptyString (truthyString (fn_arguments d))) EmptyString frags.

(** What the map holds for a slot after a list of fragments of that slot:
    what it held before when there is none, else the fragments folded in
    their order. *)
Definition slotValue (before : option ToolCallAccumulator) (frags : list ToolCallDelta)
  : option ToolCallAccumulator :=
  match frags with
  | [] => before
  | _ => Some (foldl applyDelta (default emptyAccumulator before) frags)
  end.

(** Entries in strictly ascending order of slot index. *)
Definition keyLt {A} (e1 e2 : Z * A) : Prop := e1.1 < e2.1.

(** The message yielded for one text delta. *)
Definition textEvent (deltaText : string) : ProviderMessage :=
  assistantMessage [TextBlock deltaText].

(** The non-empty text deltas of a stream, in arrival order. *)
Definition chunkText (chunk : OpenAIStreamChunk) : list string :=
  match head (default [] (choices chunk)) with
  | Some choice =>
      match delta choice with
      | Some d => option_list (truthyString (delta_content d))
      | None => []
      end
  | None => []
  end.

Definition textDeltas (stream : list OpenAIStreamChunk) : list string :=
  concat (map chunkText stream).

Section Provider.

Context {W : Type}.

Variable JSON_parse : string → Error + json.
Variable TOOL_DEFINITIONS : list (ToolDefinition W).

(** [this.getApiKey()]. *)
Variable apiKey : option string.

(** [createChatCompletionStream] followed by the reading of its stream. *)
Variable backend : Request → Response.

(** [safeParseToolArguments]. *)
Definition safeParseToolArguments (raw : string) : json :=
  if Js.truthy raw then
    match JSON_parse raw with
    | inr v => v
    | inl _ => JObj [("raw"%string, JStr raw)]
    end
  else JObj [].

(** What a run of the generator amounts to: the messages it yielded, the
    requests it sent, and whether it returned ([inr]) or threw ([inl]). *)
Record Run := {
  events : list ProviderMessage;
  requests : list Request;
  outcome : Error + unit
}.

Definition andThen (evs : list ProviderMessage) (req : Request) (rest : Run) : Run :=
  {| events := evs ++ events rest;
     requests := req :: requests rest;
     outcome := outcome rest |}.

Definition toolUseBlock (call : ToolCallAccumulator) : ContentBlock :=
  ToolUseBlock (Some (acc_name call)) (safeParseToolArguments (acc_arguments call)) (acc_id call).

Definition toOpenAIToolCall (call : ToolCallAccumulator) : OpenAIToolCall :=
  {| tc_id := acc_id call; tc_name := acc_name call; tc_arguments := acc_arguments call |}.

Definition toToolCall (call : ToolCallAccumulator) : ToolCall :=
  {| call_id := acc_id call; call_name := acc_name call; call_arguments := acc_arguments call |}.

Definition toolMessage (r : ToolExecutionOutput) : OpenAIMessage :=
  {| role := "tool"; text := Some (out_content r); msg_tool_calls := None;
     tool_call_id := Some (out_id r) |}.

Definition toolResultEvent (r : ToolExecutionOutput) : ProviderMessage :=
  assistantMessage [ToolResultBlock (out_id r) (out_content r)].

(** The request of one round: [tools.length > 0 ? tools : undefined]. *)
Definition requestOf (options : ExecuteOptions) (tools : list string)
    (activeMessages : list OpenAIMessage) : Request :=
  {| req_model := model options;
     req_messages := activeMessages;
     req_tools := if Z.of_nat (length tools) >? 0 then Some tools else None |}.

Definition exceeded : Error := new_Error "OpenAI tool loop exceeded maxTurns.".

(** The [while (iterations < maxTurns)] loop.  [iterations] counts up from
    0 by one per round, so the body runs while rounds are left of the budget;
    [turnsLeft] is that number of rounds, [maxTurns] rounded up to a natural
    number at the start. *)
Fixpoint toolLoop (turnsLeft : nat) (options : ExecuteOptions) (tools : list string)
    (activeMessages : list OpenAIMessage) (w : W) : Run * W :=
  match turnsLeft with
  | O => ({| events := []; requests := []; outcome := inl exceeded |}, w)
  | S turnsLeft' =>
      let request := requestOf options tools activeMessages in
      let response := backend request in
      let round := roundOf (chunks response) in
      match failure response with
      | Some error =>
          ({| events := yielded round; requests := [request]; outcome := inl error |}, w)
      | None =>
          let toolCalls := toolCallsOf (toolCallAccumulators round) in
          if Z.of_nat (length toolCalls) =? 0 then
            ({| events := yielded round ++ [successResult (assistantText round)];
                requests := [request];
                outcome := inr () |}, w)
          else
            let toolUseBlocks := map toolUseBlock toolCalls in
            let activeMessages1 :=
              activeMessages ++
              [ {| role := "assistant";
                   text := truthyString (Some (assistantText round));
                   msg_tool_calls := Some (map toOpenAIToolCall toolCalls);
                   tool_call_id := None |} ] in
            let toolCallInputs := map toToolCall toolCalls in
            match ToolExecutor.executeToolCalls JSON_parse TOOL_DEFINITIONS toolCallInputs
                    (Build_ToolExecutionContext (cwd options)) (allowedTools options) w with
            | (inl error, w') =>
                ({| events := yielded round ++ [assistantMessage toolUseBlocks];
                    requests := [request];
                    outcome := inl error |}, w')
            | (inr toolResults, w') =>
                let activeMessages2 := activeMessages1 ++ map toolMessage toolResults in
                let '(rest, w'') := toolLoop turnsLeft' options tools activeMessages2 w' in
                (andThen (yielded round ++ [assistantMessage toolUseBlocks]
                            ++ map toolResultEvent toolResults) request rest, w'')
            end
      end
  end.

(** [executeQuery]. *)
Definition executeQuery (options : ExecuteOptions) (w : W) : Run * W :=
  match truthyString apiKey with
  | None =>
      ({| events := []; requests := [];
          outcome := inl (new_Error "OpenAI API key not configured.") |}, w)
  | Some _ =>
      let tools :=
        map name (ToolExecutor.getToolDefinitions TOOL_DEFINITIONS (allowedTools options)) in
      toolLoop (Z.to_nat (default 20 (maxTurns options))) options tools (messages options) w
  end.

End Provider.

End OpenAIProvider.

(** ** services/agent-service.ts *)

Module AgentService.

Record Image := { data : string; mimeType : string; filename : string }.

Record Message := {
  m_id : string;
  m_role : string;
  m_content : string;
  m_images : option (list Image);
  m_timestamp : string;
  m_isError : option bool
}.

Record QueuedPrompt := {
  q_id : string;
  q_message : string;
  q_imagePaths : option (list string);
  q_model : option string;
  q_addedAt : string
}.

(** [Session].  An [AbortController] is known by the number it was created
    with; whether [abort()] was called on it is recorded in the state. *)
Record Session := {
  messages : list Message;
  isRunning : bool;
  abortController : option nat;
  workingDirectory : string;
  model : option string;
  sdkSessionId : option string;
  promptQueue : list QueuedPrompt
}.

Record SessionMetadata := {
  md_id : string;
  md_name : string;
  md_projectPath : option string;
  md_workingDirectory : string;
  md_createdAt : string;
  md_updatedAt : string;
  md_archived : option bool;
  md_tags : option (list string);
  md_model : option string;
  md_sdkSessionId : option string
}.

(** The payloads of the ['agent:stream'] events. *)
Inductive AgentEvent :=
| Started
| MessageEvent (message : Message)
| Stream (messageId content : string)
| ToolUse (toolName : string) (input : json)
| Complete (messageId : option string) (content : string) (toolUses : list (string * json))
| ErrorEvent (error : string) (message : Message)
| QueueUpdated (queue : list QueuedPrompt)
| QueueError (error promptId : string).

(** The service, its files and its surroundings.  Files are keyed by the
    session id their name is built from ([<id>.json], [<id>-queue.json]);
    [metadataFile] is [None] while the metadata file cannot be read.  The data
    directory is always allowed by the Path Guard and writes to it succeed.
    [emitted] is everything sent to the event emitter, oldest first;
    [immediates] are the callbacks handed to [setImmediate], each a call of
    [processNextInQueue] for a session; [ticks] numbers the identifiers,
    dates and controllers created so far. *)
Record State := {
  sessions : gmap string Session;
  sessionFiles : gmap string (list Message);
  queueFiles : gmap string (list QueuedPrompt);
  metadataFile : option (gmap string SessionMetadata);
  emitted : list (string * AgentEvent);
  immediates : list string;
  aborted : gset nat;
  ticks : nat
}.

Definition withSessions (f : gmap string Session → gmap string Session) (st : State) : State :=
  {| sessions := f (sessions st); sessionFiles := sessionFiles st;
     queueFiles := queueFiles st; metadataFile := metadataFile st;
     emitted := emitted st; immediates := immediates st;
     aborted := aborted st; ticks := ticks st |}.

Definition withSessionFiles (f : gmap string (list Message) → gmap string (list Message))
    (st : State) : State :=
  {| sessions := sessions st; sessionFiles := f (sessionFiles st);
     queueFiles := queueFiles st; metadataFile := metadataFile st;
     emitted := emitted st; immediates := immediates st;
     aborted := aborted st; ticks := ticks st |}.

Definition withQueueFiles
    (f : gmap string (list QueuedPrompt) → gmap string (list QueuedPrompt))
    (st : State) : State :=
  {| sessions := sessions st; sessionFiles := sessionFiles st;
     queueFiles := f (queueFiles st); metadataFile := metadataFile st;
     emitted := emitted st; immediates := immediates st;
     aborted := aborted st; ticks := ticks st |}.

Definition withMetadataFile (md : option (gmap string SessionMetadata)) (st : State) : State :=
  {| sessions := sessions st; sessionFiles := sessionFiles st;
     queueFiles := queueFiles st; metadataFile := md;
     emitted := emitted st; immediates := immediates st;
     aborted := aborted st; ticks := ticks st |}.

(** [this.events.emit('agent:stream', { sessionId, ...data })]. *)
Definition emitAgentEvent (sessionId : string) (event : AgentEvent) (st : State) : State :=
  {| sessions := sessions st; sessionFiles := sessionFiles st;
     queueFiles := queueFiles st; metadataFile := metadataFile st;
     emitted := emitted st ++ [(sessionId, event)]; immediates := immediates st;
     aborted := aborted st; ticks := ticks st |}.

(** [setImmediate(() => this.processNextInQueue(sessionId))]. *)
Definition setImmediate (sessionId : string) (st : State) : State :=
  {| sessions := sessions st; sessionFiles := sessionFiles st;
     queueFiles := queueFiles st; metadataFile := metadataFile st;
     emitted := emitted st; immediates := immediates st ++ [sessionId];
     aborted := aborted st; ticks := ticks st |}.

Definition abort (controller : nat) (st : State) : State :=
  {| sessions := sessions st; sessionFiles := sessionFiles st;
     queueFiles := queueFiles st; metadataFile := metadataFile st;
     emitted := emitted st; immediates := immediates st;
     aborted := {[controller]} ∪ aborted st; ticks := ticks st |}.

(** Takes the next number of the supply. *)
Definition tick (st : State) : nat * State :=
  (ticks st,
   {| sessions := sessions st; sessionFiles := sessionFiles st;
      queueFiles := queueFiles st; metadataFile := metadataFile st;
      emitted := emitted st; immediates := immediates st;
      aborted := aborted st; ticks := S (ticks st) |}).

(** [session.field = value] on the session object registered under
    [sessionId]. *)
Definition updateSessionObject (sessionId : string) (f : Session → Session) (st : State)
  : State :=
  withSessions (alter f sessionId) st.

Definition setMessages (ms : list Message) (s : Session) : Session :=
  {| messages := ms; isRunning := isRunning s; abortController := abortController s;
     workingDirectory := workingDirectory s; model := model s;
     sdkSessionId := sdkSessionId s; promptQueue := promptQueue s |}.

Definition setRunning (running : bool) (controller : option nat) (s : Session) : Session :=
  {| messages := messages s; isRunning := running; abortController := controller;
     workingDirectory := workingDirectory s; model := model s;
     sdkSessionId := sdkSessionId s; promptQueue := promptQueue s |}.

Definition setModel (m : string) (s : Session) : Session :=
  {| messages := messages s; isRunning := isRunning s; abortController := abortController s;
     workingDirectory := workingDirectory s; model := Some m;
     sdkSessionId := sdkSessionId s; promptQueue := promptQueue s |}.

Definition setSdkSessionId (i : string) (s : Session) : Session :=
  {| messages := messages s; isRunning := isRunning s; abortController := abortController s;
     workingDirectory := workingDirectory s; model := model s;
     sdkSessionId := Some i; promptQueue := promptQueue s |}.

Definition setPromptQueue (q : list QueuedPrompt) (s : Session) : Session :=
  {| messages := messages s; isRunning := isRunning s; abortController := abortController s;
     workingDirectory := workingDirectory s; model := model s;
     sdkSessionId := sdkSessionId s; promptQueue := q |}.

Definition setContent (text : string) (m : Message) : Message :=
  {| m_id := m_id m; m_role := m_role m; m_content := text; m_images := m_images m;
     m_timestamp := m_timestamp m; m_isError := m_isError m |}.

(** The arguments of [sendMessage]. *)
Record SendArgs := {
  sessionId : string;
  message : string;
  arg_workingDirectory : option string;
  imagePaths : option (list string);
  arg_model : option string
}.

(** What [sendMessage] resolves to: [{ success, message }] or
    [{ success, aborted }]. *)
Record SendResult := {
  success : bool;
  res_aborted : option bool;
  res_message : option Message
}.

(** The [{ success, error? }] shape of the other operations. *)
Record OpResult := { ok : bool; op_error : option string }.

(** The local variables of a turn that outlive one stream message. *)
Record Turn := {
  conversationHistory : list (string * string);
  currentAssistantMessage : option Message;
  responseText : string;
  toolUses : list (string * json)
}.

(** What the turn hands to the provider. *)
Record TurnInput := {
  in_args : SendArgs;
  in_session : Session;
  in_history : list (string * string)
}.

Section Service.

(** [generateId()] and [new Date().toISOString()], by the number drawn. *)
Variable idOf : nat → string.
Variable timeOf : nat → string.

(** [readImageAsBase64], [None] when it throws. *)
Variable readImageAsBase64 : string → option Image.

(** [isAbortError] of the utilities package. *)
Variable isAbortError : Error → bool.

(** Everything between the start of the [try] block and the stream: the
    settings and context files read, the options built, the provider chosen
    and queried.  The result is the messages the stream delivers and how it
    ends; a failure before the stream is a stream that throws at once. *)
Variable provider : TurnInput → list ProviderMessage * option Error.

(** [extractEditIntent] followed by [validateAndSetScope] on the text so
    far, in the effective working directory: the error thrown, if any. *)
Variable checkEditIntent : string → string → option Error.

Definition generateId (st : State) : string * State :=
  let '(n, st') := tick st in (idOf n, st').

Definition now (st : State) : string * State :=
  let '(n, st') := tick st in (timeOf n, st').

(** [loadMetadata]: the empty record when the file cannot be read. *)
Definition loadMetadata (st : State) : gmap string SessionMetadata :=
  default ∅ (metadataFile st).

Definition saveMetadata (metadata : gmap string SessionMetadata) (st : State) : State :=
  withMetadataFile (Some metadata) st.

Definition setUpdatedAt (t : string) (md : SessionMetadata) : SessionMetadata :=
  {| md_id := md_id md; md_name := md_name md; md_projectPath := md_projectPath md;
     md_workingDirectory := md_workingDirectory md; md_createdAt := md_createdAt md;
     md_updatedAt := t; md_archived := md_archived md; md_tags := md_tags md;
     md_model := md_model md; md_sdkSessionId := md_sdkSessionId md |}.

Definition setMdModel (m : string) (md : SessionMetadata) : SessionMetadata :=
  {| md_id := md_id md; md_name := md_name md; md_projectPath := md_projectPath md;
     md_workingDirectory := md_workingDirectory md; md_createdAt := md_createdAt md;
     md_updatedAt := md_updatedAt md; md_archived := md_archived md; md_tags := md_tags md;
     md_model := Some m; md_sdkSessionId := md_sdkSessionId md |}.

Definition setMdSdkSessionId (i : string) (md : SessionMetadata) : SessionMetadata :=
  {| md_id := md_id md; md_name := md_name md; md_projectPath := md_projectPath md;
     md_workingDirectory := md_workingDirectory md; md_createdAt := md_createdAt md;
     md_updatedAt := md_updatedAt md; md_archived := md_archived md; md_tags := md_tags md;
     md_model := md_model md; md_sdkSessionId := Some i |}.

Definition updateSessionTimestamp (sid : string) (st : State) : State :=
  let metadata := loadMetadata st in
  match metadata !! sid with
  | Some md =>
      let '(t, st1) := now st in
      saveMetadata (<[sid := setUpdatedAt t md]> metadata) st1
  | None => st
  end.

(** [updateSession(sessionId, updates)]: [updates] is the effect of the
    spread of the partial record; the returned metadata is not used by the
    callers modelled here. *)
Definition updateSession (sid : string) (updates : SessionMetadata → SessionMetadata)
    (st : State) : State :=
  let metadata := loadMetadata st in
  match metadata !! sid with
  | None => st
  | Some md =>
      let '(t, st1) := now st in
      saveMetadata (<[sid := setUpdatedAt t (updates md)]> metadata) st1
  end.

Definition saveSession (sid : string) (ms : list Message) (st : State) : State :=
  updateSessionTimestamp sid (withSessionFiles (λ fs, <[sid := ms]> fs) st).

Definition saveQueueState (sid : string) (queue : list QueuedPrompt) (st : State) : State :=
  withQueueFiles (λ fs, <[sid := queue]> fs) st.

Definition sessionMessages (sid : string) (st : State) : list Message :=
  match sessions st !! sid with
  | Some session => messages session
  | None => []
  end.

Definition alreadyRunning : Error := new_Error "Agent is already processing a message".

(** [sendMessage] up to the [try] block: the checks, the user message, the
    transition to running and the first save. *)
Definition sendMessage_begin (args : SendArgs) (st : State) : (Error + Turn) * State :=
  let sid := sessionId args in
  match sessions st !! sid with
  | None => (inl (new_Error ("Session " +:+ sid +:+ " not found")), st)
  | Some session =>
      if isRunning session then (inl alreadyRunning, st)
      else
        let st1 :=
          match OpenAIProvider.truthyString (arg_model args) with
          | Some m => updateSession sid (setMdModel m) (updateSessionObject sid (setModel m) st)
          | None => st
          end in
        let images := omap readImageAsBase64 (default [] (imagePaths args)) in
        let '(newId, st2) := generateId st1 in
        let '(stamp, st3) := now st2 in
        let userMessage :=
          {| m_id := newId; m_role := "user"; m_content := message args;
             m_images := if Z.of_nat (length images) >? 0 then Some images else None;
             m_timestamp := stamp; m_isError := None |} in
        let '(controller, st4) := tick st3 in
        let st5 :=
          updateSessionObject sid
            (λ s, setRunning true (Some controller) (setMessages (messages s ++ [userMessage]) s))
            st4 in
        let st6 := emitAgentEvent sid Started st5 in
        let st7 := emitAgentEvent sid (MessageEvent userMessage) st6 in
        let st8 := saveSession sid (sessionMessages sid st7) st7 in
        (inr {| conversationHistory := map (λ m, (m_role m, m_content m)) (messages session);
                currentAssistantMessage := None; responseText := EmptyString;
                toolUses := [] |},
         st8)
  end.

(** [currentAssistantMessage.content = text]: the message object is the one
    pushed to [session.messages], known by its id. *)
Definition setAssistantContent (sid : string) (target : Message) (text : string) (st : State)
  : State :=
  updateSessionObject sid
    (λ s, setMessages
            (map (λ m, if String.eqb (m_id m) (m_id target) then setContent text m else m)
                 (messages s)) s)
    st.

(** One text block of the first pass over [msg.message.content]. *)
Definition onTextBlock (sid workDir : string) (blockText : string) (turn : Turn) (st : State)
  : (Error + Turn) * State :=
  let responseText' := responseText turn +:+ blockText in
  let '(current, st1) :=
    match currentAssistantMessage turn with
    | None =>
        let '(newId, sta) := generateId st in
        let '(stamp, stb) := now sta in
        let fresh :=
          {| m_id := newId; m_role := "assistant"; m_content := responseText';
             m_images := None; m_timestamp := stamp; m_isError := None |} in
        (fresh, updateSessionObject sid (λ s, setMessages (messages s ++ [fresh]) s) stb)
    | Some current =>
        (setContent responseText' current, setAssistantContent sid current responseText' st)
    end in
  let turn' :=
    {| conversationHistory := conversationHistory turn;
       currentAssistantMessage := Some current; responseText := responseText';
       toolUses := toolUses turn |} in
  match checkEditIntent workDir responseText' with
  | Some error => (inl error, st1)
  | None => (inr turn', emitAgentEvent sid (Stream (m_id current) responseText') st1)
  end.

Fixpoint textPass (sid workDir : string) (blocks : list ContentBlock) (turn : Turn)
    (st : State) : (Error + Turn) * State :=
  match blocks with
  | [] => (inr turn, st)
  | TextBlock blockText :: rest =>
      match onTextBlock sid workDir blockText turn st with
      | (inl error, st') => (inl error, st')
      | (inr turn', st') => textPass sid workDir rest turn' st'
      end
  | _ :: rest => textPass sid workDir rest turn st
  end.

(** The second pass: [enforceEditGuardrails] returns without checking
    anything, so a tool use is only recorded and announced. *)
Fixpoint toolUsePass (sid : string) (blocks : list ContentBlock) (turn : Turn) (st : State)
  : Turn * State :=
  match blocks with
  | [] => (turn, st)
  | ToolUseBlock toolName input _ :: rest =>
      let toolUse := (default "unknown"%string (OpenAIProvider.truthyString toolName), input) in
      toolUsePass sid rest
        {| conversationHistory := conversationHistory turn;
           currentAssistantMessage := currentAssistantMessage turn;
           responseText := responseText turn;
           toolUses := toolUses turn ++ [toolUse] |}
        (emitAgentEvent sid (ToolUse toolUse.1 toolUse.2) st)
  | _ :: rest => toolUsePass sid rest turn st
  end.

(** The body of [for await (const msg of stream)]. *)
Definition onProviderMessage (sid workDir : string) (msg : ProviderMessage) (turn : Turn)
    (st : State) : (Error + Turn) * State :=
  let st1 :=
    match OpenAIProvider.truthyString (session_id msg), sessions st !! sid with
    | Some i, Some session =>
        match OpenAIProvider.truthyString (sdkSessionId session) with
        | None => updateSession sid (setMdSdkSessionId i)
                    (updateSessionObject sid (setSdkSessionId i) st)
        | Some _ => st
        end
    | _, _ => st
    end in
  if String.eqb (msg_type msg) "assistant" then
    match msg_content msg with
    | Some blocks =>
        match textPass sid workDir blocks turn st1 with
        | (inl error, st2) => (inl error, st2)
        | (inr turn', st2) =>
            let '(turn'', st3) := toolUsePass sid blocks turn' st2 in (inr turn'', st3)
        end
    | None => (inr turn, st1)
    end
  else if String.eqb (msg_type msg) "result" then
    let '(turn', st2) :=
      match subtype msg, OpenAIProvider.truthyString (result msg), currentAssistantMessage turn with
      | Some sub, Some text, Some current =>
          if String.eqb sub "success"
          then ({| conversationHistory := conversationHistory turn;
                   currentAssistantMessage := Some (setContent text current);
                   responseText := text; toolUses := toolUses turn |},
                setAssistantContent sid current text st1)
          else (turn, st1)
      | _, _, _ => (turn, st1)
      end in
    (inr turn',
     emitAgentEvent sid
       (Complete (m_id <$> currentAssistantMessage turn') (responseText turn') (toolUses turn'))
       st2)
  else (inr turn, st1).

Fixpoint consume (sid workDir : string) (stream : list ProviderMessage) (turn : Turn)
    (st : State) : (Error + Turn) * State :=
  match stream with
  | [] => (inr turn, st)
  | msg :: rest =>
      match onProviderMessage sid workDir msg turn st with
      | (inl error, st') => (inl error, st')
      | (inr turn', st') => consume sid workDir rest turn' st'
      end
  end.

(** The end of the [try] block: save, back to idle, schedule the drain. *)
Definition sendMessage_finish (sid : string) (turn : Turn) (st : State)
  : (Error + SendResult) * State :=
  let st1 := saveSession sid (sessionMessages sid st) st in
  let st2 := updateSessionObject sid (setRunning false None) st1 in
  let st3 := setImmediate sid st2 in
  (inr {| success := true; res_aborted := None;
          res_message := currentAssistantMessage turn |}, st3).

(** The [catch] block. *)
Definition sendMessage_catch (sid : string) (error : Error) (st : State)
  : (Error + SendResult) * State :=
  if isAbortError error then
    (inr {| success := false; res_aborted := Some true; res_message := None |},
     updateSessionObject sid (setRunning false None) st)
  else
    let st1 := updateSessionObject sid (setRunning false None) st in
    let '(newId, st2) := generateId st1 in
    let '(stamp, st3) := now st2 in
    let errorMessage :=
      {| m_id := newId; m_role := "assistant";
         m_content := "Error: " +:+ err_message error;
         m_images := None; m_timestamp := stamp; m_isError := Some true |} in
    let st4 := updateSessionObject sid (λ s, setMessages (messages s ++ [errorMessage]) s) st3 in
    let st5 := saveSession sid (sessionMessages sid st4) st4 in
    let st6 := emitAgentEvent sid (ErrorEvent (err_message error) errorMessage) st5 in
    (inl error, st6).

Definition effectiveWorkDir (args : SendArgs) (session : Session) : string :=
  default (workingDirectory session) (OpenAIProvider.truthyString (arg_workingDirectory args)).

(** The rest of a turn after [sendMessage_begin], when nothing else touches
    the service until it ends. *)
Definition sendMessage_run (args : SendArgs) (turn : Turn) (st : State)
  : (Error + SendResult) * State :=
  let sid := sessionId args in
  match sessions st !! sid with
  | None => (inl (new_Error ("Session " +:+ sid +:+ " not found")), st)
  | Some session =>
      let stream :=
        provider {| in_args := args; in_session := session;
                    in_history := conversationHistory turn |} in
      match consume sid (effectiveWorkDir args session) stream.1 turn st with
      | (inl error, st') => sendMessage_catch sid error st'
      | (inr turn', st') =>
          match stream.2 with
          | Some error => sendMessage_catch sid error st'
          | None => sendMessage_finish sid turn' st'
          end
      end
  end.

(** [sendMessage], run from its call to its end without interleaving. *)
Definition sendMessage (args : SendArgs) (st : State) : (Error + SendResult) * State :=
  match sendMessage_begin args st with
  | (inl error, st') => (inl error, st')
  | (inr turn, st') => sendMessage_run args turn st'
  end.

(** [stopExecution]. *)
Definition stopExecution (sid : string) (st : State) : OpResult * State :=
  match sessions st !! sid with
  | None => ({| ok := false; op_error := Some "Session not found"%string |}, st)
  | Some session =>
      let st' :=
        match abortController session with
        | Some controller =>
            updateSessionObject sid (setRunning false None) (abort controller st)
        | None => st
        end in
      ({| ok := true; op_error := None |}, st')
  end.

(** The [prompt] argument of [addToQueue]. *)
Record PromptInput := {
  p_message : string;
  p_imagePaths : option (list string);
  p_model : option string
}.

(** [addToQueue]; the queued prompt is returned on success. *)
Definition addToQueue (sid : string) (prompt : PromptInput) (st : State)
  : (OpResult * option QueuedPrompt) * State :=
  match sessions st !! sid with
  | None => (({| ok := false; op_error := Some "Session not found"%string |}, None), st)
  | Some session =>
      let '(newId, st1) := generateId st in
      let '(stamp, st2) := now st1 in
      let queuedPrompt :=
        {| q_id := newId; q_message := p_message prompt;
           q_imagePaths := p_imagePaths prompt; q_model := p_model prompt;
           q_addedAt := stamp |} in
      let queue := promptQueue session ++ [queuedPrompt] in
      let st3 := updateSessionObject sid (setPromptQueue queue) st2 in
      let st4 := saveQueueState sid queue st3 in
      let st5 := emitAgentEvent sid (QueueUpdated queue) st4 in
      (({| ok := true; op_error := None |}, Some queuedPrompt), st5)
  end.

(** [processNextInQueue]. *)
Definition processNextInQueue (sid : string) (st : State) : State :=
  match sessions st !! sid with
  | None => st
  | Some session =>
      match promptQueue session with
      | [] => st
      | nextPrompt :: rest =>
          if isRunning session then st
          else
            let st1 := updateSessionObject sid (setPromptQueue rest) st in
            let st2 := saveQueueState sid rest st1 in
            let st3 := emitAgentEvent sid (QueueUpdated rest) st2 in
            match sendMessage
                    {| sessionId := sid; message := q_message nextPrompt;
                       arg_workingDirectory := None;
                       imagePaths := q_imagePaths nextPrompt;
                       arg_model := q_model nextPrompt |} st3 with
            | (inl error, st4) =>
                emitAgentEvent sid (QueueError (err_message error) (q_id nextPrompt)) st4
            | (inr _, st4) => st4
            end
      end
  end.

(** One turn of the event loop's check phase: the oldest [setImmediate]
    callback runs. *)
Definition runImmediate (st : State) : State :=
  match immediates st with
  | [] => st
  | sid :: rest =>
      processNextInQueue sid
        {| sessions := sessions st; sessionFiles := sessionFiles st;
           queueFiles := queueFiles st; metadataFile := metadataFile st;
           emitted := emitted st; immediates := rest;
           aborted := aborted st; ticks := ticks st |}
  end.

(** [deleteSession]. *)
Definition deleteSession (sid : string) (st : State) : bool * State :=
  let metadata := loadMetadata st in
  match metadata !! sid with
  | None => (false, st)
  | Some _ =>
      let st1 := saveMetadata (delete sid metadata) st in
      let st2 := withSessionFiles (delete sid) st1 in
      let st3 := withSessions (delete sid) st2 in
      (true, st3)
  end.

(** The events of one kind in a log. *)
Definition isQueueUpdated (sid : string) (e : string * AgentEvent) : bool :=
  match e with
  | (s, QueueUpdated _) => String.eqb s sid
  | _ => false
  end.

Definition queueUpdates (sid : string) (log : list (string * AgentEvent))
  : list (string * AgentEvent) :=
  List.filter (isQueueUpdated sid) log.

Definition isErrorFlagged (m : Message) : bool := default false (m_isError m).

End Service.

(** Frame conditions.  An event other than a queue update: *)
Definition notQueueEvent (e : string * AgentEvent) : Prop :=
  match e.2 with
  | QueueUpdated _ => False
  | _ => True
  end.

(** [quiet st st']: from [st] to [st'] the queues, in memory and on disk,
    stay as they are, and the events emitted are no queue updates. *)
Record quiet (st st' : State) : Prop := {
  quiet_emitted : ∃ evs, emitted st' = emitted st ++ evs ∧ Forall notQueueEvent evs;
  quiet_queueFiles : queueFiles st' = queueFiles st;
  quiet_queue : ∀ s, promptQueue <$> sessions st' !! s = promptQueue <$> sessions st !! s
}.

(** [steady st st']: moreover no session changes between idle and running,
    and nothing is scheduled. *)
Record steady (st st' : State) : Prop := {
  steady_quiet : quiet st st';
  steady_immediates : immediates st' = immediates st;
  steady_running : ∀ s, isRunning <$> sessions st' !! s = isRunning <$> sessions st !! s
}.

(** [diskOnly st st']: only the files other than the queue files, and the
    supply of numbers, differ. *)
Record diskOnly (st st' : State) : Prop := {
  diskOnly_sessions : sessions st' = sessions st;
  diskOnly_queueFiles : queueFiles st' = queueFiles st;
  diskOnly_emitted : emitted st' = emitted st;
  diskOnly_immediates : immediates st' = immediates st;
  diskOnly_aborted : aborted st' = aborted st
}.

End AgentService.

(** ** Concrete instances

    The inputs at which the properties below are exercised. *)

Module Examples.

(** POSIX paths, enough of them for a file named relative to a working
    directory. *)
Definition isAbsolute (p : string) : bool := String.prefix "/" p.

Definition resolve (dir p : string) : string := dir +:+ "/" +:+ p.

Definition allowAll (p : string) : bool := true.

(** An [Edit] call that replaces "foo" by "baz". *)
Definition editInput (filePath : string) (replaceAll : bool) : option json :=
  Some (JObj [("file_path"%string, JStr filePath);
              ("old_string"%string, JStr "foo");
              ("new_string"%string, JStr "baz");
              ("replace_all"%string, JBool replaceAll)]).

Definition repo : ToolExecutionContext := {| cwd := "/repo" |}.

Definition notes : ToolRegistry.World :=
  {| ToolRegistry.files := {["/repo/notes.txt"%string := "foo bar foo"%string]};
     ToolRegistry.dirs := ∅ |}.

(** [path.relative] for a path below the root, and a small tree. *)
Definition relative (root p : string) : string :=
  String.substring (S (String.length root)) (String.length p) p.

Definition tree : ToolRegistry.World :=
  {| ToolRegistry.files := ∅;
     ToolRegistry.dirs :=
       {["/repo/."%string :=
           [ ToolRegistry.FileEntry "a.md";
             ToolRegistry.DirEntry "node_modules" (Some [ToolRegistry.FileEntry "x.md"]);
             ToolRegistry.FileEntry "b.md";
             ToolRegistry.DirEntry "docs" (Some [ToolRegistry.FileEntry "c.md"]) ]]} |}.

(** A chunk that carries one tool-call fragment. *)
Definition fragmentChunk (slot : Z) (i n a : option string)
  : OpenAIProvider.OpenAIStreamChunk :=
  {| OpenAIProvider.choices :=
       Some [ {| OpenAIProvider.delta :=
                   Some {| OpenAIProvider.delta_content := None;
                           OpenAIProvider.tool_calls :=
                             Some [ {| OpenAIProvider.index := Some slot;
                                       OpenAIProvider.id := i;
                                       OpenAIProvider.fn_name := n;
                                       OpenAIProvider.fn_arguments := a |} ] |};
                 OpenAIProvider.finish_reason := None |} ] |}.

(** Two calls, [Read] in slot 0 and [Glob] in slot 1, each in two
    fragments: slot by slot, and with slot 1 discovered first. *)
Definition slotBySlot : list OpenAIProvider.OpenAIStreamChunk :=
  [ fragmentChunk 0 (Some "call_a"%string) (Some "Read"%string) (Some "{"%string);
    fragmentChunk 0 None None (Some "}"%string);
    fragmentChunk 1 (Some "call_b"%string) (Some "Glob"%string) None;
    fragmentChunk 1 None None (Some "{}"%string) ].

Definition interleaved : list OpenAIProvider.OpenAIStreamChunk :=
  [ fragmentChunk 1 (Some "call_b"%string) (Some "Glob"%string) None;
    fragmentChunk 0 (Some "call_a"%string) (Some "Read"%string) (Some "{"%string);
    fragmentChunk 1 None None (Some "{}"%string);
    fragmentChunk 0 None None (Some "}"%string) ].

(** A backend that always asks for one more tool call. *)
Definition greedyBackend (request : OpenAIProvider.Request) : OpenAIProvider.Response :=
  {| OpenAIProvider.chunks :=
       [fragmentChunk 0 (Some "call_a"%string) (Some "Nope"%string) None];
     OpenAIProvider.failure := None |}.

Definition noParse (raw : string) : Error + json := inl (new_Error "Unexpected token").

Definition twoTurns : OpenAIProvider.ExecuteOptions :=
  {| OpenAIProvider.model := "gpt-5.2";
     OpenAIProvider.cwd := "/repo";
     OpenAIProvider.maxTurns := Some 2;
     OpenAIProvider.allowedTools := None;
     OpenAIProvider.messages := [] |}.

(** The surroundings of the agent service. *)
Definition idOf (n : nat) : string := "msg_" +:+ Js.string_of_Z (Z.of_nat n).

Definition timeOf (n : nat) : string := "T" +:+ Js.string_of_Z (Z.of_nat n).

Definition noImage (p : string) : option AgentService.Image := None.

Definition isAbortError (e : Error) : bool := String.eqb (err_name e) "AbortError".

Definition silentProvider (input : AgentService.TurnInput)
  : list ProviderMessage * option Error := ([], None).

Definition noIntent (workDir text : string) : option Error := None.

Definition abortError : Error := mkError "AbortError" "The operation was aborted".

Definition hello : AgentService.Message :=
  {| AgentService.m_id := "msg_a"; AgentService.m_role := "user";
     AgentService.m_content := "list files"; AgentService.m_images := None;
     AgentService.m_timestamp := "T"; AgentService.m_isError := None |}.

(** A conversation in the middle of a turn. *)
Definition running : AgentService.Session :=
  {| AgentService.messages := [hello];
     AgentService.isRunning := true;
     AgentService.abortController := Some 0%nat;
     AgentService.workingDirectory := "/repo";
     AgentService.model := None;
     AgentService.sdkSessionId := None;
     AgentService.promptQueue := [] |}.

Definition busy : AgentService.State :=
  {| AgentService.sessions := {["s1"%string := running]};
     AgentService.sessionFiles := {["s1"%string := [hello]]};
     AgentService.queueFiles := ∅;
     AgentService.metadataFile := None;
     AgentService.emitted := [];
     AgentService.immediates := [];
     AgentService.aborted := ∅;
     AgentService.ticks := 1%nat |}.

Definition again : AgentService.SendArgs :=
  {| AgentService.sessionId := "s1"; AgentService.message := "and again";
     AgentService.arg_workingDirectory := None; AgentService.imagePaths := None;
     AgentService.arg_model := Some "gpt-5.2"%string |}.

Definition followUp : AgentService.PromptInput :=
  {| AgentService.p_message := "run the tests"; AgentService.p_imagePaths := None;
     AgentService.p_model := None |}.

Definition midTurn : AgentService.Turn :=
  {| AgentService.conversationHistory := [];
     AgentService.currentAssistantMessage := None;
     AgentService.responseText := EmptyString;
     AgentService.toolUses := [] |}.

(** A stored conversation with a prompt waiting in its queue file. *)
Definition waiting : AgentService.QueuedPrompt :=
  {| AgentService.q_id := "msg_q"; AgentService.q_message := "later";
     AgentService.q_imagePaths := None; AgentService.q_model := None;
     AgentService.q_addedAt := "T" |}.

Definition entry : AgentService.SessionMetadata :=
  {| AgentService.md_id := "s1"; AgentService.md_name := "Session";
     AgentService.md_projectPath := None; AgentService.md_workingDirectory := "/repo";
     AgentService.md_createdAt := "T"; AgentService.md_updatedAt := "T";
     AgentService.md_archived := None; AgentService.md_tags := None;
     AgentService.md_model := None; AgentService.md_sdkSessionId := None |}.

Definition idle : AgentService.Session :=
  {| AgentService.messages := [hello];
     AgentService.isRunning := false;
     AgentService.abortController := None;
     AgentService.workingDirectory := "/repo";
     AgentService.model := None;
     AgentService.sdkSessionId := None;
     AgentService.promptQueue := [waiting] |}.

Definition stored : AgentService.State :=
  {| AgentService.sessions := {["s1"%string := idle]};
     AgentService.sessionFiles := {["s1"%string := [hello]]};
     AgentService.queueFiles := {["s1"%string := [waiting]]};
     AgentService.metadataFile := Some {["s1"%string := entry]};
     AgentService.emitted := [];
     AgentService.immediates := [];
     AgentService.aborted := ∅;
     AgentService.ticks := 1%nat |}.

End Examples.

(** ** providers/tools/tool-registry.ts: the Read, Grep and Bash tools *)

Module FileTools.

Import ToolRegistry.

Definition CR : ascii := "013"%char.
Definition NL : ascii := "010"%char.

(** [content.split(/\r?\n/)]: cut at every line feed, dropping a carriage
    return that stands right before it. *)
Fixpoint splitLines (s : string) : list string :=
  match s with
  | EmptyString => [EmptyString]
  | String c rest =>
      if Ascii.eqb c NL then EmptyString :: splitLines rest
      else
        let keep :=
          match splitLines rest with
          | line :: lines => String c line :: lines
          | [] => [String c EmptyString]
          end in
        if Ascii.eqb c CR then
          match rest with
          | String c2 rest2 => if Ascii.eqb c2 NL then EmptyString :: splitLines rest2 else keep
          | EmptyString => keep
          end
        else keep
  end.

(** The index an argument of [Array.prototype.slice] stands for: a negative
    one counts from the end. *)
Definition relativeIndex (len i : Z) : Z :=
  if i <? 0 then Z.max (len + i) 0 else Z.min i len.

(** [items.slice(from, to)]. *)
Definition Array_slice {A} (items : list A) (from to : Z) : list A :=
  let len := Z.of_nat (length items) in
  let k := relativeIndex len from in
  let final := relativeIndex len to in
  take (Z.to_nat (final - k)) (drop (Z.to_nat k) items).

(** [line.includes(pattern)]. *)
Definition includes (line pattern : string) : bool :=
  negb (Js.indexOf line pattern =? -1).

Definition DEFAULT_MAX_MATCHES : Z := 200.
Definition DEFAULT_BASH_TIMEOUT_MS : Z := 120000.

Section Tools.

Variable path_isAbsolute : string → bool.
Variable path_resolve : string → string → string.
Variable path_join : string → string → string.
Variable path_relative : string → string → string.
Variable path_dirname : string → string.
Variable isPathAllowed : string → bool.
Variable RegExp_test : string → string → bool.

(** [Number(s)] for a string [s], [None] standing for [NaN]. *)
Variable stringToNumber : string → option Z.

(** [new RegExp(source, flags)]: the [test] function of the expression, or
    the [SyntaxError] thrown. *)
Variable RegExp_new : string → string → Error + (string → bool).

(** [s.toLowerCase()]. *)
Variable toLowerCase : string → string.

(** [execAsync(command, { cwd, timeout, maxBuffer })]: [stdout] and
    [stderr], or the error the rejected promise carries; the command may
    change the files. *)
Variable execAsync : string → string → Z → M World (string * string).

(** [Number(v)] for a JSON value, [None] standing for [NaN]. *)
Definition Number (v : json) : option Z :=
  match v with
  | JNull => Some 0
  | JBool b => Some (if b then 1 else 0)
  | JNum n => Some n
  | JStr s => stringToNumber s
  | JArr _ => stringToNumber (Json.toString v)
  | JObj _ => None
  end.

(** A number in a condition: neither [0] nor [NaN]. *)
Definition truthyNumber (n : option Z) : bool :=
  match n with
  | Some z => negb (z =? 0)
  | None => false
  end.

(** [Number(a ?? b ?? fallback) || fallback]. *)
Definition numberOr (a b : option json) (fallback : Z) : Z :=
  match Json.nullish a (Json.nullish b (Some (JNum fallback))) with
  | Some v => if truthyNumber (Number v) then default fallback (Number v) else fallback
  | None => fallback
  end.

(** [Number(a ?? b ?? 0)]. *)
Definition lineNumber (a b : option json) : option Z :=
  match Json.nullish a (Json.nullish b (Some (JNum 0))) with
  | Some v => Number v
  | None => None
  end.

(** The lines [readTool] returns for a range: [Math.max(startLine - 1, 0)]
    is [NaN] for a [NaN] start, which [slice] reads as 0. *)
Definition readRange (text : string) (startLine endLine : option Z) : string :=
  let lines := splitLines text in
  let startIndex :=
    match startLine with
    | Some s => Z.max (s - 1) 0
    | None => 0
    end in
  let endIndex :=
    if truthyNumber endLine
    then Z.min (default 0 endLine) (Z.of_nat (length lines))
    else Z.of_nat (length lines) in
  Js.join Js.LF (Array_slice lines startIndex endIndex).

Definition readTool (input : option json) (context : ToolExecutionContext)
  : M World ToolExecutionResult :=
  match Json.asObject input with
  | None => ret (failure "Read tool input must be an object.")
  | Some params =>
      match coerceFilePath params with
      | None => ret (failure "Read tool requires file_path.")
      | Some filePath =>
          let resolved := resolveInputPath path_isAbsolute path_resolve (cwd context) filePath in
          let! outcome := attempt (
            let! text := secureFs_readFile isPathAllowed resolved in
            let startLine :=
              lineNumber (Json.prop params "start_line") (Json.prop params "startLine") in
            let endLine :=
              lineNumber (Json.prop params "end_line") (Json.prop params "endLine") in
            if truthyNumber startLine || truthyNumber endLine
            then ret (success (readRange text startLine endLine))
            else ret (success text)) in
          match outcome with
          | inr result => ret result
          | inl error =>
              ret (failure ("Read failed for " +:+ resolved +:+ ": " +:+ err_message error))
          end
      end
  end.

(** How [grepTool] tests a line. *)
Definition lineHit (searchRegex : option (string → bool)) (caseSensitive : bool)
    (pattern line : string) : bool :=
  match searchRegex with
  | Some test => test line
  | None =>
      if caseSensitive then includes line pattern
      else includes (toLowerCase line) (toLowerCase pattern)
  end.

Definition matchLine (relative : string) (lineIndex : Z) (line : string) : string :=
  relative +:+ ":" +:+ Js.string_of_Z (lineIndex + 1) +:+ ": " +:+ line.

(** The loop over the lines of one file: [inl] is the early [return] with
    the matches collected, [inr] carries on with the next file. *)
Fixpoint scanLines (hit : string → bool) (relative : string) (maxResults : Z)
    (lineIndex : Z) (lines : list string) (matches : list string)
  : list string + list string :=
  match lines with
  | [] => inr matches
  | line :: rest =>
      let matches' :=
        if hit line then matches ++ [matchLine relative lineIndex line] else matches in
      if Z.of_nat (length matches') >=? maxResults then inl matches'
      else scanLines hit relative maxResults (lineIndex + 1) rest matches'
  end.

(** The loop over the files the walk returned; a file that cannot be read
    is skipped. *)
Fixpoint scanFiles (hit : string → bool) (matcher root : string) (maxResults : Z)
    (found : list string) (matches : list string) (w : World)
  : list string + list string :=
  match found with
  | [] => inr matches
  | relative :: rest =>
      if negb (RegExp_test matcher relative)
      then scanFiles hit matcher root maxResults rest matches w
      else
        let fullPath := path_join root relative in
        match (secureFs_readFile isPathAllowed fullPath w).1 with
        | inl _ => scanFiles hit matcher root maxResults rest matches w
        | inr text =>
            match scanLines hit relative maxResults 0 (splitLines text) matches with
            | inl early => inl early
            | inr matches' => scanFiles hit matcher root maxResults rest matches' w
            end
        end
  end.

(** What a [Grep] call reads from its input. *)
Record GrepQuery := {
  g_pattern : string;
  g_root : string;
  g_matcher : string;
  g_regexMode : bool;
  g_caseSensitive : bool;
  g_maxResults : Z
}.

Definition grepQuery (params : list (string * json)) (context : ToolExecutionContext)
    (pattern : string) : GrepQuery :=
  {| g_pattern := pattern;
     g_root :=
       resolveInputPath path_isAbsolute path_resolve (cwd context)
         (default "."%string (Json.getString (Json.prop params "path")));
     g_matcher :=
       globToRegExp (default "**/*"%string (Json.getString (Json.prop params "glob")));
     g_regexMode := Json.toBoolean (Json.prop params "regex");
     g_caseSensitive :=
       match Json.prop params "case_sensitive" with
       | Some (JBool false) => false
       | _ => true
       end;
     g_maxResults :=
       numberOr (Json.prop params "max_results") (Json.prop params "maxResults")
         DEFAULT_MAX_MATCHES |}.

(** The body of the [try] block of [grepTool]: the matches collected, by an
    early [return] ([inl]) or at the end of the loops ([inr]). *)
Definition grepMatches (q : GrepQuery) (searchRegex : option (string → bool))
  : M World (list string + list string) :=
  let! found := walkDirectory path_join path_relative isPathAllowed (g_root q) (g_maxResults q) in
  λ w, (inr (scanFiles (lineHit searchRegex (g_caseSensitive q) (g_pattern q))
                (g_matcher q) (g_root q) (g_maxResults q) found [] w), w).

Definition grepTool (input : option json) (context : ToolExecutionContext)
  : M World ToolExecutionResult :=
  let params := default [] (Json.asObject input) in
  match Json.getString (Json.prop params "pattern") with
  | None => ret (failure "Grep tool requires pattern.")
  | Some pattern =>
      let q := grepQuery params context pattern in
      let compiled : Error + option (string → bool) :=
        if g_regexMode q then
          match RegExp_new pattern (if g_caseSensitive q then EmptyString else "i"%string) with
          | inl error => inl error
          | inr test => inr (Some test)
          end
        else inr None in
      match compiled with
      | inl error => ret (failure ("Invalid regex pattern: " +:+ err_message error))
      | inr searchRegex =>
          let! outcome := attempt (grepMatches q searchRegex) in
          match outcome with
          | inr (inl early) => ret (success (Js.join Js.LF early))
          | inr (inr matches) =>
              if Z.of_nat (length matches) =? 0 then ret (success "No matches found.")
              else ret (success (Js.join Js.LF matches))
          | inl error =>
              ret (failure ("Grep failed in " +:+ g_root q +:+ ": " +:+ err_message error))
          end
      end
  end.

Definition coerceCommand (input : list (string * json)) : option string :=
  Json.orElse (Json.getString (Json.prop input "command"))
              (Json.getString (Json.prop input "cmd")).

(** [[stdout, stderr && `\n[stderr]\n${stderr}`].filter(Boolean).join('')]. *)
Definition bashOutput (stdout stderr : string) : string :=
  stdout +:+ (if Js.truthy stderr then Js.LF +:+ "[stderr]" +:+ Js.LF +:+ stderr
              else EmptyString).

Definition bashTool (input : option json) (context : ToolExecutionContext)
  : M World ToolExecutionResult :=
  match Json.asObject input with
  | None => ret (failure "Bash tool input must be an object.")
  | Some params =>
      match coerceCommand params with
      | None => ret (failure "Bash tool requires command.")
      | Some command =>
          let resolvedCwd :=
            match Json.getString (Json.prop params "cwd") with
            | Some requestedCwd =>
                resolveInputPath path_isAbsolute path_resolve (cwd context) requestedCwd
            | None => cwd context
            end in
          if negb (isPathAllowed resolvedCwd)
          then ret (failure ("Bash cwd is not allowed: " +:+ resolvedCwd))
          else
            let timeoutMs :=
              numberOr (Json.prop params "timeout_ms") (Json.prop params "timeoutMs")
                DEFAULT_BASH_TIMEOUT_MS in
            let! outcome := attempt (execAsync command resolvedCwd timeoutMs) in
            match outcome with
            | inr (stdout, stderr) =>
                let output := Js.trim (bashOutput stdout stderr) in
                ret (success (if Js.truthy output then output
                              else "Command completed with no output."%string))
            | inl error => ret (failure ("Bash failed: " +:+ err_message error))
            end
      end
  end.

End Tools.

End FileTools.

(** ** providers/openai-provider.ts: the reader of the event stream *)

Module SseStream.

(** What the body of the inner loop does with one line. *)
Inductive LineOutcome :=
| Skip
| Yield (parsed : json)
| Return.

Section Stream.

Variable JSON_parse : string → Error + json.

(** The handling of one trimmed line: a line that is empty or does not
    start with [data:] is skipped; [line.replace(/^data:\s*/, '')] is the
    payload; the payload [[DONE]] ends the generator; a payload that does not
    parse is skipped. *)
Definition onLine (line : string) : LineOutcome :=
  if negb (Js.truthy line) || negb (String.prefix "data:" line) then Skip
  else
    let payload := Js.trimStart (Js.slice_from line 5) in
    if String.eqb payload "[DONE]" then Return
    else match JSON_parse payload with
         | inr parsed => Yield parsed
         | inl _ => Skip
         end.

(** The loop [while (lineBreakIndex >= 0)]: what has been yielded, what is
    left in the buffer, and whether the generator returned.  Each iteration
    shortens the buffer, so [fuel] above its length is never used up. *)
Fixpoint drainLines (fuel : nat) (buffer : string) (yielded : list json)
  : list json * string * bool :=
  match fuel with
  | O => (yielded, buffer, false)
  | S fuel' =>
      let lineBreakIndex := Js.indexOf buffer Js.LF in
      if lineBreakIndex >=? 0 then
        let line := Js.trim (Js.slice buffer 0 lineBreakIndex) in
        let buffer' := Js.slice_from buffer (lineBreakIndex + 1) in
        match onLine line with
        | Skip => drainLines fuel' buffer' yielded
        | Yield parsed => drainLines fuel' buffer' (yielded ++ [parsed])
        | Return => (yielded, buffer', true)
        end
      else (yielded, buffer, false)
  end.

(** The loop [while (true)] over what the reader delivers, each value
    already decoded to text. *)
Fixpoint readChunks (values : list string) (buffer : string) (yielded : list json)
  : list json :=
  match values with
  | [] => yielded
  | value :: rest =>
      let buffer1 := buffer +:+ value in
      match drainLines (S (String.length buffer1)) buffer1 yielded with
      | (yielded', _, true) => yielded'
      | (yielded', buffer', false) => readChunks rest buffer' yielded'
      end
  end.

(** [streamResponseChunks]: everything the generator yields. *)
Definition streamResponseChunks (values : list string) : list json :=
  readChunks values EmptyString [].

(** The text of an event stream that carries the given payloads, one
    [data:] line each. *)
Definition dataLines (payloads : list string) : string :=
  foldr (λ payload text, "data: " +:+ payload +:+ Js.LF +:+ text) EmptyString payloads.

End Stream.

End SseStream.

(** ** What a run of the provider shows to its consumer *)

Module ProviderTrace.

Definition toolUseId (block : ContentBlock) : option string :=
  match block with
  | ToolUseBlock _ _ i => Some i
  | _ => None
  end.

Definition toolResultId (block : ContentBlock) : option string :=
  match block with
  | ToolResultBlock i _ => Some i
  | _ => None
  end.

(** The content blocks of a list of yielded messages, in order. *)
Definition blocksOf (events : list ProviderMessage) : list ContentBlock :=
  concat (map (λ e, default [] (msg_content e)) events).

(** The ids of the tool uses announced, and of the tool results reported. *)
Definition toolUseIds (events : list ProviderMessage) : list string :=
  omap toolUseId (blocksOf events).

Definition toolResultIds (events : list ProviderMessage) : list string :=
  omap toolResultId (blocksOf events).

End ProviderTrace.

(** ** providers/provider-factory.ts *)

Module ProviderFactory.

(** The provider classes, each built from its own entry of the
    configuration map. *)
Inductive Provider := Claude | OpenAI | OpenRouter.

Section Factory.

(** [s.toLowerCase()]. *)
Variable toLowerCase : string → string.

(** [ProviderFactory.getProviderForModel]. *)
Definition getProviderForModel (modelId : string) : Provider :=
  let lowerModel := toLowerCase modelId in
  if String.prefix "claude-" lowerModel
     || bool_decide (lowerModel ∈ ["haiku"; "sonnet"; "opus"]%string)
  then Claude
  else if String.prefix "openrouter/" lowerModel then OpenRouter
  else if String.prefix "gpt-" lowerModel || String.prefix "o" lowerModel then OpenAI
  else Claude.

End Factory.

End ProviderFactory.

(** ** services/agent-service.ts: conversations, stored sessions and the
    queue *)

Module SessionStore.

Import AgentService.

(** What [startConversation] resolves to. *)
Record StartResult := {
  start_success : bool;
  start_messages : list Message;
  start_sessionId : string
}.

(** What [getHistory] returns. *)
Record HistoryResult := {
  h_success : bool;
  h_error : option string;
  h_messages : option (list Message);
  h_isRunning : option bool
}.

(** What [getQueue] returns. *)
Record QueueResult := {
  qr_success : bool;
  qr_queue : option (list QueuedPrompt);
  qr_error : option string
}.

Section Store.

Variable idOf : nat → string.
Variable timeOf : nat → string.

(** [process.cwd()] and [path.resolve(p)]. *)
Variable process_cwd : string.
Variable path_resolve : string → string.

(** [validateWorkingDirectory] of lib/sdk-options: the error it throws, if
    any. *)
Variable validateWorkingDirectory : string → option Error.

(** [loadSession]: the messages of the transcript file, none when it cannot
    be read. *)
Definition loadSession (sid : string) (st : State) : list Message :=
  default [] (sessionFiles st !! sid).

(** [loadQueueState]. *)
Definition loadQueueState (sid : string) (st : State) : list QueuedPrompt :=
  default [] (queueFiles st !! sid).

(** [startConversation]. *)
Definition startConversation (sid : string) (workingDirectory : option string) (st : State)
  : (Error + StartResult) * State :=
  match sessions st !! sid with
  | Some session =>
      (inr {| start_success := true; start_messages := messages session;
              start_sessionId := sid |}, st)
  | None =>
      let loaded := loadSession sid st in
      let metadata := loadMetadata st in
      let sessionMetadata := metadata !! sid in
      let effectiveWorkingDirectory :=
        default process_cwd (OpenAIProvider.truthyString workingDirectory) in
      let resolvedWorkingDirectory := path_resolve effectiveWorkingDirectory in
      match validateWorkingDirectory resolvedWorkingDirectory with
      | Some error => (inl error, st)
      | None =>
          let queue := loadQueueState sid st in
          let session :=
            {| messages := loaded; isRunning := false; abortController := None;
               workingDirectory := resolvedWorkingDirectory; model := None;
               sdkSessionId := sessionMetadata ≫= md_sdkSessionId;
               promptQueue := queue |} in
          (inr {| start_success := true; start_messages := loaded; start_sessionId := sid |},
           withSessions (λ m, <[sid := session]> m) st)
      end
  end.

(** [getHistory]. *)
Definition getHistory (sid : string) (st : State) : HistoryResult :=
  match sessions st !! sid with
  | None =>
      {| h_success := false; h_error := Some "Session not found"%string;
         h_messages := None; h_isRunning := None |}
  | Some session =>
      {| h_success := true; h_error := None;
         h_messages := Some (messages session); h_isRunning := Some (isRunning session) |}
  end.

(** [clearSession]: the abort controller of the session is left as it
    is. *)
Definition clearSession (sid : string) (st : State) : OpResult * State :=
  match sessions st !! sid with
  | Some _ =>
      let st1 :=
        updateSessionObject sid
          (λ s, setRunning false (abortController s) (setMessages [] s)) st in
      ({| ok := true; op_error := None |}, saveSession timeOf sid [] st1)
  | None => ({| ok := true; op_error := None |}, st)
  end.

(** [createSession]: the two dates are taken one after the other. *)
Definition createSession (name : string) (projectPath workingDirectory model : option string)
    (st : State) : (Error + SessionMetadata) * State :=
  let '(sessionId, st1) := generateId idOf st in
  let metadata := loadMetadata st1 in
  let effectiveWorkingDirectory :=
    default (default process_cwd (OpenAIProvider.truthyString projectPath))
            (OpenAIProvider.truthyString workingDirectory) in
  let resolvedWorkingDirectory := path_resolve effectiveWorkingDirectory in
  match validateWorkingDirectory resolvedWorkingDirectory with
  | Some error => (inl error, st1)
  | None =>
      match OpenAIProvider.truthyString projectPath ≫= validateWorkingDirectory with
      | Some error => (inl error, st1)
      | None =>
          let '(createdAt, st2) := now timeOf st1 in
          let '(updatedAt, st3) := now timeOf st2 in
          let session :=
            {| md_id := sessionId; md_name := name; md_projectPath := projectPath;
               md_workingDirectory := resolvedWorkingDirectory;
               md_createdAt := createdAt; md_updatedAt := updatedAt;
               md_archived := None; md_tags := None; md_model := model;
               md_sdkSessionId := None |} in
          (inr session, saveMetadata (<[sessionId := session]> metadata) st3)
      end
  end.

(** [getQueue]. *)
Definition getQueue (sid : string) (st : State) : QueueResult :=
  match sessions st !! sid with
  | None =>
      {| qr_success := false; qr_queue := None; qr_error := Some "Session not found"%string |}
  | Some session =>
      {| qr_success := true; qr_queue := Some (promptQueue session); qr_error := None |}
  end.

(** [queue.findIndex((p) => p.id === promptId)], [None] standing for -1. *)
Fixpoint findIndex (promptId : string) (queue : list QueuedPrompt) : option nat :=
  match queue with
  | [] => None
  | p :: rest =>
      if String.eqb (q_id p) promptId then Some O
      else S <$> findIndex promptId rest
  end.

(** [removeFromQueue]: [queue.splice(index, 1)] takes the prompt out. *)
Definition removeFromQueue (sid promptId : string) (st : State) : OpResult * State :=
  match sessions st !! sid with
  | None => ({| ok := false; op_error := Some "Session not found"%string |}, st)
  | Some session =>
      match findIndex promptId (promptQueue session) with
      | None => ({| ok := false; op_error := Some "Prompt not found in queue"%string |}, st)
      | Some index =>
          let queue := delete index (promptQueue session) in
          let st1 := updateSessionObject sid (setPromptQueue queue) st in
          let st2 := saveQueueState sid queue st1 in
          let st3 := emitAgentEvent sid (QueueUpdated queue) st2 in
          ({| ok := true; op_error := None |}, st3)
      end
  end.

(** [clearQueue]. *)
Definition clearQueue (sid : string) (st : State) : OpResult * State :=
  match sessions st !! sid with
  | None => ({| ok := false; op_error := Some "Session not found"%string |}, st)
  | Some _ =>
      let st1 := updateSessionObject sid (setPromptQueue []) st in
      let st2 := saveQueueState sid [] st1 in
      let st3 := emitAgentEvent sid (QueueUpdated []) st2 in
      ({| ok := true; op_error := None |}, st3)
  end.

End Store.

(** The service after a restart of the server: nothing is in memory, the
    files are as they were. *)
Definition restarted (st : State) : State :=
  {| sessions := ∅; sessionFiles := sessionFiles st; queueFiles := queueFiles st;
     metadataFile := metadataFile st; emitted := []; immediates := [];
     aborted := ∅; ticks := ticks st |}.

End SessionStore.

(** ** More concrete instances *)

Module Scenarios.

Import Examples.

(** [path.join] and [path.dirname] for POSIX paths without [.] and [..]
    segments. *)
Definition join (dir name : string) : string := dir +:+ "/" +:+ name.

Fixpoint dirname_go (p : string) : option string :=
  match p with
  | EmptyString => None
  | String c rest =>
      match dirname_go rest with
      | Some dir => Some (String c dir)
      | None => if Ascii.eqb c "/" then Some EmptyString else None
      end
  end.

Definition dirname (p : string) : string := default "."%string (dirname_go p).

(** [Number(s)] where no string argument reads as a number. *)
Definition noNumber (s : string) : option Z := None.

Definition numberOf (v : json) : option Z :=
  match v with
  | JNum n => Some n
  | _ => None
  end.

(** A matcher that accepts every path. *)
Definition anyPath (source text : string) : bool := true.

(** A Path Guard that allows what lies under /repo. *)
Definition inRepo (p : string) : bool := String.prefix "/repo" p.

(** Two ways of running a command: one echoes it wherever it is run, the
    other fails to start outside /repo. *)
Definition echo (command dir : string) (timeout : Z)
  : M ToolRegistry.World (string * string) :=
  λ w, (inr (command, EmptyString), w).

Definition echoInRepo (command dir : string) (timeout : Z)
  : M ToolRegistry.World (string * string) :=
  λ w, if inRepo dir then (inr (command, EmptyString), w)
       else (inl (new_Error "spawn failed"), w).

Definition offline (input : option json) (context : ToolExecutionContext)
  : M ToolRegistry.World ToolExecutionResult :=
  λ w, (inr (ToolRegistry.failure "WebFetch failed: offline"), w).

(** The catalog with the file tools of [FileTools] in it. *)
Definition catalog : list (ToolDefinition ToolRegistry.World) :=
  ToolRegistry.TOOL_DEFINITIONS isAbsolute resolve join relative dirname allowAll anyPath
    numberOf
    (FileTools.readTool isAbsolute resolve allowAll noNumber)
    (FileTools.grepTool isAbsolute resolve join relative allowAll anyPath noNumber
       (λ source flags, inl (new_Error "Invalid regular expression")) id)
    (FileTools.bashTool isAbsolute resolve allowAll noNumber echo)
    offline.

Definition readCall : ToolCall :=
  {| call_id := "call_a"; call_name := "Read"; call_arguments := "{}" |}.

(** Inputs of the file tools. *)
Definition writeInput : option json :=
  Some (JObj [("file_path"%string, JStr "notes.txt"); ("content"%string, JStr "hello")]).

Definition readInput : option json :=
  Some (JObj [("file_path"%string, JStr "notes.txt")]).

Definition readFromLineOne : option json :=
  Some (JObj [("file_path"%string, JStr "notes.txt"); ("start_line"%string, JNum 1)]).

Definition sameStringEdit : option json :=
  Some (JObj [("file_path"%string, JStr "notes.txt");
              ("old_string"%string, JStr "foo");
              ("new_string"%string, JStr "foo")]).

Definition lsInEtc : option json :=
  Some (JObj [("command"%string, JStr "ls"); ("cwd"%string, JStr "/etc")]).

(** An event stream of two payloads and the end mark, cut in the middle of
    a line; the parser keeps a payload as a string. *)
Definition asText (raw : string) : Error + json := inr (JStr raw).

Definition pieces : list string :=
  [ "data: 1" +:+ Js.LF +:+ "da"; "ta: 2" +:+ Js.LF +:+ "data: [DONE]" +:+ Js.LF ].

(** The surroundings of the session store. *)
Definition acceptAll (dir : string) : option Error := None.

Definition asGiven (p : string) : string := p.

Definition next : AgentService.SendArgs :=
  {| AgentService.sessionId := "s1"; AgentService.message := "go on";
     AgentService.arg_workingDirectory := None; AgentService.imagePaths := None;
     AgentService.arg_model := None |}.

End Scenarios.

(** * Properties *)

(** ** The tool executor *)

Module ToolExecutorFacts.

Import ToolExecutor.

Section Facts.

Context {W : Type}.
Variable JSON_parse : string → Error + json.
Variable TOOL_DEFINITIONS : list (ToolDefinition W).

Local Abbreviation registryOf allowedTools :=
  (new_Map (getToolDefinitions TOOL_DEFINITIONS allowedTools)).

(** The loop pushes the output of each call, in order, and never throws. *)
Lemma executeToolCalls_loop_spec registry context calls results (w : W) :
  executeToolCalls_loop JSON_parse registry context calls results w =
  (inr (results ++ (callOutputs JSON_parse registry context calls w).1),
   (callOutputs JSON_parse registry context calls w).2).
Proof.
  revert results w.
  induction calls as [|call rest IH]; intros results w; simpl.
  - by rewrite app_nil_r.
  - unfold callOutput.
    destruct (registry !! call_name call) as [tool|] eqn:Hreg.
    + unfold bind, attempt, parseArguments, lift; simpl.
      destruct (if Js.truthy (call_arguments call) then _ else _) as [error|parsedArgs]; simpl.
      * rewrite IH.
        destruct (callOutputs _ _ _ rest w) as [os w2]; simpl.
        by rewrite <- app_assoc.
      * destruct (execute tool (Some parsedArgs) context w) as [[error|result] w1]; simpl;
          rewrite IH;
          destruct (callOutputs _ _ _ rest w1) as [os w2]; simpl;
          by rewrite <- app_assoc.
    + rewrite IH.
      destruct (callOutputs _ _ _ rest w) as [os w2]; simpl.
      by rewrite <- app_assoc.
Qed.

Lemma executeToolCalls_spec calls context allowedTools (w : W) :
  executeToolCalls JSON_parse TOOL_DEFINITIONS calls context allowedTools w =
  (inr (callOutputs JSON_parse (registryOf allowedTools) context calls w).1,
   (callOutputs JSON_parse (registryOf allowedTools) context calls w).2).
Proof. unfold executeToolCalls. by rewrite executeToolCalls_loop_spec. Qed.

Lemma callOutputs_length registry context calls (w : W) :
  length (callOutputs JSON_parse registry context calls w).1 = length calls.
Proof.
  revert w. induction calls as [|call rest IH]; intros w; simpl; [done|].
  destruct (callOutput _ _ _ call w) as [o w1].
  specialize (IH w1).
  destruct (callOutputs _ _ _ rest w1) as [os w2]; simpl in *. by rewrite IH.
Qed.

(** The [i]-th output is that of the [i]-th call in the world the calls
    before it left. *)
Lemma callOutputs_lookup registry context calls (w : W) i call :
  calls !! i = Some call →
  (callOutputs JSON_parse registry context calls w).1 !! i =
  Some (callOutput JSON_parse registry context call
          (callOutputs JSON_parse registry context (take i calls) w).2).1.
Proof.
  revert w i.
  induction calls as [|c rest IH]; intros w i Hi; [done|].
  destruct i as [|i]; simpl in *.
  - simplify_eq.
    destruct (callOutput _ _ _ call w) as [o w1].
    by destruct (callOutputs _ _ _ rest w1) as [os w2].
  - destruct (callOutput _ _ _ c w) as [o w1].
    specialize (IH w1 i Hi).
    destruct (callOutputs _ _ _ rest w1) as [os w2]; simpl in *.
    by destruct (callOutputs _ _ _ (take i rest) w1) as [os' w2'].
Qed.

Lemma callOutput_id_name registry context call (w : W) :
  out_id (callOutput JSON_parse registry context call w).1 = call_id call ∧
  out_name (callOutput JSON_parse registry context call w).1 = call_name call.
Proof.
  unfold callOutput.
  destruct (registry !! call_name call) as [tool|]; [|done].
  destruct (parseArguments JSON_parse call w).1 as [error|parsedArgs]; [done|].
  by destruct (execute tool (Some parsedArgs) context w) as [[error|result] w1].
Qed.

Lemma callOutputs_ids registry context calls (w : W) :
  map out_id (callOutputs JSON_parse registry context calls w).1 = map call_id calls ∧
  map out_name (callOutputs JSON_parse registry context calls w).1 = map call_name calls.
Proof.
  revert w. induction calls as [|call rest IH]; intros w; simpl; [done|].
  destruct (callOutput_id_name registry context call w) as [Hid Hname].
  destruct (callOutput _ _ _ call w) as [o w1].
  destruct (IH w1) as [IHid IHname].
  destruct (callOutputs _ _ _ rest w1) as [os w2]; simpl in *.
  by rewrite Hid, Hname, IHid, IHname.
Qed.

(** What the registry holds: a tool of the catalog whose name is allowed. *)
Lemma new_Map_lookup_Some (tools : list (ToolDefinition W)) n tool :
  new_Map tools !! n = Some tool → tool ∈ tools ∧ name tool = n.
Proof.
  unfold new_Map.
  assert (∀ m : gmap string (ToolDefinition W),
             foldl (λ m t, <[name t := t]> m) m tools !! n = Some tool →
               (tool ∈ tools ∧ name tool = n) ∨ m !! n = Some tool) as Hgen.
  { induction tools as [|t rest IH]; intros m Hm; simpl in *; [by right|].
    destruct (IH _ Hm) as [[Hin Hname]|Hins].
    - left. split; [by right|done].
    - destruct (decide (name t = n)) as [<-|Hne].
      + rewrite lookup_insert_eq in Hins. simplify_eq. left. split; [by left|done].
      + rewrite lookup_insert_ne in Hins by done. by right. }
  intros Hm. destruct (Hgen ∅ Hm) as [?|Hempty]; [done|].
  by rewrite lookup_empty in Hempty.
Qed.

Lemma registry_lookup_Some allowedTools n tool :
  registryOf allowedTools !! n = Some tool →
  tool ∈ TOOL_DEFINITIONS ∧ name tool = n ∧ n ∈ allowedNames allowedTools.
Proof.
  intros [Hin Hname]%new_Map_lookup_Some.
  unfold getToolDefinitions in Hin.
  apply list_elem_of_filter in Hin as [Hallowed Hin].
  subst n. done.
Qed.

Lemma registry_lookup_disallowed allowedTools n :
  n ∉ allowedNames allowedTools → registryOf allowedTools !! n = None.
Proof.
  intros Hn. destruct (registryOf allowedTools !! n) as [tool|] eqn:Hreg; [|done].
  apply registry_lookup_Some in Hreg as (_ & _ & Hin). done.
Qed.

End Facts.

(** The recording catalog behaves as the catalog it wraps. *)
Section Logged.

Context {W : Type}.
Variable JSON_parse : string → Error + json.
Variable TOOL_DEFINITIONS : list (ToolDefinition W).

Lemma new_Map_logged (tools : list (ToolDefinition W)) :
  new_Map (map logged tools) = logged <$> new_Map tools.
Proof.
  unfold new_Map.
  assert (∀ m : gmap string (ToolDefinition W),
             foldl (λ m t, <[name t := t]> m) (logged <$> m) (map logged tools) =
               logged <$> foldl (λ m t, <[name t := t]> m) m tools) as Hgen.
  { induction tools as [|t rest IH]; intros m; simpl; [done|].
    rewrite <- IH. by rewrite fmap_insert. }
  specialize (Hgen ∅). by rewrite fmap_empty in Hgen.
Qed.

Lemma getToolDefinitions_logged allowedTools :
  getToolDefinitions (map logged TOOL_DEFINITIONS) allowedTools =
  map logged (getToolDefinitions TOOL_DEFINITIONS allowedTools).
Proof.
  unfold getToolDefinitions.
  induction TOOL_DEFINITIONS as [|t rest IH]; [done|].
  simpl. rewrite !filter_cons. simpl.
  destruct (decide (name t ∈ allowedNames allowedTools)); simpl; by rewrite IH.
Qed.

Lemma registry_logged allowedTools :
  new_Map (getToolDefinitions (map logged TOOL_DEFINITIONS) allowedTools) =
  logged <$> new_Map (getToolDefinitions TOOL_DEFINITIONS allowedTools).
Proof. rewrite getToolDefinitions_logged. apply new_Map_logged. Qed.

(** One call against the recording registry: same output, same world, and
    the record grows by the name of the registered tool, if it ran. *)
Lemma callOutput_logged (registry : gmap string (ToolDefinition W)) context call w log :
  ∃ entry,
    callOutput JSON_parse (logged <$> registry) context call (w, log) =
    ((callOutput JSON_parse registry context call w).1,
     ((callOutput JSON_parse registry context call w).2, log ++ entry)) ∧
    ∀ n, n ∈ entry → ∃ tool, registry !! call_name call = Some tool ∧ n = name tool.
Proof.
  unfold callOutput. rewrite lookup_fmap.
  destruct (registry !! call_name call) as [tool|] eqn:Hreg; simpl.
  - unfold parseArguments, lift; simpl.
    destruct (if Js.truthy (call_arguments call) then _ else _) as [error|parsedArgs]; simpl.
    + exists []. rewrite app_nil_r. split; [done|]. intros n Hn. by apply elem_of_nil in Hn.
    + exists [name tool].
      split.
      * by destruct (execute tool (Some parsedArgs) context w) as [[error|result] w1].
      * intros n ->%list_elem_of_singleton. by exists tool.
  - exists []. rewrite app_nil_r. split; [done|]. intros n Hn. by apply elem_of_nil in Hn.
Qed.

(** Running the recording registry over a list of calls. *)
Lemma callOutputs_logged (registry : gmap string (ToolDefinition W)) context calls w log :
  ∃ log',
    callOutputs JSON_parse (logged <$> registry) context calls (w, log) =
    ((callOutputs JSON_parse registry context calls w).1,
     ((callOutputs JSON_parse registry context calls w).2, log ++ log')) ∧
    ∀ n, n ∈ log' →
      ∃ tool call, call ∈ calls ∧ registry !! call_name call = Some tool ∧ n = name tool.
Proof.
  revert w log.
  induction calls as [|call rest IH]; intros w log; simpl.
  - exists []. rewrite app_nil_r. split; [done|]. intros n Hn. by apply elem_of_nil in Hn.
  - destruct (callOutput_logged registry context call w log) as (entry & -> & Hentry).
    destruct (callOutput JSON_parse registry context call w) as [o w1]; simpl.
    destruct (IH w1 (log ++ entry)) as (log' & -> & Hlog').
    destruct (callOutputs JSON_parse registry context rest w1) as [os w2]; simpl.
    exists (entry ++ log'). rewrite app_assoc. split; [done|].
    intros n [Hn|Hn]%elem_of_app.
    + destruct (Hentry n Hn) as (tool & ? & ?).
      exists tool, call. split_and!; [by left|done|done].
    + destruct (Hlog' n Hn) as (tool & c & ? & ? & ?).
      exists tool, c. split_and!; [by right|done|done].
Qed.

End Logged.

Section Claims.

Context {W : Type}.
Variable JSON_parse : string → Error + json.
Variable TOOL_DEFINITIONS : list (ToolDefinition W).

Lemma callOutputs_snoc registry context calls call (w : W) :
  callOutputs JSON_parse registry context (calls ++ [call]) w =
  let '(os, w1) := callOutputs JSON_parse registry context calls w in
  let '(o, w2) := callOutput JSON_parse registry context call w1 in
  (os ++ [o], w2).
Proof.
  revert w. induction calls as [|c rest IH]; intros w; simpl.
  - by destruct (callOutput _ _ _ call w).
  - destruct (callOutput _ _ _ c w) as [o1 w1]. rewrite IH.
    destruct (callOutputs _ _ _ rest w1) as [os w2].
    by destruct (callOutput _ _ _ call w2).
Qed.


(** C7.  For every allowed-tools list (the default names when it is absent)
    and every list of calls: run against the catalog whose tools record
    their name whenever their implementation is entered, [executeToolCalls]
    returns the results and the world of the plain run, and every recorded
    name is an allowed one, so no implementation of a tool outside the list is
    ever entered.  A call whose name is not allowed produces exactly the
    error-flagged "not available" result and leaves the world as it found
    it. *)
Theorem disallowed_tools_never_invoked calls context allowedTools (w : W) :
  ∃ results w' log,
    executeToolCalls JSON_parse (map logged TOOL_DEFINITIONS) calls context allowedTools
      (w, []) = (inr results, (w', log)) ∧
    executeToolCalls JSON_parse TOOL_DEFINITIONS calls context allowedTools w
      = (inr results, w') ∧
    (∀ n, n ∈ log → n ∈ allowedNames allowedTools) ∧
    (∀ i call, calls !! i = Some call →
       call_name call ∉ allowedNames allowedTools →
       results !! i = Some (notAvailable call) ∧
       out_isError (notAvailable call) = true ∧
       worldBefore JSON_parse TOOL_DEFINITIONS calls context allowedTools (S i) w =
       worldBefore JSON_parse TOOL_DEFINITIONS calls context allowedTools i w).
Proof.
  rewrite !executeToolCalls_spec, registry_logged.
  destruct (callOutputs_logged JSON_parse
              (new_Map (getToolDefinitions TOOL_DEFINITIONS allowedTools))
              context calls w []) as (log & Hrun & Hlog).
  rewrite Hrun. simpl.
  eexists _, _, log. split; [done|]. split; [done|]. split.
  - intros n Hn. destruct (Hlog n Hn) as (tool & call & _ & Hreg & ->).
    apply registry_lookup_Some in Hreg as (_ & -> & Hallowed). done.
  - intros i call Hi Hname.
    pose proof (registry_lookup_disallowed TOOL_DEFINITIONS allowedTools _ Hname) as Hreg.
    split; [|split; [done|]].
    + rewrite (callOutputs_lookup _ _ _ _ _ _ _ Hi). unfold callOutput. by rewrite Hreg.
    + unfold worldBefore. rewrite !executeToolCalls_spec. simpl.
      rewrite (take_S_r _ _ _ Hi), callOutputs_snoc.
      destruct (callOutputs _ _ _ (take i calls) w) as [os w1]; simpl.
      unfold callOutput. by rewrite Hreg.
Qed.

End Claims.

End ToolExecutorFacts.

(** ** The tool registry *)

Module ToolRegistryFacts.

Import ToolRegistry.

Section EditFacts.

Variable path_isAbsolute : string → bool.
Variable path_resolve : string → string → string.
Variable isPathAllowed : string → bool.

Local Abbreviation resolve := (resolveInputPath path_isAbsolute path_resolve).
Local Abbreviation edit := (editTool path_isAbsolute path_resolve isPathAllowed).

Local Abbreviation editInput := Examples.editInput.

(** C9.  The Edit tool on a file whose text is "foo bar foo", with
    old_string "foo" and new_string "baz": with replace_all = true the text
    written is "baz bar baz" and the report counts 2 replacements; with
    replace_all = false the text written is "baz bar foo", only the first
    occurrence being replaced, and the report counts 1.  The file is named by
    any non-blank path that resolves to an allowed location. *)
Theorem editTool_foo_bar_foo (context : ToolExecutionContext) (filePath : string)
    (w : World) :
  Json.getString (Some (JStr filePath)) = Some filePath →
  isPathAllowed (resolve (cwd context) filePath) = true →
  files w !! resolve (cwd context) filePath = Some "foo bar foo"%string →
  edit (editInput filePath true) context w =
    (inr (success ("Updated " +:+ resolve (cwd context) filePath +:+ " (2 replacements).")),
     {| files := <[resolve (cwd context) filePath := "baz bar baz"%string]> (files w);
        dirs := dirs w |}) ∧
  edit (editInput filePath false) context w =
    (inr (success ("Updated " +:+ resolve (cwd context) filePath +:+ " (1 replacements).")),
     {| files := <[resolve (cwd context) filePath := "baz bar foo"%string]> (files w);
        dirs := dirs w |}).
Proof.
  intros Hpath Hallowed Hfile.
  unfold editTool, Examples.editInput, coerceFilePath.
  cbn [Json.asObject Json.prop String.eqb Ascii.eqb Bool.eqb].
  rewrite Hpath. cbn [Json.orElse].
  unfold bind, attempt, secureFs_readFile, secureFs_writeFile, ret.
  rewrite Hallowed, Hfile.
  split; reflexivity.
Qed.

End EditFacts.


Section WalkFacts.

Variable path_join : string → string → string.
Variable path_relative : string → string → string.

Local Abbreviation scan := (scanEntries path_join path_relative).
Local Abbreviation loop := (walkLoop path_join path_relative).
Local Abbreviation reached := (listed path_join path_relative).

Lemma direntWeight_dir n listing :
  direntWeight (DirEntry n listing) = listingWeight listing.
Proof.
  destruct listing as [entries|]; [|done].
  simpl. f_equal. induction entries as [|e es IH]; [done|].
  simpl. by rewrite IH.
Qed.

Lemma direntWeight_pos entry : (1 ≤ direntWeight entry)%nat.
Proof. destruct entry as [|n [es|]|]; simpl; lia. Qed.

(** Scanning a directory puts on the stack at most the weight of what the
    directory lists. *)
Lemma scanEntries_weight rootDir current maxResults entries results pending results' pending' :
  scan rootDir current maxResults entries results pending = inr (results', pending') →
  (pendingWeight pending' ≤ pendingWeight pending + list_sum (map direntWeight entries))%nat.
Proof.
  revert results pending.
  induction entries as [|entry rest IH]; intros results pending Hscan; simpl in Hscan.
  - simplify_eq. simpl. lia.
  - destruct entry as [n|n listing|n].
    + destruct (_ >=? _); [done|].
      apply IH in Hscan. simpl. lia.
    + case_bool_decide.
      * apply IH in Hscan. simpl. lia.
      * apply IH in Hscan.
        change (list_sum (map direntWeight (DirEntry n listing :: rest)))
          with (direntWeight (DirEntry n listing) + list_sum (map direntWeight rest))%nat.
        rewrite direntWeight_dir.
        unfold pendingWeight in *. simpl in Hscan. lia.
    + apply IH in Hscan. simpl. lia.
Qed.

(** The loop ends within as many iterations as the stack weighs. *)
Lemma walkLoop_total fuel rootDir maxResults results pending :
  (pendingWeight pending < fuel)%nat →
  is_Some (loop fuel rootDir maxResults results pending).
Proof.
  revert results pending.
  induction fuel as [|fuel IH]; intros results pending Hfuel; [lia|].
  simpl. destruct pending as [|[current listing] pending']; [by eexists|].
  destruct (negb (Js.truthy current)); [by eexists|].
  unfold pendingWeight in Hfuel. simpl in Hfuel.
  destruct listing as [entries|]; simpl in Hfuel.
  - destruct (scan rootDir current maxResults entries results pending')
      as [returned|[results' pending'']] eqn:Hscan; [by eexists|].
    apply IH. apply scanEntries_weight in Hscan. unfold pendingWeight in *. lia.
  - apply IH. unfold pendingWeight. lia.
Qed.

(** The early return fires as soon as [maxResults] results are held. *)
Lemma scanEntries_bound rootDir current maxResults entries results pending :
  Z.of_nat (length results) < maxResults →
  match scan rootDir current maxResults entries results pending with
  | inl returned => Z.of_nat (length returned) <= maxResults
  | inr (results', _) => Z.of_nat (length results') < maxResults
  end.
Proof.
  revert results pending.
  induction entries as [|entry rest IH]; intros results pending Hlen; simpl; [done|].
  destruct entry as [n|n listing|n].
  - destruct (_ >=? _) eqn:Hge.
    + rewrite length_app; simpl. lia.
    + apply IH. rewrite Z.geb_leb in Hge. by apply Z.leb_gt in Hge.
  - case_bool_decide; by apply IH.
  - by apply IH.
Qed.

Lemma walkLoop_bound fuel rootDir maxResults results pending returned :
  Z.of_nat (length results) < maxResults →
  loop fuel rootDir maxResults results pending = Some returned →
  Z.of_nat (length returned) <= maxResults.
Proof.
  revert results pending.
  induction fuel as [|fuel IH]; intros results pending Hlen Hloop; [done|].
  simpl in Hloop. destruct pending as [|[current listing] pending'].
  { simplify_eq. lia. }
  destruct (negb (Js.truthy current)).
  { simplify_eq. lia. }
  destruct listing as [entries|]; [|by eapply IH].
  pose proof (scanEntries_bound rootDir current maxResults entries results pending' Hlen)
    as Hscan.
  destruct (scan rootDir current maxResults entries results pending')
    as [r|[results' pending'']].
  - by simplify_eq.
  - by eapply IH.
Qed.

Local Abbreviation soundEntry := (ToolRegistry.soundEntry path_join path_relative).

Lemma scanEntries_sound rootDir (P : string → Prop) current all maxResults entries
    results pending :
  (∀ e, e ∈ entries → e ∈ all) →
  (∀ p, reached rootDir current all p → P p) →
  Forall P results →
  Forall (soundEntry rootDir P) pending →
  match scan rootDir current maxResults entries results pending with
  | inl returned => Forall P returned
  | inr (results', pending') => Forall P results' ∧ Forall (soundEntry rootDir P) pending'
  end.
Proof.
  intros Hsub Hall. revert results pending.
  induction entries as [|entry rest IH]; intros results pending Hres Hpend; simpl; [done|].
  assert (∀ e, e ∈ rest → e ∈ all) as Hrest by (intros e He; apply Hsub; by right).
  assert (entry ∈ all) as Hentry by (apply Hsub; by left).
  destruct entry as [n|n listing|n].
  - assert (Forall P (results ++
        [normalizeRelativePath (path_relative rootDir (path_join current n))])) as Hres'.
    { apply Forall_app. split; [done|]. apply Forall_singleton.
      apply Hall. by constructor. }
    destruct (_ >=? _); [done|]. by apply IH.
  - case_bool_decide as Hignored; [by apply IH|].
    apply IH; [done..|].
    apply Forall_cons. split; [|done].
    unfold ToolRegistry.soundEntry; simpl. destruct listing as [sub|]; [|done].
    intros p Hp. apply Hall. by eapply listed_dir.
  - by apply IH.
Qed.

Lemma walkLoop_sound fuel rootDir (P : string → Prop) maxResults results pending returned :
  Forall P results →
  Forall (soundEntry rootDir P) pending →
  loop fuel rootDir maxResults results pending = Some returned →
  Forall P returned.
Proof.
  revert results pending.
  induction fuel as [|fuel IH]; intros results pending Hres Hpend Hloop; [done|].
  simpl in Hloop. destruct pending as [|[current listing] pending'].
  { by simplify_eq. }
  destruct (negb (Js.truthy current)).
  { by simplify_eq. }
  apply Forall_cons in Hpend as [Hcur Hpend].
  destruct listing as [entries|]; [|by eapply IH].
  pose proof (scanEntries_sound rootDir P current entries maxResults entries results pending'
                (λ _ H, H) Hcur Hres Hpend) as Hscan.
  destruct (scan rootDir current maxResults entries results pending')
    as [r|[results' pending'']].
  - by simplify_eq.
  - destruct Hscan. by eapply IH.
Qed.

End WalkFacts.

Section GlobFacts.

Variable path_isAbsolute : string → bool.
Variable path_resolve : string → string → string.
Variable path_join : string → string → string.
Variable path_relative : string → string → string.
Variable isPathAllowed : string → bool.
Variable RegExp_test : string → string → bool.
Variable js_Number : json → option Z.

Local Abbreviation glob :=
  (globTool path_isAbsolute path_resolve path_join path_relative isPathAllowed
     RegExp_test js_Number).
Local Abbreviation walk := (walkDirectory path_join path_relative isPathAllowed).
Local Abbreviation root := (globRoot path_isAbsolute path_resolve).

(** A walk returns, holds at most [maxResults] paths when that is positive,
    and lists only files reached through directories that are not ignored. *)
Lemma walkDirectory_spec rootDir maxResults (w : World) :
  0 < maxResults →
  ∃ found,
    walk rootDir maxResults w = (inr found, w) ∧
    Z.of_nat (length found) <= maxResults ∧
    ∀ p, p ∈ found →
      ∃ entries, secureFs_readdir isPathAllowed rootDir w = Some entries ∧
                 listed path_join path_relative rootDir rootDir entries p.
Proof.
  intros Hmax. unfold walkDirectory.
  set (pending := [(rootDir, secureFs_readdir isPathAllowed rootDir w)]).
  destruct (walkLoop_total path_join path_relative (S (pendingWeight pending)) rootDir
              maxResults [] pending) as [found Hfound]; [lia|].
  rewrite Hfound. exists found. split; [done|]. split.
  - eapply walkLoop_bound; [|done]. simpl. lia.
  - apply Forall_forall.
    eapply (walkLoop_sound path_join path_relative _ rootDir
              (λ p, ∃ entries, secureFs_readdir isPathAllowed rootDir w = Some entries ∧
                               listed path_join path_relative rootDir rootDir entries p));
      [| |done].
    + by apply Forall_nil.
    + apply Forall_singleton. unfold ToolRegistry.soundEntry; simpl.
      destruct (secureFs_readdir isPathAllowed rootDir w) as [entries|]; [|done].
      intros p Hp. by exists entries.
Qed.

Lemma filter_length_le {A} (f : A → bool) (l : list A) :
  (length (List.filter f l) ≤ length l)%nat.
Proof. induction l as [|x l IH]; simpl; [done|]. destruct (f x); simpl; lia. Qed.


End GlobFacts.

End ToolRegistryFacts.

(** ** The OpenAI-compatible provider *)

Module OpenAIProviderFacts.

Import OpenAIProvider.

(** *** The accumulator map *)

Section MapFacts.

Context {A : Type}.
Implicit Types m : list (Z * A).

Lemma Map_get_set m key value k :
  Map_get (Map_set m key value) k = if key =? k then Some value else Map_get m k.
Proof.
  induction m as [|[k0 v0] rest IH]; simpl.
  - done.
  - destruct (Z.eqb_spec k0 key) as [->|Hne]; simpl.
    + by destruct (Z.eqb_spec key k).
    + rewrite IH. destruct (Z.eqb_spec k0 k) as [->|]; [|done].
      by destruct (Z.eqb_spec key k) as [->|].
Qed.

Lemma Map_set_keys m key value :
  map fst (Map_set m key value) =
  if bool_decide (key ∈ map fst m) then map fst m else map fst m ++ [key].
Proof.
  induction m as [|[k0 v0] rest IH]; simpl; [done|].
  destruct (Z.eqb_spec k0 key) as [->|Hne]; simpl.
  - rewrite bool_decide_eq_true_2; [done|by left].
  - rewrite IH. case_bool_decide as Hin.
    + rewrite bool_decide_eq_true_2; [done|by right].
    + rewrite bool_decide_eq_false_2; [done|].
      intros [?|?]%elem_of_cons; congruence.
Qed.

Lemma Map_set_NoDup m key value :
  NoDup (map fst m) → NoDup (map fst (Map_set m key value)).
Proof.
  intros Hm. rewrite Map_set_keys. case_bool_decide as Hin; [done|].
  apply NoDup_app. split; [done|]. split; [|apply NoDup_singleton].
  intros k Hk ->%list_elem_of_singleton. done.
Qed.

Lemma Map_get_Some_elem m k v :
  NoDup (map fst m) → (Map_get m k = Some v ↔ (k, v) ∈ m).
Proof.
  induction m as [|[k0 v0] rest IH]; simpl; intros Hm.
  - split; [done|]. intros H. by apply elem_of_nil in H.
  - apply NoDup_cons in Hm as [Hk0 Hm].
    destruct (Z.eqb_spec k0 k) as [->|Hne].
    + split.
      * intros [= ->]. by left.
      * intros [[= ->]|Hin]%elem_of_cons; [done|].
        exfalso. apply Hk0. change k with (fst (k, v)). by apply list_elem_of_fmap_2.
    + rewrite IH by done. split; [by right|].
      intros [[= ? ?]|Hin]%elem_of_cons; [congruence|done].
Qed.

Lemma entries_NoDup m : NoDup (map fst m) → NoDup m.
Proof. apply NoDup_fmap_1. Qed.

(** Two maps with the same lookups hold the same entries. *)
Lemma Map_ext_Permutation m1 m2 :
  NoDup (map fst m1) → NoDup (map fst m2) →
  (∀ k, Map_get m1 k = Map_get m2 k) → m1 ≡ₚ m2.
Proof.
  intros H1 H2 Hget.
  apply NoDup_Permutation; [by apply entries_NoDup..|].
  intros [k v]. by rewrite <- !Map_get_Some_elem, Hget.
Qed.

(** *** Sorting the entries by slot index *)

Local Abbreviation keyLt := (@OpenAIProvider.keyLt A).

Lemma insertEntry_Permutation (e : Z * A) sorted : insertEntry e sorted ≡ₚ e :: sorted.
Proof.
  induction sorted as [|e' rest IH]; simpl; [done|].
  destruct (e'.1 <=? e.1); [|done].
  rewrite IH. apply Permutation_swap.
Qed.

Lemma sortEntries_Permutation m : sortEntries m ≡ₚ m.
Proof.
  induction m as [|e rest IH]; simpl; [done|].
  unfold sortEntries in *. simpl. rewrite insertEntry_Permutation. by rewrite IH.
Qed.

Lemma insertEntry_sorted (e : Z * A) sorted :
  e.1 ∉ map fst sorted →
  StronglySorted keyLt sorted → StronglySorted keyLt (insertEntry e sorted).
Proof.
  induction sorted as [|e' rest IH]; simpl; intros Hfresh Hsorted.
  - repeat constructor.
  - apply StronglySorted_cons in Hsorted as [Hall Hsorted].
    rewrite Forall_forall in Hall.
    apply not_elem_of_cons in Hfresh as [Hne Hfresh].
    destruct (Z.leb_spec e'.1 e.1) as [Hle|Hgt].
    + apply StronglySorted_cons. split; [|by apply IH].
      apply Forall_forall. intros y Hy. rewrite insertEntry_Permutation in Hy.
      apply elem_of_cons in Hy as [->|Hy]; [unfold OpenAIProvider.keyLt; lia|by apply Hall].
    + apply StronglySorted_cons. split.
      * apply Forall_forall. intros y [->|Hy]%elem_of_cons; [done|].
        specialize (Hall y Hy). unfold OpenAIProvider.keyLt in *. lia.
      * apply StronglySorted_cons. split; [by apply Forall_forall|done].
Qed.

Lemma sortEntries_sorted m :
  NoDup (map fst m) → StronglySorted keyLt (sortEntries m).
Proof.
  induction m as [|e rest IH]; simpl; intros Hm; [constructor|].
  apply NoDup_cons in Hm as [He Hm].
  unfold sortEntries in *. simpl. apply insertEntry_sorted; [|by apply IH].
  intros Hin. apply He.
  apply list_elem_of_fmap in Hin as (y & -> & Hy).
  rewrite (sortEntries_Permutation rest) in Hy. by apply list_elem_of_fmap_2.
Qed.

(** The sorted entries depend on the lookups of the map only, not on the
    order its entries were inserted in. *)
Lemma sortEntries_ext m1 m2 :
  NoDup (map fst m1) → NoDup (map fst m2) →
  (∀ k, Map_get m1 k = Map_get m2 k) → sortEntries m1 = sortEntries m2.
Proof.
  intros H1 H2 Hget.
  apply (StronglySorted_unique_strong keyLt); [|by apply sortEntries_sorted..|].
  - intros x1 x2 _ _. unfold OpenAIProvider.keyLt. lia.
  - rewrite !sortEntries_Permutation. by apply Map_ext_Permutation.
Qed.

End MapFacts.

(** *** Accumulation slot by slot *)

Lemma accumulate_NoDup accumulators d :
  NoDup (map fst accumulators) → NoDup (map fst (accumulate accumulators d)).
Proof. apply Map_set_NoDup. Qed.

Lemma foldl_accumulate_NoDup frags accumulators :
  NoDup (map fst accumulators) → NoDup (map fst (foldl accumulate accumulators frags)).
Proof.
  revert accumulators. induction frags as [|d rest IH]; intros m Hm; simpl; [done|].
  by apply IH, accumulate_NoDup.
Qed.

Lemma foldl_accumulate_get frags accumulators slot :
  Map_get (foldl accumulate accumulators frags) slot =
  slotValue (Map_get accumulators slot) (List.filter (λ d, slotOf d =? slot) frags).
Proof.
  revert accumulators. induction frags as [|d rest IH]; intros m; simpl; [done|].
  rewrite IH. unfold accumulate at 1. rewrite Map_get_set.
  destruct (Z.eqb_spec (slotOf d) slot) as [->|Hne]; [|done].
  simpl. by destruct (List.filter _ rest).
Qed.

Lemma onChunk_accumulators r chunk :
  toolCallAccumulators (onChunk r chunk) =
  foldl accumulate (toolCallAccumulators r) (chunkFragments chunk).
Proof.
  unfold onChunk, chunkFragments.
  destruct (head (default [] (choices chunk))) as [choice|]; [|done].
  destruct (delta choice) as [d|]; [|done].
  destruct (truthyString (delta_content d)), (tool_calls d),
    (truthyString (finish_reason choice)); done.
Qed.

Lemma foldl_onChunk_accumulators stream r :
  toolCallAccumulators (foldl onChunk r stream) =
  foldl accumulate (toolCallAccumulators r) (fragments stream).
Proof.
  revert r. induction stream as [|chunk rest IH]; intros r; simpl; [done|].
  unfold fragments in *. simpl. rewrite foldl_app, IH. by rewrite onChunk_accumulators.
Qed.

Lemma roundOf_accumulators stream :
  toolCallAccumulators (roundOf stream) = foldl accumulate [] (fragments stream).
Proof. apply foldl_onChunk_accumulators. Qed.

Lemma roundOf_NoDup stream : NoDup (map fst (toolCallAccumulators (roundOf stream))).
Proof. rewrite roundOf_accumulators. apply foldl_accumulate_NoDup. constructor. Qed.

Lemma roundOf_get stream slot :
  Map_get (toolCallAccumulators (roundOf stream)) slot =
  slotValue None (slotFragments slot stream).
Proof. rewrite roundOf_accumulators. apply foldl_accumulate_get. Qed.

Lemma string_app_empty (s : string) : s +:+ EmptyString = s.
Proof.
  induction s as [|c s IH]; [done|].
  change (String c (s +:+ EmptyString) = String c s). by rewrite IH.
Qed.

(** The concatenated arguments of a slot. *)
Lemma applyDelta_arguments existing d :
  acc_arguments (applyDelta existing d) =
  acc_arguments existing +:+ default EmptyString (truthyString (fn_arguments d)).
Proof.
  unfold applyDelta.
  destruct (truthyString (id d)), (truthyString (fn_name d)),
    (truthyString (fn_arguments d)); simpl; by rewrite ?string_app_empty.
Qed.

Lemma foldl_applyDelta_arguments frags existing :
  acc_arguments (foldl applyDelta existing frags) =
  foldl (λ s d, s +:+ default EmptyString (truthyString (fn_arguments d)))
        (acc_arguments existing) frags.
Proof.
  revert existing. induction frags as [|d rest IH]; intros existing; simpl; [done|].
  by rewrite IH, applyDelta_arguments.
Qed.

Lemma assemble_arguments frags : acc_arguments (assemble frags) = concatArguments frags.
Proof. apply foldl_applyDelta_arguments. Qed.

Lemma foldl_applyDelta_id frags existing :
  acc_id (foldl applyDelta existing frags) =
  default (acc_id existing) (last (omap (λ d, truthyString (id d)) frags)).
Proof.
  revert existing. induction frags as [|d rest IH]; intros existing; simpl; [done|].
  rewrite IH. unfold applyDelta at 1.
  destruct (truthyString (id d)) as [i|] eqn:Hid; simpl.
  - rewrite last_cons.
    destruct (truthyString (fn_name d)), (truthyString (fn_arguments d)); simpl;
      by destruct (last _).
  - by destruct (truthyString (fn_name d)), (truthyString (fn_arguments d)).
Qed.

Lemma foldl_applyDelta_name frags existing :
  acc_name (foldl applyDelta existing frags) =
  default (acc_name existing) (last (omap (λ d, truthyString (fn_name d)) frags)).
Proof.
  revert existing. induction frags as [|d rest IH]; intros existing; simpl; [done|].
  rewrite IH. unfold applyDelta at 1.
  destruct (truthyString (fn_name d)) as [n|] eqn:Hname; simpl.
  - rewrite last_cons.
    destruct (truthyString (id d)), (truthyString (fn_arguments d)); simpl;
      by destruct (last _).
  - by destruct (truthyString (id d)), (truthyString (fn_arguments d)).
Qed.

Lemma assemble_id frags : acc_id (assemble frags) = lastId frags.
Proof. apply foldl_applyDelta_id. Qed.

Lemma assemble_name frags : acc_name (assemble frags) = lastName frags.
Proof. apply foldl_applyDelta_name. Qed.

(** A complete call has received at least one fragment. *)
Lemma isComplete_nonempty frags : isComplete (assemble frags) = true → frags ≠ [].
Proof. by intros H ->. Qed.

(** With two slots in use, both complete, the finished calls are those two
    in the order of their indices. *)
Lemma two_slot_toolCalls stream i j :
  i < j →
  (∀ d, d ∈ fragments stream → slotOf d = i ∨ slotOf d = j) →
  isComplete (assemble (slotFragments i stream)) = true →
  isComplete (assemble (slotFragments j stream)) = true →
  streamToolCalls stream =
    [assemble (slotFragments i stream); assemble (slotFragments j stream)].
Proof.
  intros Hij Hslots Hi Hj.
  unfold streamToolCalls, toolCallsOf.
  rewrite (sortEntries_ext _
             [(i, assemble (slotFragments i stream)); (j, assemble (slotFragments j stream))]).
  - unfold sortEntries; simpl.
    replace (j <=? i) with false by (symmetry; apply Z.leb_gt; lia).
    simpl. by rewrite Hi, Hj.
  - apply roundOf_NoDup.
  - simpl. apply NoDup_cons. split; [|apply NoDup_singleton].
    intros ->%list_elem_of_singleton. lia.
  - intros k. rewrite roundOf_get. simpl.
    destruct (Z.eqb_spec i k) as [<-|Hik].
    { apply isComplete_nonempty in Hi. unfold slotValue, assemble.
      by destruct (slotFragments i stream). }
    destruct (Z.eqb_spec j k) as [<-|Hjk].
    { apply isComplete_nonempty in Hj. unfold slotValue, assemble.
      by destruct (slotFragments j stream). }
    unfold slotFragments.
    assert (List.filter (λ d, slotOf d =? k) (fragments stream) = []) as ->; [|done].
    induction (fragments stream) as [|d rest IH]; [done|].
    simpl. destruct (Z.eqb_spec (slotOf d) k) as [Hd|_].
    + destruct (Hslots d) as [?|?]; [by left|congruence..].
    + apply IH. intros d' Hd'. apply Hslots. by right.
Qed.

(** The finished calls of a stream depend on the fragments of each slot
    only. *)
Lemma streamToolCalls_ext stream1 stream2 :
  (∀ slot, slotFragments slot stream1 = slotFragments slot stream2) →
  streamToolCalls stream1 = streamToolCalls stream2.
Proof.
  intros Hslots. unfold streamToolCalls, toolCallsOf.
  rewrite (sortEntries_ext _ (toolCallAccumulators (roundOf stream2)));
    [done|apply roundOf_NoDup..|].
  intros k. by rewrite !roundOf_get, Hslots.
Qed.

(** *** The text of a round *)

Lemma onChunk_text r chunk :
  assistantText (onChunk r chunk) = foldl String.app (assistantText r) (chunkText chunk) ∧
  yielded (onChunk r chunk) = yielded r ++ map textEvent (chunkText chunk).
Proof.
  unfold onChunk, chunkText.
  destruct (head (default [] (choices chunk))) as [choice|];
    [|by rewrite app_nil_r].
  destruct (delta choice) as [d|]; [|by rewrite app_nil_r].
  destruct (truthyString (delta_content d)), (tool_calls d),
    (truthyString (finish_reason choice)); simpl; by rewrite ?app_nil_r.
Qed.

Lemma foldl_onChunk_text stream r :
  assistantText (foldl onChunk r stream) =
    foldl String.app (assistantText r) (textDeltas stream) ∧
  yielded (foldl onChunk r stream) = yielded r ++ map textEvent (textDeltas stream).
Proof.
  revert r. induction stream as [|chunk rest IH]; intros r; simpl.
  - by rewrite app_nil_r.
  - destruct (IH (onChunk r chunk)) as [-> ->].
    destruct (onChunk_text r chunk) as [-> ->].
    unfold textDeltas. simpl. by rewrite foldl_app, map_app, app_assoc.
Qed.

Lemma roundOf_text stream :
  assistantText (roundOf stream) = foldl String.app EmptyString (textDeltas stream) ∧
  yielded (roundOf stream) = map textEvent (textDeltas stream).
Proof. apply (foldl_onChunk_text stream newRound). Qed.

Lemma yielded_assistant stream e :
  e ∈ yielded (roundOf stream) → msg_type e = "assistant"%string.
Proof.
  destruct (roundOf_text stream) as [_ ->].
  by intros (t & -> & _)%list_elem_of_fmap.
Qed.


Section ProviderFacts.

Context {W : Type}.
Variable JSON_parse : string → Error + json.
Variable TOOL_DEFINITIONS : list (ToolDefinition W).
Variable apiKey : option string.
Variable backend : Request → Response.

Local Abbreviation loop := (toolLoop JSON_parse TOOL_DEFINITIONS backend).
Local Abbreviation query := (executeQuery JSON_parse TOOL_DEFINITIONS apiKey backend).
Local Abbreviation outputsOf options calls w :=
  (ToolExecutor.callOutputs JSON_parse
     (ToolExecutor.new_Map
        (ToolExecutor.getToolDefinitions TOOL_DEFINITIONS (allowedTools options)))
     (Build_ToolExecutionContext (cwd options)) (map toToolCall calls) w).

(** A round that ends with finished calls: they are announced and executed
    in the order [streamToolCalls] lists them, and the loop goes on. *)
Lemma toolLoop_round_with_calls turnsLeft options tools activeMessages (w : W) :
  let request := requestOf options tools activeMessages in
  let stream := chunks (backend request) in
  let toolCalls := streamToolCalls stream in
  let outputs := outputsOf options toolCalls w in
  failure (backend request) = None →
  toolCalls ≠ [] →
  loop (S turnsLeft) options tools activeMessages w =
    let '(rest, w') :=
      loop turnsLeft options tools
        ((activeMessages ++
          [ {| role := "assistant";
               text := truthyString (Some (assistantText (roundOf stream)));
               msg_tool_calls := Some (map toOpenAIToolCall toolCalls);
               tool_call_id := None |} ]) ++ map toolMessage outputs.1)
        outputs.2 in
    (andThen (yielded (roundOf stream)
                ++ [assistantMessage (map (toolUseBlock JSON_parse) toolCalls)]
                ++ map toolResultEvent outputs.1)
             request rest, w').
Proof.
  intros request stream toolCalls outputs Hok Hcalls.
  simpl. fold request. rewrite Hok. fold stream.
  change (toolCallsOf (toolCallAccumulators (roundOf stream))) with toolCalls.
  assert (∀ l : list ToolCallAccumulator, l ≠ [] → (Z.of_nat (length l) =? 0) = false)
    as Hnz.
  { intros [|c cs] ?; [done|]. apply Z.eqb_neq. simpl. lia. }
  rewrite (Hnz _ Hcalls).
  by rewrite ToolExecutorFacts.executeToolCalls_spec.
Qed.

(** A round that ends without a finished call. *)
Lemma toolLoop_round_without_calls turnsLeft options tools activeMessages (w : W) :
  let request := requestOf options tools activeMessages in
  let stream := chunks (backend request) in
  failure (backend request) = None →
  streamToolCalls stream = [] →
  loop (S turnsLeft) options tools activeMessages w =
    ({| events := yielded (roundOf stream) ++ [successResult (assistantText (roundOf stream))];
        requests := [request];
        outcome := inr () |}, w).
Proof.
  intros request stream Hok Hcalls.
  simpl. fold request. rewrite Hok. fold stream.
  unfold streamToolCalls in Hcalls. by rewrite Hcalls.
Qed.

Lemma toolLoop_requests turnsLeft options tools activeMessages (w : W) :
  (length (requests (loop turnsLeft options tools activeMessages w).1) ≤ turnsLeft)%nat.
Proof.
  revert activeMessages w.
  induction turnsLeft as [|n IH]; intros activeMessages w; simpl; [done|].
  destruct (failure (backend _)); simpl; [lia|].
  destruct (_ =? 0); simpl; [lia|].
  destruct (ToolExecutor.executeToolCalls _ _ _ _ _ w) as [[error|toolResults] w']; simpl;
    [lia|].
  match goal with |- context [loop n options tools ?ms w'] =>
    specialize (IH ms w'); destruct (loop n options tools ms w') as [rest w'']
  end.
  simpl in *. lia.
Qed.

(** When every round ends with a finished call the budget runs out. *)
Lemma toolLoop_exhausts turnsLeft options tools activeMessages (w : W) :
  (∀ request,
     failure (backend request) = None ∧ streamToolCalls (chunks (backend request)) ≠ []) →
  let run := (loop turnsLeft options tools activeMessages w).1 in
  outcome run = inl exceeded ∧
  length (requests run) = turnsLeft ∧
  ∀ e, e ∈ events run → msg_type e = "assistant"%string.
Proof.
  intros Hbackend. revert activeMessages w.
  induction turnsLeft as [|n IH]; intros activeMessages w.
  - simpl. split; [done|]. split; [done|]. intros e He. by apply elem_of_nil in He.
  - destruct (Hbackend (requestOf options tools activeMessages)) as [Hok Hcalls].
    rewrite (toolLoop_round_with_calls n options tools activeMessages w Hok Hcalls).
    match goal with |- context [loop n options tools ?ms ?w'] =>
      specialize (IH ms w'); destruct (loop n options tools ms w') as [rest w'']
    end.
    simpl in *. destruct IH as (Hout & Hlen & Hev).
    split; [done|]. split; [by rewrite Hlen|].
    intros e [[He|[->|He]%elem_of_cons]%elem_of_app|He]%elem_of_app.
    + by eapply yielded_assistant.
    + done.
    + by apply list_elem_of_fmap in He as (r & -> & _).
    + by apply Hev.
Qed.

(** C2.  Two streams that carry the same tool-call fragments for every slot
    index, in the same order within each slot, whatever the interleaving of
    the fragments of the two slots [i < j] in use: when each of the two slots
    received an id and a name, both streams accumulate to the same two
    finished calls, the one of slot [i] first.  Each call has the last
    non-empty id and name of its slot and the concatenation of the argument
    fragments of its slot.  Whichever of the two streams a round of the tool
    loop reads, the two calls are announced and then executed in that order,
    ascending by slot index. *)
Theorem accumulation_is_interleaving_independent (stream1 stream2 : list OpenAIStreamChunk)
    (i j : Z) :
  i < j →
  (∀ slot, slotFragments slot stream1 = slotFragments slot stream2) →
  (∀ d, d ∈ fragments stream1 → slotOf d = i ∨ slotOf d = j) →
  isComplete (assemble (slotFragments i stream1)) = true →
  isComplete (assemble (slotFragments j stream1)) = true →
  let first := assemble (slotFragments i stream1) in
  let second := assemble (slotFragments j stream1) in
  streamToolCalls stream1 = [first; second] ∧
  streamToolCalls stream2 = [first; second] ∧
  (acc_id first = lastId (slotFragments i stream1) ∧
   acc_name first = lastName (slotFragments i stream1) ∧
   acc_arguments first = concatArguments (slotFragments i stream1)) ∧
  (acc_id second = lastId (slotFragments j stream1) ∧
   acc_name second = lastName (slotFragments j stream1) ∧
   acc_arguments second = concatArguments (slotFragments j stream1)) ∧
  ∀ turnsLeft options tools activeMessages (w : W),
    let request := requestOf options tools activeMessages in
    failure (backend request) = None →
    chunks (backend request) = stream1 ∨ chunks (backend request) = stream2 →
    ∃ results rest w',
      loop (S turnsLeft) options tools activeMessages w =
        (andThen (yielded (roundOf (chunks (backend request)))
                    ++ [assistantMessage [toolUseBlock JSON_parse first;
                                          toolUseBlock JSON_parse second]]
                    ++ map toolResultEvent results)
                 request rest, w') ∧
      map out_id results = [acc_id first; acc_id second] ∧
      map out_name results = [acc_name first; acc_name second].
Proof.
  intros Hij Hsame Hslots Hi Hj first second.
  assert (streamToolCalls stream1 = [first; second]) as H1
    by by apply two_slot_toolCalls.
  assert (streamToolCalls stream2 = [first; second]) as H2
    by by rewrite <- (streamToolCalls_ext stream1 stream2).
  split; [done|]. split; [done|].
  split; [unfold first; by rewrite assemble_id, assemble_name, assemble_arguments|].
  split; [unfold second; by rewrite assemble_id, assemble_name, assemble_arguments|].
  intros turnsLeft options tools activeMessages w request Hok Hstream.
  subst request.
  assert (streamToolCalls (chunks (backend (requestOf options tools activeMessages)))
          = [first; second]) as Hcalls
    by by destruct Hstream as [-> | ->].
  rewrite (toolLoop_round_with_calls turnsLeft options tools activeMessages w Hok)
    by by rewrite Hcalls.
  rewrite Hcalls.
  destruct (ToolExecutorFacts.callOutputs_ids JSON_parse
              (ToolExecutor.new_Map
                 (ToolExecutor.getToolDefinitions TOOL_DEFINITIONS (allowedTools options)))
              (Build_ToolExecutionContext (cwd options))
              (map toToolCall [first; second]) w) as [Hids Hnames].
  destruct (outputsOf options [first; second] w) as [results w1]; simpl in *.
  match goal with |- context [loop turnsLeft options tools ?ms w1] =>
    destruct (loop turnsLeft options tools ms w1) as [rest w'']
  end.
  by exists results, rest, w''.
Qed.

(** C4.  [executeQuery] opens at most [maxTurns] rounds (20 when the option
    is absent; none when it is not positive).  With an API key configured and
    a backend every round of which ends with at least one finished tool call,
    the generator throws the budget error after exactly that many rounds and
    yields no result message, every message it yielded being an assistant
    message.  A round that ends with no finished tool call yields its text
    deltas and then the success result carrying their concatenation, and the
    generator returns. *)
Theorem tool_loop_turn_budget (options : ExecuteOptions) (w : W) :
  let budget := default 20 (maxTurns options) in
  let run := (query options w).1 in
  Z.of_nat (length (requests run)) <= Z.max 0 budget ∧
  (is_Some (truthyString apiKey) →
   (∀ request,
      failure (backend request) = None ∧
      streamToolCalls (chunks (backend request)) ≠ []) →
   outcome run = inl exceeded ∧
   Z.of_nat (length (requests run)) = Z.max 0 budget ∧
   ∀ e, e ∈ events run →
     msg_type e = "assistant"%string ∧ msg_type e ≠ "result"%string) ∧
  (∀ turnsLeft tools activeMessages (w0 : W),
     let request := requestOf options tools activeMessages in
     let stream := chunks (backend request) in
     failure (backend request) = None →
     streamToolCalls stream = [] →
     loop (S turnsLeft) options tools activeMessages w0 =
       ({| events := map textEvent (textDeltas stream)
                       ++ [successResult (foldl String.app EmptyString (textDeltas stream))];
           requests := [request];
           outcome := inr () |}, w0)).
Proof.
  intros budget run. split; [|split].
  - subst run. unfold executeQuery.
    destruct (truthyString apiKey); simpl; [|lia].
    pose proof (toolLoop_requests (Z.to_nat budget) options
                  (map name (ToolExecutor.getToolDefinitions TOOL_DEFINITIONS
                               (allowedTools options)))
                  (messages options) w) as Hle.
    fold budget. lia.
  - intros [key Hkey] Hbackend. subst run. unfold executeQuery. rewrite Hkey.
    destruct (toolLoop_exhausts (Z.to_nat budget) options
                (map name (ToolExecutor.getToolDefinitions TOOL_DEFINITIONS
                             (allowedTools options)))
                (messages options) w Hbackend) as (Hout & Hlen & Hev).
    fold budget. split; [done|]. split; [lia|].
    intros e He. specialize (Hev e He). split; [done|]. by rewrite Hev.
  - intros turnsLeft tools activeMessages w0 request stream Hok Hcalls.
    rewrite (toolLoop_round_without_calls turnsLeft options tools activeMessages w0 Hok Hcalls).
    fold request stream.
    by destruct (roundOf_text stream) as [-> ->].
Qed.

End ProviderFacts.

End OpenAIProviderFacts.

(** ** The agent service *)

Module AgentServiceFacts.

Import AgentService.

Section ServiceFacts.

Variable idOf : nat → string.
Variable timeOf : nat → string.
Variable readImageAsBase64 : string → option Image.
Variable isAbortError : Error → bool.
Variable provider : TurnInput → list ProviderMessage * option Error.
Variable checkEditIntent : string → string → option Error.

Local Abbreviation begin := (sendMessage_begin idOf timeOf readImageAsBase64).
Local Abbreviation send :=
  (sendMessage idOf timeOf readImageAsBase64 isAbortError provider checkEditIntent).
Local Abbreviation catch := (sendMessage_catch idOf timeOf isAbortError).
Local Abbreviation finish := (sendMessage_finish timeOf).
Local Abbreviation consumeStream := (consume idOf timeOf checkEditIntent).
Local Abbreviation enqueue := (addToQueue idOf timeOf).
Local Abbreviation drain :=
  (processNextInQueue idOf timeOf readImageAsBase64 isAbortError provider checkEditIntent).
Local Abbreviation runNext :=
  (runImmediate idOf timeOf readImageAsBase64 isAbortError provider checkEditIntent).

(** C1.  On a conversation whose running flag is set, [sendMessage] throws
    the error "Agent is already processing a message" and leaves the whole
    state as it was: no message is appended to the history, the session model
    is not changed, nothing is written to disk and nothing is emitted.  The
    guard sits in the first phase of the function, before any effect. *)
Theorem send_on_active_conversation_fails (args : SendArgs) (st : State) (session : Session) :
  sessions st !! sessionId args = Some session →
  isRunning session = true →
  send args st = (inl alreadyRunning, st) ∧
  begin args st = (inl alreadyRunning, st) ∧
  err_message alreadyRunning = "Agent is already processing a message"%string.
Proof.
  intros Hsession Hrunning.
  unfold sendMessage, sendMessage_begin. by rewrite Hsession, Hrunning.
Qed.

(** What [deleteSession] does to an existing conversation. *)
Lemma deleteSession_existing sid (st : State) md :
  loadMetadata st !! sid = Some md →
  deleteSession sid st =
    (true,
     {| sessions := delete sid (sessions st);
        sessionFiles := delete sid (sessionFiles st);
        queueFiles := queueFiles st;
        metadataFile := Some (delete sid (loadMetadata st));
        emitted := emitted st; immediates := immediates st;
        aborted := aborted st; ticks := ticks st |}).
Proof. intros Hmd. unfold deleteSession. by rewrite Hmd. Qed.

(** [deleteSession]: for an id with a metadata entry it returns [true],
    and afterwards the metadata file has no entry for the id, the transcript
    file is gone and the conversation is out of memory; for an id without a
    metadata entry it returns [false] and changes nothing. *)
Lemma deleteSession_spec sid (st : State) :
  match loadMetadata st !! sid with
  | Some _ =>
      ∃ st', deleteSession sid st = (true, st') ∧
             loadMetadata st' !! sid = None ∧
             sessionFiles st' !! sid = None ∧
             sessions st' !! sid = None
  | None => deleteSession sid st = (false, st)
  end.
Proof.
  destruct (loadMetadata st !! sid) as [md|] eqn:Hmd.
  - eexists. split; [by eapply deleteSession_existing|].
    simpl. unfold loadMetadata; simpl. by rewrite !lookup_delete_eq.
  - unfold deleteSession. by rewrite Hmd.
Qed.

(** [stopExecution] on a running conversation. *)
Lemma stopExecution_active sid (st : State) session controller :
  sessions st !! sid = Some session →
  abortController session = Some controller →
  stopExecution sid st =
    ({| ok := true; op_error := None |},
     updateSessionObject sid (setRunning false None) (abort controller st)).
Proof. intros Hsession Hcontroller. unfold stopExecution. by rewrite Hsession, Hcontroller. Qed.

(** C5, as the code has it.  When [stopExecution] is called while a turn is
    running, it calls [abort()] on the turn's controller, the conversation is
    idle at once, and [stopExecution] answers [{ success: true }].  The
    interrupted [sendMessage], whose stream then throws an error that
    [isAbortError] recognises, resolves to [{ success: false, aborted: true }];
    the history is left as it was, so no error-flagged message is appended,
    nothing is written to disk and no event, in particular no error event, is
    emitted. *)
Theorem stop_during_active_turn sid (st : State) session controller error :
  sessions st !! sid = Some session →
  isRunning session = true →
  abortController session = Some controller →
  isAbortError error = true →
  let stopped := stopExecution sid st in
  let interrupted := catch sid error stopped.2 in
  stopped.1 = {| ok := true; op_error := None |} ∧
  controller ∈ aborted stopped.2 ∧
  sessions stopped.2 !! sid = Some (setRunning false None session) ∧
  interrupted.1 =
    inr {| success := false; res_aborted := Some true; res_message := None |} ∧
  sessions interrupted.2 !! sid = Some (setRunning false None session) ∧
  messages (setRunning false None session) = messages session ∧
  sessionFiles interrupted.2 = sessionFiles st ∧
  emitted interrupted.2 = emitted st.
Proof.
  intros Hsession Hrunning Hcontroller Habort stopped interrupted.
  subst interrupted stopped.
  rewrite (stopExecution_active sid st session controller Hsession Hcontroller).
  unfold sendMessage_catch. rewrite Habort. simpl.
  rewrite !lookup_alter_eq, Hsession. simpl.
  split; [done|]. split; [|done].
  apply elem_of_union. left. by apply elem_of_singleton.
Qed.

(** *** Frame lemmas *)

Lemma quiet_refl (st : State) : quiet st st.
Proof.
  split; [|done..]. exists []. by rewrite app_nil_r.
Qed.

Lemma quiet_trans (st1 st2 st3 : State) : quiet st1 st2 → quiet st2 st3 → quiet st1 st3.
Proof.
  intros [(evs1 & He1 & Hq1) Hf1 Hs1] [(evs2 & He2 & Hq2) Hf2 Hs2]. split.
  - exists (evs1 ++ evs2). rewrite He2, He1, app_assoc. split; [done|].
    by apply Forall_app.
  - by rewrite Hf2.
  - intros s. by rewrite Hs2.
Qed.

Lemma steady_refl (st : State) : steady st st.
Proof. split; [apply quiet_refl|done..]. Qed.

Lemma steady_trans (st1 st2 st3 : State) : steady st1 st2 → steady st2 st3 → steady st1 st3.
Proof.
  intros [Hq1 Hi1 Hr1] [Hq2 Hi2 Hr2]. split.
  - by eapply quiet_trans.
  - by rewrite Hi2.
  - intros s. by rewrite Hr2.
Qed.

(** A change that touches neither the sessions, the queue files, the events
    nor the scheduled callbacks. *)
Lemma steady_same (st st' : State) :
  sessions st' = sessions st → queueFiles st' = queueFiles st →
  emitted st' = emitted st → immediates st' = immediates st →
  steady st st'.
Proof.
  intros Hs Hq He Hi. split; [split|..].
  - exists []. by rewrite app_nil_r.
  - done.
  - intros s. by rewrite Hs.
  - done.
  - intros s. by rewrite Hs.
Qed.

Lemma steady_tick (st : State) : steady st (tick st).2.
Proof. by apply steady_same. Qed.

Lemma steady_generateId (st : State) : steady st (generateId idOf st).2.
Proof. by apply steady_same. Qed.

Lemma steady_now (st : State) : steady st (now timeOf st).2.
Proof. by apply steady_same. Qed.

Lemma steady_updateSession sid updates (st : State) :
  steady st (updateSession timeOf sid updates st).
Proof.
  unfold updateSession. destruct (loadMetadata st !! sid); [|apply steady_refl].
  by apply steady_same.
Qed.

Lemma steady_saveSession sid ms (st : State) : steady st (saveSession timeOf sid ms st).
Proof.
  unfold saveSession, updateSessionTimestamp.
  destruct (loadMetadata _ !! sid); by apply steady_same.
Qed.

Lemma steady_emit sid event (st : State) :
  notQueueEvent (sid, event) → steady st (emitAgentEvent sid event st).
Proof.
  intros Hevent. split; [split|..]; try done.
  exists [(sid, event)]. split; [done|]. by apply Forall_singleton.
Qed.

(** A field update of a session object that keeps its queue and its running
    flag. *)
Lemma steady_updateSessionObject sid (f : Session → Session) (st : State) :
  (∀ s, promptQueue (f s) = promptQueue s) →
  (∀ s, isRunning (f s) = isRunning s) →
  steady st (updateSessionObject sid f st).
Proof.
  intros Hqueue Hrunning. split; [split|..]; simpl; try done.
  - exists []. by rewrite app_nil_r.
  - intros s. destruct (decide (sid = s)) as [->|Hne].
    + rewrite lookup_alter_eq. destruct (sessions st !! s); simpl; [|done].
      by rewrite Hqueue.
    + by rewrite lookup_alter_ne.
  - intros s. destruct (decide (sid = s)) as [->|Hne].
    + rewrite lookup_alter_eq. destruct (sessions st !! s); simpl; [|done].
      by rewrite Hrunning.
    + by rewrite lookup_alter_ne.
Qed.

Lemma quiet_updateSessionObject sid (f : Session → Session) (st : State) :
  (∀ s, promptQueue (f s) = promptQueue s) →
  quiet st (updateSessionObject sid f st).
Proof.
  intros Hqueue. split; simpl; try done.
  - exists []. by rewrite app_nil_r.
  - intros s. destruct (decide (sid = s)) as [->|Hne].
    + rewrite lookup_alter_eq. destruct (sessions st !! s); simpl; [|done].
      by rewrite Hqueue.
    + by rewrite lookup_alter_ne.
Qed.

Lemma quiet_setImmediate sid (st : State) : quiet st (setImmediate sid st).
Proof. split; simpl; try done. exists []. by rewrite app_nil_r. Qed.

Lemma steady_setAssistantContent sid target text (st : State) :
  steady st (setAssistantContent sid target text st).
Proof. by apply steady_updateSessionObject. Qed.

Lemma steady_onTextBlock sid workDir blockText turn (st : State) :
  steady st (onTextBlock idOf timeOf checkEditIntent sid workDir blockText turn st).2.
Proof.
  unfold onTextBlock.
  destruct (currentAssistantMessage turn) as [current|].
  - destruct (checkEditIntent _ _); simpl.
    + apply steady_setAssistantContent.
    + eapply steady_trans; [|by apply steady_emit]. apply steady_setAssistantContent.
  - destruct (generateId idOf st) as [newId sta] eqn:Hid.
    destruct (now timeOf sta) as [stamp stb] eqn:Hnow.
    assert (steady st stb) as Hstb.
    { eapply steady_trans.
      - pose proof (steady_generateId st) as H. by rewrite Hid in H.
      - pose proof (steady_now sta) as H. by rewrite Hnow in H. }
    destruct (checkEditIntent _ _); cbn [snd].
    + eapply steady_trans; [done|]. by apply steady_updateSessionObject.
    + eapply steady_trans; [done|].
      eapply steady_trans; [|by apply steady_emit]. by apply steady_updateSessionObject.
Qed.

Lemma steady_textPass sid workDir blocks turn (st : State) :
  steady st (textPass idOf timeOf checkEditIntent sid workDir blocks turn st).2.
Proof.
  revert turn st. induction blocks as [|block rest IH]; intros turn st; simpl.
  - apply steady_refl.
  - destruct block; try apply IH.
    pose proof (steady_onTextBlock sid workDir text turn st) as Hblock.
    destruct (onTextBlock _ _ _ _ _ _ _ _) as [[error|turn'] st']; simpl in *; [done|].
    eapply steady_trans; [done|apply IH].
Qed.

Lemma steady_toolUsePass sid blocks turn (st : State) :
  steady st (toolUsePass sid blocks turn st).2.
Proof.
  revert turn st. induction blocks as [|block rest IH]; intros turn st; simpl.
  - apply steady_refl.
  - destruct block; try apply IH.
    eapply steady_trans; [|apply IH]. by apply steady_emit.
Qed.

Lemma steady_onProviderMessage sid workDir msg turn (st : State) :
  steady st (onProviderMessage idOf timeOf checkEditIntent sid workDir msg turn st).2.
Proof.
  unfold onProviderMessage.
  match goal with |- context [textPass _ _ _ _ _ _ _ ?s1] => set (st1 := s1) end.
  assert (steady st st1) as Hst1.
  { subst st1.
    destruct (OpenAIProvider.truthyString (session_id msg)); [|apply steady_refl].
    destruct (sessions st !! sid) as [session|]; [|apply steady_refl].
    destruct (OpenAIProvider.truthyString (sdkSessionId session)); [apply steady_refl|].
    eapply steady_trans; [|apply steady_updateSession].
    by apply steady_updateSessionObject. }
  destruct (String.eqb (msg_type msg) "assistant").
  - destruct (msg_content msg) as [blocks|]; [|done].
    pose proof (steady_textPass sid workDir blocks turn st1) as Htext.
    destruct (textPass _ _ _ _ _ _ _ _) as [[error|turn'] st2]; simpl in *.
    + by eapply steady_trans.
    + pose proof (steady_toolUsePass sid blocks turn' st2) as Htool.
      destruct (toolUsePass _ _ _ _) as [turn'' st3]; simpl in *.
      eapply steady_trans; [done|]. by eapply steady_trans.
  - destruct (String.eqb (msg_type msg) "result"); [|done].
    match goal with |- context [let '(_, _) := ?m in _] => destruct m as [turn' st2] eqn:Hm end.
    simpl. eapply steady_trans; [apply Hst1|].
    eapply steady_trans; [|by apply steady_emit].
    destruct (subtype msg) as [sub|]; [|simplify_eq; apply steady_refl].
    destruct (OpenAIProvider.truthyString (result msg)) as [text|];
      [|simplify_eq; apply steady_refl].
    destruct (currentAssistantMessage turn) as [current|];
      [|simplify_eq; apply steady_refl].
    destruct (String.eqb sub "success"); simplify_eq;
      [apply steady_setAssistantContent|apply steady_refl].
Qed.

Lemma steady_consume sid workDir stream turn (st : State) :
  steady st (consumeStream sid workDir stream turn st).2.
Proof.
  revert turn st. induction stream as [|msg rest IH]; intros turn st; simpl.
  - apply steady_refl.
  - pose proof (steady_onProviderMessage sid workDir msg turn st) as Hmsg.
    destruct (onProviderMessage _ _ _ _ _ _ _ _) as [[error|turn'] st']; simpl in *; [done|].
    eapply steady_trans; [done|apply IH].
Qed.

Lemma quiet_finish sid turn (st : State) : quiet st (finish sid turn st).2.
Proof.
  unfold sendMessage_finish. simpl.
  eapply quiet_trans; [|apply quiet_setImmediate].
  eapply quiet_trans; [|by apply quiet_updateSessionObject].
  apply steady_quiet, steady_saveSession.
Qed.

Lemma quiet_catch sid error (st : State) : quiet st (catch sid error st).2.
Proof.
  unfold sendMessage_catch.
  destruct (isAbortError error); cbn [snd]; [by apply quiet_updateSessionObject|].
  set (st1 := updateSessionObject sid (setRunning false None) st).
  assert (quiet st st1) as H1 by by apply quiet_updateSessionObject.
  pose proof (steady_generateId st1) as Hid.
  destruct (generateId idOf st1) as [newId st2].
  pose proof (steady_now st2) as Hnow.
  destruct (now timeOf st2) as [stamp st3].
  cbn [snd] in *.
  eapply quiet_trans; [apply H1|].
  eapply quiet_trans; [apply steady_quiet, Hid|].
  eapply quiet_trans; [apply steady_quiet, Hnow|].
  eapply quiet_trans; [|apply steady_quiet; by apply steady_emit].
  eapply quiet_trans; [|apply steady_quiet, steady_saveSession].
  by apply quiet_updateSessionObject.
Qed.

(** *** Steps that only write files *)

Lemma diskOnly_refl (st : State) : diskOnly st st.
Proof. by split. Qed.

Lemma diskOnly_trans (st1 st2 st3 : State) :
  diskOnly st1 st2 → diskOnly st2 st3 → diskOnly st1 st3.
Proof. intros [] []. split; congruence. Qed.

Lemma diskOnly_generateId (st : State) : diskOnly st (generateId idOf st).2.
Proof. by split. Qed.

Lemma diskOnly_now (st : State) : diskOnly st (now timeOf st).2.
Proof. by split. Qed.

Lemma diskOnly_tick (st : State) : diskOnly st (tick st).2.
Proof. by split. Qed.

Lemma diskOnly_updateSession sid updates (st : State) :
  diskOnly st (updateSession timeOf sid updates st).
Proof. unfold updateSession. by destruct (loadMetadata st !! sid). Qed.

Lemma diskOnly_saveSession sid ms (st : State) : diskOnly st (saveSession timeOf sid ms st).
Proof. unfold saveSession, updateSessionTimestamp. by destruct (loadMetadata _ !! sid). Qed.

(** *** The first phase on an idle conversation *)

Lemma begin_idle (args : SendArgs) (st : State) session :
  sessions st !! sessionId args = Some session →
  isRunning session = false →
  ∃ turn userMessage st',
    begin args st = (inr turn, st') ∧
    m_role userMessage = "user"%string ∧
    m_content userMessage = message args ∧
    emitted st' =
      emitted st ++ [(sessionId args, Started); (sessionId args, MessageEvent userMessage)] ∧
    queueFiles st' = queueFiles st ∧
    immediates st' = immediates st ∧
    (∀ s, promptQueue <$> sessions st' !! s = promptQueue <$> sessions st !! s) ∧
    isRunning <$> sessions st' !! sessionId args = Some true ∧
    messages <$> sessions st' !! sessionId args = Some (messages session ++ [userMessage]).
Proof.
  intros Hsession Hrunning.
  unfold sendMessage_begin. rewrite Hsession, Hrunning.
  set (sid := sessionId args).
  match goal with |- context [generateId idOf ?s] => set (st1 := s) end.
  assert (∃ session1, sessions st1 !! sid = Some session1 ∧
            messages session1 = messages session ∧
            promptQueue session1 = promptQueue session ∧
            (∀ s, promptQueue <$> sessions st1 !! s = promptQueue <$> sessions st !! s) ∧
            emitted st1 = emitted st ∧ queueFiles st1 = queueFiles st ∧
            immediates st1 = immediates st) as (session1 & Hs1 & Hm1 & Hq1 & Hqs1 & He1 & Hf1 & Hi1).
  { subst st1. destruct (OpenAIProvider.truthyString (arg_model args)) as [m|].
    - destruct (diskOnly_updateSession sid (setMdModel m)
                  (updateSessionObject sid (setModel m) st)) as [-> -> -> -> _].
      exists (setModel m session). simpl. rewrite lookup_alter_eq. fold sid in Hsession.
      rewrite Hsession. split_and!; try done.
      apply (quiet_queue _ _ (quiet_updateSessionObject sid (setModel m) st (λ _, eq_refl))).
    - exists session. by split_and!. }
  destruct (diskOnly_generateId st1) as [Hs2 Hf2 He2 Hi2 _].
  destruct (generateId idOf st1) as [newId st2]. cbn [snd] in *.
  destruct (diskOnly_now st2) as [Hs3 Hf3 He3 Hi3 _].
  destruct (now timeOf st2) as [stamp st3]. cbn [snd] in *.
  destruct (diskOnly_tick st3) as [Hs4 Hf4 He4 Hi4 _].
  destruct (tick st3) as [controller st4]. cbn [snd] in *.
  cbv beta iota zeta.
  match goal with |- context [saveSession timeOf sid ?ms ?s7] =>
    destruct (diskOnly_saveSession sid ms s7) as [Hs8 Hf8 He8 Hi8 _]
  end.
  eexists _, _, _. split; [done|].
  rewrite Hs8, Hf8, He8, Hi8. simpl.
  rewrite Hs4, Hs3, Hs2, Hf4, Hf3, Hf2, He4, He3, He2, Hi4, Hi3, Hi2, He1, Hf1, Hi1.
  split_and!.
  3: by rewrite <- app_assoc.
  1-4: done.
  - intros s. rewrite <- Hqs1. destruct (decide (sid = s)) as [<-|Hne].
    + rewrite lookup_alter_eq, Hs1. done.
    + by rewrite lookup_alter_ne.
  - by rewrite lookup_alter_eq, Hs1.
  - rewrite lookup_alter_eq, Hs1. simpl. by rewrite Hm1.
Qed.

Lemma quiet_run (args : SendArgs) turn (st : State) :
  quiet st
    (sendMessage_run idOf timeOf isAbortError provider checkEditIntent args turn st).2.
Proof.
  unfold sendMessage_run.
  destruct (sessions st !! sessionId args) as [session|]; [|apply quiet_refl].
  match goal with |- context [consume _ _ _ ?sid ?wd ?msgs turn st] =>
    pose proof (steady_consume sid wd msgs turn st) as Hconsume;
    destruct (consume idOf timeOf checkEditIntent sid wd msgs turn st) as [[error|turn'] st']
  end; cbn [snd] in Hconsume.
  - eapply quiet_trans; [apply steady_quiet, Hconsume|apply quiet_catch].
  - destruct (provider _).2 as [error|].
    + eapply quiet_trans; [apply steady_quiet, Hconsume|apply quiet_catch].
    + eapply quiet_trans; [apply steady_quiet, Hconsume|apply quiet_finish].
Qed.

(** [sendMessage] on an idle conversation: the turn starts with the user
    message, and whatever follows leaves the queue alone. *)
Lemma send_idle (args : SendArgs) (st : State) session :
  sessions st !! sessionId args = Some session →
  isRunning session = false →
  ∃ userMessage evs,
    m_role userMessage = "user"%string ∧
    m_content userMessage = message args ∧
    emitted (send args st).2 =
      emitted st ++ [(sessionId args, Started); (sessionId args, MessageEvent userMessage)]
        ++ evs ∧
    Forall notQueueEvent evs ∧
    queueFiles (send args st).2 = queueFiles st ∧
    ∀ s, promptQueue <$> sessions (send args st).2 !! s = promptQueue <$> sessions st !! s.
Proof.
  intros Hsession Hrunning.
  destruct (begin_idle args st session Hsession Hrunning)
    as (turn & userMessage & st' & Hbegin & Hrole & Hcontent & Hemitted & Hfiles & _ & Hqueue & _).
  unfold sendMessage. rewrite Hbegin.
  destruct (quiet_run args turn st') as [(evs & Hevs & Hquiet) Hf Hq].
  exists userMessage, evs. split_and!; try done.
  - by rewrite Hevs, Hemitted, <- app_assoc.
  - by rewrite Hf.
  - intros s. by rewrite Hq.
Qed.

Lemma queueUpdates_app sid l1 l2 :
  queueUpdates sid (l1 ++ l2) = queueUpdates sid l1 ++ queueUpdates sid l2.
Proof. unfold queueUpdates. induction l1 as [|e l1 IH]; simpl; [done|].
  destruct (isQueueUpdated sid e); simpl; by rewrite IH. Qed.

Lemma queueUpdates_quiet sid evs : Forall notQueueEvent evs → queueUpdates sid evs = [].
Proof.
  unfold queueUpdates. induction 1 as [|[s e] evs He _ IH]; simpl; [done|].
  by destruct e.
Qed.

(** [addToQueue] on a registered conversation. *)
Lemma enqueue_spec sid prompt (st : State) session :
  sessions st !! sid = Some session →
  ∃ queued,
    (enqueue sid prompt st).1 = ({| ok := true; op_error := None |}, Some queued) ∧
    q_message queued = p_message prompt ∧
    q_imagePaths queued = p_imagePaths prompt ∧
    q_model queued = p_model prompt ∧
    sessions (enqueue sid prompt st).2 =
      alter (setPromptQueue (promptQueue session ++ [queued])) sid (sessions st) ∧
    queueFiles (enqueue sid prompt st).2 =
      <[sid := promptQueue session ++ [queued]]> (queueFiles st) ∧
    emitted (enqueue sid prompt st).2 =
      emitted st ++ [(sid, QueueUpdated (promptQueue session ++ [queued]))] ∧
    immediates (enqueue sid prompt st).2 = immediates st.
Proof.
  intros Hsession. unfold addToQueue. rewrite Hsession.
  destruct (diskOnly_generateId st) as [Hs1 Hf1 He1 Hi1 _].
  destruct (generateId idOf st) as [newId st1]. cbn [snd] in *.
  destruct (diskOnly_now st1) as [Hs2 Hf2 He2 Hi2 _].
  destruct (now timeOf st1) as [stamp st2]. cbn [snd] in *.
  eexists. simpl. rewrite Hs2, Hs1, Hf2, Hf1, He2, He1, Hi2, Hi1. by split_and!.
Qed.

(** The end of a turn: nothing is emitted, the conversation is idle and the
    drain is scheduled, not run. *)
Lemma finish_spec sid turn (st : State) :
  (finish sid turn st).1 =
    inr {| success := true; res_aborted := None;
           res_message := currentAssistantMessage turn |} ∧
  emitted (finish sid turn st).2 = emitted st ∧
  queueFiles (finish sid turn st).2 = queueFiles st ∧
  immediates (finish sid turn st).2 = immediates st ++ [sid] ∧
  sessions (finish sid turn st).2 = alter (setRunning false None) sid (sessions st).
Proof.
  unfold sendMessage_finish.
  destruct (diskOnly_saveSession sid (sessionMessages sid st) st) as [Hs Hf He Hi _].
  simpl. by rewrite Hs, Hf, He, Hi.
Qed.

(** [processNextInQueue] on an idle conversation with a waiting prompt. *)
Lemma drain_spec sid (st : State) session nextPrompt waiting :
  sessions st !! sid = Some session →
  promptQueue session = nextPrompt :: waiting →
  isRunning session = false →
  ∃ userMessage evs,
    m_role userMessage = "user"%string ∧
    m_content userMessage = q_message nextPrompt ∧
    emitted (drain sid st) =
      emitted st ++ [(sid, QueueUpdated waiting); (sid, Started);
                     (sid, MessageEvent userMessage)] ++ evs ∧
    Forall notQueueEvent evs ∧
    promptQueue <$> sessions (drain sid st) !! sid = Some waiting ∧
    queueFiles (drain sid st) !! sid = Some waiting.
Proof.
  intros Hsession Hqueue Hrunning.
  unfold processNextInQueue. rewrite Hsession, Hqueue, Hrunning.
  set (args := {| sessionId := sid; message := q_message nextPrompt;
                  arg_workingDirectory := None;
                  imagePaths := q_imagePaths nextPrompt;
                  arg_model := q_model nextPrompt |}).
  set (st3 := emitAgentEvent sid (QueueUpdated waiting) _).
  assert (sessions st3 !! sid = Some (setPromptQueue waiting session)) as Hs3.
  { subst st3. simpl. by rewrite lookup_alter_eq, Hsession. }
  destruct (send_idle args st3 _ Hs3 Hrunning)
    as (userMessage & evs & Hrole & Hcontent & Hemitted & Hevs & Hfiles & Hqueues).
  destruct (send args st3) as [[error|sent] st4]; cbn [snd] in *.
  - exists userMessage, (evs ++ [(sid, QueueError (err_message error) (q_id nextPrompt))]).
    simpl. rewrite Hemitted, Hfiles, Hqueues, Hs3. subst st3. simpl.
    rewrite lookup_insert_eq, <- !app_assoc. split_and!; try done.
    apply Forall_app. split; [done|]. by apply Forall_singleton.
  - exists userMessage, evs.
    rewrite Hemitted, Hfiles, Hqueues, Hs3. subst st3. simpl.
    rewrite lookup_insert_eq, <- !app_assoc. by split_and!.
Qed.

(** [processNextInQueue] returns at once on a running conversation and on an
    empty queue. *)
Lemma drain_skips sid (st : State) session :
  sessions st !! sid = Some session →
  isRunning session = true ∨ promptQueue session = [] →
  drain sid st = st.
Proof.
  intros Hsession Hskip. unfold processNextInQueue. rewrite Hsession.
  destruct (promptQueue session) as [|nextPrompt waiting]; [done|].
  destruct Hskip as [->|Hempty]; [done|discriminate Hempty].
Qed.


End ServiceFacts.

End AgentServiceFacts.

(** ** The properties at concrete inputs *)

Module Checks.

Import Examples.

(** The guard of [sendMessage] at a running conversation. *)
Lemma send_on_active_conversation_witness :
  AgentService.sessions busy !! AgentService.sessionId again = Some running ∧
  AgentService.isRunning running = true ∧
  AgentService.sendMessage idOf timeOf noImage isAbortError silentProvider noIntent again busy
    = (inl AgentService.alreadyRunning, busy).
Proof.
  assert (AgentService.sessions busy !! AgentService.sessionId again = Some running) as H1
    by reflexivity.
  assert (AgentService.isRunning running = true) as H2 by reflexivity.
  split; [exact H1|]. split; [exact H2|].
  exact (proj1 (AgentServiceFacts.send_on_active_conversation_fails
                  idOf timeOf noImage isAbortError silentProvider noIntent
                  again busy running H1 H2)).
Defined.

(** Stopping the running conversation of [busy]. *)
Lemma stop_during_active_turn_witness :
  AgentService.sessions busy !! "s1"%string = Some running ∧
  AgentService.isRunning running = true ∧
  AgentService.abortController running = Some 0%nat ∧
  isAbortError abortError = true ∧
  (AgentService.sendMessage_catch idOf timeOf isAbortError "s1" abortError
     (AgentService.stopExecution "s1" busy).2).1 =
    inr {| AgentService.success := false;
           AgentService.res_aborted := Some true;
           AgentService.res_message := None |}.
Proof.
  assert (AgentService.sessions busy !! "s1"%string = Some running) as H1 by reflexivity.
  split; [exact H1|]. split; [reflexivity|]. split; [reflexivity|]. split; [reflexivity|].
  exact (proj1 (proj2 (proj2 (proj2
           (AgentServiceFacts.stop_during_active_turn idOf timeOf isAbortError
              "s1" busy running 0%nat abortError H1 eq_refl eq_refl eq_refl))))).
Defined.

(** C5 as the specification words it does not hold: the interrupted
    [sendMessage] of [busy] does not resolve to [{ success: true, aborted:
    true }]. *)
Lemma stop_claimed_outcome_fails :
  let stopped := AgentService.stopExecution "s1" busy in
  let interrupted :=
    AgentService.sendMessage_catch idOf timeOf isAbortError "s1" abortError stopped.2 in
  ¬ (AgentService.isRunning <$> AgentService.sessions interrupted.2 !! "s1"%string
       = Some false ∧
     (∃ m, interrupted.1 =
             inr {| AgentService.success := true;
                    AgentService.res_aborted := Some true;
                    AgentService.res_message := m |}) ∧
     Forall (λ m, AgentService.isErrorFlagged m = false)
       (AgentService.sessionMessages "s1" interrupted.2)).
Proof.
  intros stopped interrupted (_ & [m Hm] & _).
  assert (interrupted.1 =
            inr {| AgentService.success := false;
                   AgentService.res_aborted := Some true;
                   AgentService.res_message := None |}) as Hactual by reflexivity.
  rewrite Hactual in Hm. discriminate Hm.
Qed.

(** C8 at a stored conversation with a waiting prompt: [deleteSession]
    returns [true]; the metadata entry, the transcript file and the
    conversation in memory are gone; the queue file is still there with the
    prompt in it. *)
Theorem deleteSession_leaves_queue_file :
  let deleted := AgentService.deleteSession "s1" stored in
  deleted.1 = true ∧
  AgentService.loadMetadata deleted.2 !! "s1"%string = None ∧
  AgentService.sessionFiles deleted.2 !! "s1"%string = None ∧
  AgentService.sessions deleted.2 !! "s1"%string = None ∧
  AgentService.queueFiles deleted.2 !! "s1"%string = Some [waiting].
Proof.
  intros deleted. subst deleted.
  rewrite (AgentServiceFacts.deleteSession_existing "s1" stored entry) by reflexivity.
  simpl. unfold AgentService.loadMetadata. simpl.
  rewrite !lookup_delete_eq. split_and!; try done.
Qed.

(** [deleteSession] never touches a queue file. *)
Lemma deleteSession_keeps_queue_files sid (st : AgentService.State) :
  AgentService.queueFiles (AgentService.deleteSession sid st).2 = AgentService.queueFiles st.
Proof.
  unfold AgentService.deleteSession.
  by destruct (AgentService.loadMetadata st !! sid).
Qed.

(** The edit of "foo bar foo" in /repo/notes.txt. *)
Lemma editTool_foo_bar_foo_witness :
  Json.getString (Some (JStr "notes.txt")) = Some "notes.txt"%string ∧
  allowAll (ToolRegistry.resolveInputPath isAbsolute resolve (cwd repo) "notes.txt") = true ∧
  ToolRegistry.files notes
    !! ToolRegistry.resolveInputPath isAbsolute resolve (cwd repo) "notes.txt"
    = Some "foo bar foo"%string ∧
  ToolRegistry.files
    (ToolRegistry.editTool isAbsolute resolve allowAll (editInput "notes.txt" true) repo notes).2
    !! "/repo/notes.txt"%string = Some "baz bar baz"%string ∧
  ToolRegistry.files
    (ToolRegistry.editTool isAbsolute resolve allowAll (editInput "notes.txt" false) repo notes).2
    !! "/repo/notes.txt"%string = Some "baz bar foo"%string.
Proof.
  assert (ToolRegistry.files notes
            !! ToolRegistry.resolveInputPath isAbsolute resolve (cwd repo) "notes.txt"
          = Some "foo bar foo"%string) as Hfile by reflexivity.
  split; [reflexivity|]. split; [reflexivity|]. split; [exact Hfile|].
  destruct (ToolRegistryFacts.editTool_foo_bar_foo isAbsolute resolve allowAll
              repo "notes.txt" notes eq_refl eq_refl Hfile) as [Hall Hfirst].
  rewrite Hall, Hfirst. split; reflexivity.
Defined.


(** The two example streams carry the same fragments slot by slot. *)
Lemma example_streams_agree slot :
  OpenAIProvider.slotFragments slot slotBySlot =
  OpenAIProvider.slotFragments slot interleaved.
Proof.
  destruct slot as [|[p|p|]|p]; reflexivity.
Defined.

Lemma example_streams_slots d :
  d ∈ OpenAIProvider.fragments slotBySlot →
  OpenAIProvider.slotOf d = 0 ∨ OpenAIProvider.slotOf d = 1.
Proof.
  unfold slotBySlot. simpl.
  intros Hd. repeat (apply elem_of_cons in Hd as [->|Hd]; [auto|]).
  by apply elem_of_nil in Hd.
Defined.

(** The accumulation of the two example streams: [Read] before [Glob],
    whichever slot was discovered first. *)
Lemma accumulation_witness :
  0 < 1 ∧
  (∀ slot, OpenAIProvider.slotFragments slot slotBySlot =
           OpenAIProvider.slotFragments slot interleaved) ∧
  (∀ d, d ∈ OpenAIProvider.fragments slotBySlot →
        OpenAIProvider.slotOf d = 0 ∨ OpenAIProvider.slotOf d = 1) ∧
  OpenAIProvider.isComplete
    (OpenAIProvider.assemble (OpenAIProvider.slotFragments 0 slotBySlot)) = true ∧
  OpenAIProvider.isComplete
    (OpenAIProvider.assemble (OpenAIProvider.slotFragments 1 slotBySlot)) = true ∧
  OpenAIProvider.streamToolCalls slotBySlot = OpenAIProvider.streamToolCalls interleaved ∧
  OpenAIProvider.streamToolCalls interleaved =
    [ {| OpenAIProvider.acc_id := "call_a"; OpenAIProvider.acc_name := "Read";
         OpenAIProvider.acc_arguments := "{}" |};
      {| OpenAIProvider.acc_id := "call_b"; OpenAIProvider.acc_name := "Glob";
         OpenAIProvider.acc_arguments := "{}" |} ].
Proof.
  split; [reflexivity|]. split; [exact example_streams_agree|].
  split; [exact example_streams_slots|]. split; [reflexivity|]. split; [reflexivity|].
  destruct (OpenAIProviderFacts.accumulation_is_interleaving_independent
              (W := unit) noParse [] greedyBackend slotBySlot interleaved 0 1
              eq_refl example_streams_agree example_streams_slots eq_refl eq_refl)
    as (H1 & H2 & _).
  split; [by rewrite H1, H2|]. by rewrite H2.
Defined.


(** With the greedy backend and a budget of two turns the loop sends two
    requests and throws. *)
Example greedy_backend_exhausts_budget :
  let run :=
    (OpenAIProvider.executeQuery (W := unit) noParse [] (Some "sk-test"%string)
       greedyBackend twoTurns ()).1 in
  OpenAIProvider.outcome run = inl OpenAIProvider.exceeded ∧
  length (OpenAIProvider.requests run) = 2%nat ∧
  map msg_type (OpenAIProvider.events run) =
    ["assistant"; "assistant"; "assistant"; "assistant"]%string.
Proof. vm_compute. by split_and!. Qed.

(** A walk of four files, one of them under [node_modules]: asked for one
    result at most, [Glob] still lists the three files outside
    [node_modules]. *)
Example glob_ignores_max_results :
  (ToolRegistry.globTool isAbsolute resolve resolve relative allowAll (λ _ _, true)
     (λ _, Some 1)
     (Some (JObj [("max_results"%string, JNum 1)])) repo tree).1 =
  inr (ToolRegistry.success
         ("a.md" +:+ Js.LF +:+ "b.md" +:+ Js.LF +:+ "docs/c.md")).
Proof. vm_compute. reflexivity. Qed.

End Checks.

(** ** Batches of tool calls *)

Module ToolBatchFacts.

Import ToolExecutor.

Section Batches.

Context {W : Type}.
Variable JSON_parse : string → Error + json.
Variable TOOL_DEFINITIONS : list (ToolDefinition W).

Local Abbreviation run := (executeToolCalls JSON_parse TOOL_DEFINITIONS).

Lemma callOutputs_app registry context calls1 calls2 (w : W) :
  callOutputs JSON_parse registry context (calls1 ++ calls2) w =
  let '(os1, w1) := callOutputs JSON_parse registry context calls1 w in
  let '(os2, w2) := callOutputs JSON_parse registry context calls2 w1 in
  (os1 ++ os2, w2).
Proof.
  revert w. induction calls1 as [|c rest IH]; intros w; simpl.
  - by destruct (callOutputs _ _ _ calls2 w).
  - destruct (callOutput _ _ _ c w) as [o w1]. rewrite IH.
    destruct (callOutputs _ _ _ rest w1) as [os1 w2].
    by destruct (callOutputs _ _ _ calls2 w2).
Qed.

(** X1.  A batch of calls is run call by call: running [calls1 ++ calls2]
    gives the results of [calls1] followed by those of [calls2], the second
    part run in the world the first part left. *)
Theorem executeToolCalls_app calls1 calls2 context allowedTools (w : W) :
  ∃ results1 w1 results2 w2,
    executeToolCalls JSON_parse TOOL_DEFINITIONS calls1 context allowedTools w
      = (inr results1, w1) ∧
    executeToolCalls JSON_parse TOOL_DEFINITIONS calls2 context allowedTools w1
      = (inr results2, w2) ∧
    executeToolCalls JSON_parse TOOL_DEFINITIONS (calls1 ++ calls2) context allowedTools w
      = (inr (results1 ++ results2), w2).
Proof.
  rewrite !ToolExecutorFacts.executeToolCalls_spec, callOutputs_app.
  destruct (callOutputs _ _ _ calls1 w) as [os1 w1] eqn:H1. simpl.
  exists os1, w1.
  rewrite ToolExecutorFacts.executeToolCalls_spec.
  destruct (callOutputs _ _ _ calls2 w1) as [os2 w2] eqn:H2. simpl.
  by exists os2, w2.
Qed.

Lemma filter_by_name_ext (tools : list (ToolDefinition W)) (names1 names2 : list string) :
  (∀ n, n ∈ map name tools → (n ∈ names1 ↔ n ∈ names2)) →
  filter (λ tool, name tool ∈ names1) tools = filter (λ tool, name tool ∈ names2) tools.
Proof.
  induction tools as [|tool rest IH]; intros Hsame; [done|].
  rewrite !filter_cons, IH by (intros n Hn; apply Hsame; simpl; by right).
  pose proof (Hsame (name tool) ltac:(simpl; by left)) as Htool.
  destruct (decide (name tool ∈ names1)) as [H1|H1],
           (decide (name tool ∈ names2)) as [H2|H2]; try done.
  - by apply Htool in H1.
  - by apply Htool in H2.
Qed.

(** X2.  An allowed-tools list is read as a set of catalog names: the
    tools offered are the catalog's tools whose name occurs in it, in catalog
    order.  So two lists that hold the same catalog names (whatever their
    order and repetitions, and whatever names of no catalog tool they hold
    besides) offer the same tools and run every batch alike; and with the
    empty list every call is answered "not available" and the world is left
    alone. *)
Theorem allowedTools_read_as_set calls context names1 names2 (w : W) :
  (∀ n, n ∈ map name TOOL_DEFINITIONS → (n ∈ names1 ↔ n ∈ names2)) →
  getToolDefinitions TOOL_DEFINITIONS (Some names1) =
    getToolDefinitions TOOL_DEFINITIONS (Some names2) ∧
  getToolDefinitions TOOL_DEFINITIONS (Some names1) `sublist_of` TOOL_DEFINITIONS ∧
  run calls context (Some names1) w = run calls context (Some names2) w ∧
  run calls context (Some []) w = (inr (map notAvailable calls), w).
Proof.
  intros Hsame.
  assert (getToolDefinitions TOOL_DEFINITIONS (Some names1) =
          getToolDefinitions TOOL_DEFINITIONS (Some names2)) as Hoffer
    by by apply filter_by_name_ext.
  split; [done|]. split; [|split].
  - unfold getToolDefinitions. apply sublist_filter.
  - unfold executeToolCalls. by rewrite Hoffer.
  - rewrite ToolExecutorFacts.executeToolCalls_spec.
    assert (getToolDefinitions TOOL_DEFINITIONS (Some []) = []) as ->.
    { unfold getToolDefinitions. simpl. clear.
      induction TOOL_DEFINITIONS as [|tool rest IH]; [done|].
      rewrite filter_cons. destruct (decide (name tool ∈ [])) as [H|_]; [|done].
      by apply elem_of_nil in H. }
    unfold new_Map. simpl.
    assert (∀ cs, callOutputs JSON_parse (∅ : gmap string (ToolDefinition W)) context cs w
                  = (map notAvailable cs, w)) as Hall.
    { induction cs as [|c cs IH]; simpl; [done|].
      unfold callOutput. rewrite lookup_empty. by rewrite IH. }
    by rewrite Hall.
Qed.

End Batches.

End ToolBatchFacts.

(** ** JavaScript strings: [split], [join], [indexOf] and [slice] *)

Module JsFacts.

Lemma app_empty_r (s : string) : s +:+ EmptyString = s.
Proof. induction s as [|c s IH]; [done|]. change (String c (s +:+ EmptyString) = String c s). by rewrite IH. Qed.

Lemma app_cons (c : ascii) (s t : string) : String c s +:+ t = String c (s +:+ t).
Proof. done. Qed.

Lemma app_assoc (s t u : string) : (s +:+ t) +:+ u = s +:+ t +:+ u.
Proof.
  induction s as [|c s IH]; [done|]. rewrite !app_cons. by rewrite IH.
Qed.

Lemma length_app (s t : string) :
  String.length (s +:+ t) = (String.length s + String.length t)%nat.
Proof. induction s as [|c s IH]; [done|]. rewrite app_cons. simpl. by rewrite IH. Qed.

Lemma rev_app_app (s t : string) : String.rev_app s t = String.rev s +:+ t.
Proof.
  unfold String.rev. revert t. induction s as [|c s IH]; intros t; [done|].
  simpl. rewrite (IH (String c t)), (IH (String c EmptyString)).
  by rewrite app_assoc.
Qed.

Lemma rev_cons (c : ascii) (s : string) :
  String.rev (String c s) = String.rev s +:+ String c EmptyString.
Proof. unfold String.rev at 1. simpl. by rewrite rev_app_app. Qed.

Lemma prefix_app (a b : string) : String.prefix a b = true → ∃ rest, b = a +:+ rest.
Proof.
  revert b. induction a as [|c a IH]; intros b Hp.
  - by exists b.
  - destruct b as [|d b]; [done|]. simpl in Hp.
    destruct (ascii_dec c d) as [->|]; [|done].
    destruct (IH b Hp) as [rest ->]. by exists rest.
Qed.

Lemma prefix_of_app (a rest : string) : String.prefix a (a +:+ rest) = true.
Proof.
  induction a as [|c a IH]; [by destruct rest|].
  rewrite app_cons. simpl. by destruct (ascii_dec c c).
Qed.

Lemma join_cons (sep p : string) (rest : list string) :
  rest ≠ [] → Js.join sep (p :: rest) = p +:+ sep +:+ Js.join sep rest.
Proof. by destruct rest. Qed.

Lemma split_go_nonempty sep skip cur s : Js.split_go sep skip cur s ≠ [].
Proof.
  revert skip cur. induction s as [|c s IH]; intros skip cur; cbn [Js.split_go]; [done|].
  destruct skip; [|apply IH].
  destruct (String.prefix sep (String c s)); [done|apply IH].
Qed.

(** Passing over the rest of a matched separator. *)
Lemma split_go_skip sep (t rest cur : string) :
  Js.split_go sep (String.length t) cur (t +:+ rest) = Js.split_go sep O cur rest.
Proof.
  induction t as [|c t IH]; [by destruct rest|].
  rewrite app_cons. simpl. apply IH.
Qed.

Lemma split_go_join sep (s cur : string) :
  sep ≠ EmptyString →
  Js.join sep (Js.split_go sep O cur s) = String.rev cur +:+ s.
Proof.
  intros Hsep.
  remember (String.length s) as n eqn:Hn.
  revert s cur Hn. induction (lt_wf n) as [n _ IH]. intros s cur Hn.
  destruct s as [|c s].
  - simpl. by rewrite app_empty_r.
  - cbn [Js.split_go].
    destruct (String.prefix sep (String c s)) eqn:Hp.
    + apply prefix_app in Hp as [rest Hrest].
      destruct sep as [|d sep']; [done|].
      rewrite app_cons in Hrest. injection Hrest as -> ->.
      replace (String.length (String d sep') - 1)%nat with (String.length sep')
        by (simpl; lia).
      rewrite split_go_skip.
      rewrite join_cons by apply split_go_nonempty.
      rewrite (IH (String.length rest)) with (cur := EmptyString); [|simpl in *|done].
      * change (String.rev EmptyString) with EmptyString. simpl. by rewrite ?app_assoc.
      * subst n. rewrite length_app. lia.
    + rewrite (IH (String.length s)); [|subst n; simpl; lia|done].
      rewrite rev_cons, app_assoc. done.
Qed.

(** [s.split(sep).join(sep)] is [s]. *)
Lemma split_join (sep s : string) :
  sep ≠ EmptyString → Js.join sep (Js.split sep s) = s.
Proof. intros Hsep. unfold Js.split. by rewrite split_go_join. Qed.

(** Where [indexOf] finds the separator. *)
Lemma indexOf_from_found sep s i0 i :
  0 <= i0 → Js.indexOf_from sep s i0 = i → i ≠ -1 →
  ∃ before after,
    s = before +:+ sep +:+ after ∧ i = i0 + Z.of_nat (String.length before).
Proof.
  revert i0. induction s as [|c s IH]; intros i0 Hi0 Hfound Hi.
  - cbn [Js.indexOf_from] in Hfound.
    destruct (String.prefix sep EmptyString) eqn:Hp; [|lia].
    apply prefix_app in Hp as [rest Hrest].
    exists EmptyString, rest. simpl. split; [done|lia].
  - cbn [Js.indexOf_from] in Hfound.
    destruct (String.prefix sep (String c s)) eqn:Hp.
    + apply prefix_app in Hp as [rest Hrest].
      exists EmptyString, rest. simpl. split; [done|lia].
    + destruct (IH (i0 + 1)) as (before & after & -> & ->); [lia|done|done|].
      exists (String c before), after. rewrite app_cons. split; [done|].
      simpl String.length. lia.
Qed.

Lemma substring_prefix (a b : string) :
  String.substring 0 (String.length a) (a +:+ b) = a.
Proof.
  induction a as [|c a IH]; [by destruct b|].
  rewrite app_cons. simpl. by rewrite IH.
Qed.

Lemma substring_all (s : string) : String.substring 0 (String.length s) s = s.
Proof. induction s as [|c s IH]; [done|]. simpl. by rewrite IH. Qed.

Lemma substring_skip (a b : string) n :
  String.substring (String.length a) n (a +:+ b) = String.substring 0 n b.
Proof. induction a as [|c a IH]; [done|]. rewrite app_cons. simpl. apply IH. Qed.

(** Cutting a string around the occurrence [indexOf] found and putting the
    separator back gives the string. *)
Lemma indexOf_slice (s sep : string) :
  Js.indexOf s sep ≠ -1 →
  Js.slice s 0 (Js.indexOf s sep) +:+ sep
    +:+ Js.slice_from s (Js.indexOf s sep + Z.of_nat (String.length sep)) = s.
Proof.
  intros Hfound.
  destruct (indexOf_from_found sep s 0 (Js.indexOf s sep)) as (before & after & Hs & Hi);
    [lia|done|done|].
  rewrite Hi. unfold Js.slice, Js.slice_from.
  replace (Z.to_nat 0) with O by done.
  replace (Z.to_nat (0 + Z.of_nat (String.length before) - 0)) with (String.length before)
    by lia.
  replace (Z.to_nat (0 + Z.of_nat (String.length before) + Z.of_nat (String.length sep)))
    with (String.length (before +:+ sep)) by (rewrite length_app; lia).
  rewrite Hs at 1 2 3.
  rewrite substring_prefix.
  rewrite <- (app_assoc before sep after), substring_skip.
  rewrite !length_app.
  replace (String.length before + String.length sep + String.length after
           - (String.length before + String.length sep))%nat
    with (String.length after) by lia.
  by rewrite substring_all.
Qed.

(** A string in which the separator occurs splits into two pieces at
    least. *)
Lemma split_go_found sep (before after cur : string) :
  sep ≠ EmptyString →
  (2 ≤ length (Js.split_go sep O cur (before +:+ sep +:+ after)))%nat.
Proof.
  intros Hsep. revert cur. induction before as [|c before IH]; intros cur.
  - destruct sep as [|d sep']; [done|].
    change (EmptyString +:+ String d sep' +:+ after) with (String d (sep' +:+ after)).
    cbn [Js.split_go].
    replace (String.prefix (String d sep') (String d (sep' +:+ after))) with true
      by (symmetry; apply (prefix_of_app (String d sep') after)).
    cbv beta iota.
    match goal with |- context [Js.split_go ?a ?b ?c ?d] =>
      pose proof (split_go_nonempty a b c d) as Hne; destruct (Js.split_go a b c d)
    end; [done|simpl; lia].
  - rewrite app_cons. cbn [Js.split_go].
    destruct (String.prefix sep _).
    + match goal with |- context [Js.split_go ?a ?b ?c ?d] =>
        pose proof (split_go_nonempty a b c d) as Hne; destruct (Js.split_go a b c d)
      end; [done|simpl; lia].
    + apply IH.
Qed.

Lemma split_found (s sep : string) :
  sep ≠ EmptyString → Js.indexOf s sep ≠ -1 → (2 ≤ length (Js.split sep s))%nat.
Proof.
  intros Hsep Hfound.
  destruct (indexOf_from_found sep s 0 (Js.indexOf s sep)) as (before & after & -> & _);
    [lia|done|done|].
  by apply split_go_found.
Qed.

End JsFacts.

(** ** The file tools *)

Module FileToolsFacts.

Import ToolRegistry FileTools.

Section FileFacts.

Variable path_isAbsolute : string → bool.
Variable path_resolve : string → string → string.
Variable path_dirname : string → string.
Variable isPathAllowed : string → bool.
Variable stringToNumber : string → option Z.

Local Abbreviation write := (writeTool path_isAbsolute path_resolve path_dirname isPathAllowed).
Local Abbreviation edit := (editTool path_isAbsolute path_resolve isPathAllowed).
Local Abbreviation read := (readTool path_isAbsolute path_resolve isPathAllowed stringToNumber).
Local Abbreviation resolve := (resolveInputPath path_isAbsolute path_resolve).
Local Abbreviation lineNumber := (FileTools.lineNumber stringToNumber).


Lemma applyEdits_early resolved edits updated total early :
  applyEdits resolved edits updated total = inl early → isError early = Some true.
Proof.
  revert updated total. induction edits as [|e rest IH]; intros updated total; simpl; [done|].
  destruct (applyEdit resolved e updated total) as [r|[updated' total']] eqn:Hedit.
  - intros [= <-]. unfold applyEdit in Hedit.
    destruct (Json.asObject (Some e)); [|by simplify_eq].
    destruct (Json.getString _); [|by simplify_eq].
    destruct (Json.toBoolean _).
    + destruct (_ =? 1); by simplify_eq.
    + destruct (_ =? -1); by simplify_eq.
  - apply IH.
Qed.

(** No file but [target] differs between [w] and [w'], and [target]
    differs only where the Path Guard allows it. *)
Local Abbreviation confinedTo target w w' :=
  (∀ p, files w' !! p ≠ files w !! p → isPathAllowed p = true ∧ Some p = target).

(** The path a file tool's input names, resolved against the working
    directory. *)
Local Abbreviation targetOf input context :=
  (resolve (cwd context) <$> (Json.asObject input ≫= coerceFilePath)).

(** X4.  [Write] and [Edit] return a result, never an exception, and can
    change the content of one file only: the one their input names, resolved
    against the working directory, and only where the Path Guard allows it.
    When the result is flagged as an error no file has changed; for an [Edit]
    carrying several edits this means that a failure of a later edit leaves
    the earlier ones unwritten. *)
Theorem write_and_edit_touch_only_their_target (input : option json)
    (context : ToolExecutionContext) (w : World) :
  (∃ result w',
     write input context w = (inr result, w') ∧
     (isError result = Some true → files w' = files w) ∧
     confinedTo (targetOf input context) w w') ∧
  (∃ result w',
     edit input context w = (inr result, w') ∧
     (isError result = Some true → files w' = files w) ∧
     confinedTo (targetOf input context) w w').
Proof.
  assert (∀ target, confinedTo target w w) as Hsame by (by intros target p Hp).
  split.
  - unfold writeTool.
    destruct (Json.asObject input) as [params|] eqn:Hin; [|by eexists _, _].
    destruct (coerceFilePath params) as [filePath|] eqn:Hpath; [|by eexists _, _].
    destruct (coerceText params) as [text|]; [|by eexists _, _].
    unfold bind, attempt, secureFs_mkdir, secureFs_writeFile, ret.
    destruct (isPathAllowed (path_dirname _)); [|by eexists _, _].
    destruct (isPathAllowed (resolve (cwd context) filePath)) eqn:Hallowed;
      [|by eexists _, _].
    eexists _, _. split; [done|]. split; [done|].
    simpl. rewrite Hpath. simpl. intros p Hp.
    destruct (decide (p = resolve (cwd context) filePath)) as [->|Hne]; [done|].
    by rewrite lookup_insert_ne in Hp.
  - unfold editTool.
    destruct (Json.asObject input) as [params|] eqn:Hin; [|by eexists _, _].
    destruct (coerceFilePath params) as [filePath|] eqn:Hpath; [|by eexists _, _].
    unfold bind, attempt, secureFs_readFile, secureFs_writeFile, ret.
    destruct (isPathAllowed (resolve (cwd context) filePath)) eqn:Hallowed;
      [|by eexists _, _].
    destruct (files w !! resolve (cwd context) filePath) as [original|];
      [|by eexists _, _].
    destruct (applyEdits _ _ original 0) as [early|[updated total]] eqn:Hedits.
    { apply applyEdits_early in Hedits. by eexists _, _. }
    destruct (String.eqb updated original); [by eexists _, _|].
    eexists _, _. split; [done|]. split; [done|].
    simpl. rewrite Hpath. simpl. intros p Hp.
    destruct (decide (p = resolve (cwd context) filePath)) as [->|Hne]; [done|].
    by rewrite lookup_insert_ne in Hp.
Qed.


End FileFacts.

End FileToolsFacts.

(** ** Walking a directory tree *)

Module WalkFacts.

Import ToolRegistry FileTools.

Section Walk.

Variable path_join : string → string → string.
Variable path_relative : string → string → string.

Local Abbreviation scan := (scanEntries path_join path_relative).
Local Abbreviation loop := (walkLoop path_join path_relative).
Local Abbreviation reached := (listed path_join path_relative).

(** Node's [path.join] never returns the empty string. *)
Hypothesis path_join_truthy : ∀ a b, Js.truthy (path_join a b) = true.

(** A stack entry is covered by [found] when every file listed from it is in
    [found]. *)
Local Abbreviation covered rootDir found :=
  (λ item : string * option (list Dirent),
     match item.2 with
     | Some entries => ∀ p, reached rootDir item.1 entries p → p ∈ found
     | None => True
     end).

(** Scanning a directory without the early return: the results and the
    stack only grow, the paths pushed are not empty, and every file listed
    from the entries scanned is among the results or listed from an entry
    pushed. *)
Lemma scanEntries_complete rootDir current maxResults entries results pending results'
    pending' :
  scan rootDir current maxResults entries results pending = inr (results', pending') →
  (∀ p, p ∈ results → p ∈ results') ∧
  (∃ pushed, pending' = pushed ++ pending ∧
     Forall (λ item, Js.truthy item.1 = true) pushed ∧
     ∀ found : list string,
       (∀ p, p ∈ results' → p ∈ found) → Forall (covered rootDir found) pushed →
       ∀ p, reached rootDir current entries p → p ∈ found).
Proof.
  revert results pending.
  induction entries as [|entry rest IH]; intros results pending Hscan; simpl in Hscan.
  - simplify_eq. split; [done|]. exists []. split; [done|]. split; [done|].
    intros found _ _ p Hp. inversion Hp as [? ? n Hin|? ? n sub ? Hin]; subst;
      by apply elem_of_nil in Hin.
  - destruct entry as [n|n listing|n].
    + destruct (_ >=? _); [done|].
      destruct (IH _ _ Hscan) as (Hres & pushed & -> & Htruthy & Hcover).
      split; [intros p Hp; apply Hres, elem_of_app; by left|].
      exists pushed. split; [done|]. split; [done|].
      intros found Hfound Hpushed p Hp.
      inversion Hp as [? ? m Hin|? ? m sub ? Hin Hignored Hsub]; subst.
      * apply elem_of_cons in Hin as [[= ->]|Hin].
        -- apply Hfound, Hres, elem_of_app. right. by apply list_elem_of_singleton.
        -- apply (Hcover found Hfound Hpushed). by constructor.
      * apply elem_of_cons in Hin as [?|Hin]; [done|].
        apply (Hcover found Hfound Hpushed). by eapply listed_dir.
    + case_bool_decide as Hignored.
      * destruct (IH _ _ Hscan) as (Hres & pushed & -> & Htruthy & Hcover).
        split; [done|]. exists pushed. split; [done|]. split; [done|].
        intros found Hfound Hpushed p Hp.
        inversion Hp as [? ? m Hin|? ? m sub ? Hin Hallowed Hsub]; subst.
        -- apply elem_of_cons in Hin as [?|Hin]; [done|].
           apply (Hcover found Hfound Hpushed). by constructor.
        -- apply elem_of_cons in Hin as [[= ? ?]|Hin]; [by subst|].
           apply (Hcover found Hfound Hpushed). by eapply listed_dir.
      * destruct (IH _ _ Hscan) as (Hres & pushed & Hpending & Htruthy & Hcover).
        split; [done|].
        exists (pushed ++ [(path_join current n, listing)]).
        split; [by rewrite <- app_assoc|].
        split; [apply Forall_app; split; [done|]; apply Forall_singleton, path_join_truthy|].
        intros found Hfound Hpushed p Hp.
        apply Forall_app in Hpushed as [Hpushed Hlast].
        apply (proj1 (Forall_singleton _ _)) in Hlast. simpl in Hlast.
        inversion Hp as [? ? m Hin|? ? m sub ? Hin Hallowed Hsub]; subst.
        -- apply elem_of_cons in Hin as [?|Hin]; [done|].
           apply (Hcover found Hfound Hpushed). by constructor.
        -- apply elem_of_cons in Hin as [[= ? ?]|Hin]; [subst; by apply Hlast|].
           apply (Hcover found Hfound Hpushed). by eapply listed_dir.
    + destruct (IH _ _ Hscan) as (Hres & pushed & -> & Htruthy & Hcover).
      split; [done|]. exists pushed. split; [done|]. split; [done|].
      intros found Hfound Hpushed p Hp.
      inversion Hp as [? ? m Hin|? ? m sub ? Hin Hallowed Hsub]; subst.
      * apply elem_of_cons in Hin as [?|Hin]; [done|].
        apply (Hcover found Hfound Hpushed). by constructor.
      * apply elem_of_cons in Hin as [?|Hin]; [done|].
        apply (Hcover found Hfound Hpushed). by eapply listed_dir.
Qed.

(** The early return hands back [maxResults] results at least. *)
Lemma scanEntries_early rootDir current maxResults entries results pending returned :
  scan rootDir current maxResults entries results pending = inl returned →
  maxResults <= Z.of_nat (length returned).
Proof.
  revert results pending.
  induction entries as [|entry rest IH]; intros results pending Hscan; simpl in Hscan; [done|].
  destruct entry as [n|n listing|n].
  - destruct (_ >=? _) eqn:Hge; [|by eapply IH].
    simplify_eq. rewrite Z.geb_leb in Hge. by apply Z.leb_le in Hge.
  - case_bool_decide; by eapply IH.
  - by eapply IH.
Qed.

(** A walk that ends below the cap has visited everything on its stack. *)
Lemma walkLoop_complete fuel rootDir maxResults results pending (found : list string) :
  Forall (λ item, Js.truthy item.1 = true) pending →
  loop fuel rootDir maxResults results pending = Some found →
  Z.of_nat (length found) < maxResults →
  (∀ p, p ∈ results → p ∈ found) ∧ Forall (covered rootDir found) pending.
Proof.
  revert results pending.
  induction fuel as [|fuel IH]; intros results pending Htruthy Hloop Hlen; [done|].
  simpl in Hloop. destruct pending as [|[current listing] pending'].
  { by simplify_eq. }
  apply Forall_cons in Htruthy as [Hcurrent Htruthy]. simpl in Hcurrent.
  rewrite Hcurrent in Hloop. simpl in Hloop.
  destruct listing as [entries|].
  - destruct (scan rootDir current maxResults entries results pending')
      as [returned|[results' pending'']] eqn:Hscan.
    { simplify_eq. apply scanEntries_early in Hscan. lia. }
    destruct (scanEntries_complete _ _ _ _ _ _ _ _ Hscan)
      as (Hres & pushed & -> & Hpushed & Hcover).
    destruct (IH results' (pushed ++ pending')) as [Hfound Hall]; [|done|done|].
    { by apply Forall_app. }
    apply Forall_app in Hall as [Hall1 Hall2].
    split; [by intros p Hp; apply Hfound, Hres|].
    apply Forall_cons. split; [|done].
    simpl. by apply Hcover.
  - destruct (IH results pending') as [Hfound Hall]; [done..|].
    split; [done|]. by apply Forall_cons.
Qed.

End Walk.

Section Glob.

Variable path_isAbsolute : string → bool.
Variable path_resolve : string → string → string.
Variable path_join : string → string → string.
Variable path_relative : string → string → string.
Variable isPathAllowed : string → bool.
Variable RegExp_test : string → string → bool.
Variable js_Number : json → option Z.

Local Abbreviation glob :=
  (globTool path_isAbsolute path_resolve path_join path_relative isPathAllowed
     RegExp_test js_Number).
Local Abbreviation walk := (walkDirectory path_join path_relative isPathAllowed).
Local Abbreviation root := (globRoot path_isAbsolute path_resolve).
Local Abbreviation reached := (listed path_join path_relative).

(** A walk always returns, and leaves the world alone. *)
Lemma walkDirectory_returns rootDir maxResults (w : World) :
  ∃ found,
    walk rootDir maxResults w = (inr found, w) ∧
    walkLoop path_join path_relative
      (S (pendingWeight [(rootDir, secureFs_readdir isPathAllowed rootDir w)]))
      rootDir maxResults [] [(rootDir, secureFs_readdir isPathAllowed rootDir w)]
    = Some found.
Proof.
  unfold walkDirectory.
  set (pending := [(rootDir, secureFs_readdir isPathAllowed rootDir w)]).
  destruct (ToolRegistryFacts.walkLoop_total path_join path_relative
              (S (pendingWeight pending)) rootDir maxResults [] pending)
    as [found Hfound]; [lia|].
  rewrite Hfound. by exists found.
Qed.


End Glob.

End WalkFacts.

(** ** Grep, Bash and line ranges *)

Module SearchFacts.

Import ToolRegistry FileTools.

Section Search.

Variable path_isAbsolute : string → bool.
Variable path_resolve : string → string → string.
Variable path_join : string → string → string.
Variable path_relative : string → string → string.
Variable isPathAllowed : string → bool.
Variable RegExp_test : string → string → bool.
Variable stringToNumber : string → option Z.
Variable RegExp_new : string → string → Error + (string → bool).
Variable toLowerCase : string → string.

Local Abbreviation grep :=
  (grepTool path_isAbsolute path_resolve path_join path_relative isPathAllowed RegExp_test
     stringToNumber RegExp_new toLowerCase).
Local Abbreviation queryOf := (grepQuery path_isAbsolute path_resolve stringToNumber).
Local Abbreviation walk := (walkDirectory path_join path_relative isPathAllowed).
Local Abbreviation read := (readTool path_isAbsolute path_resolve isPathAllowed stringToNumber).
Local Abbreviation resolve := (resolveInputPath path_isAbsolute path_resolve).
Local Abbreviation lineNumber := (FileTools.lineNumber stringToNumber).

Lemma scanLines_spec (hit : string → bool) relative maxResults (all : list string)
    (P : string → Prop) lines k matches :
  (∀ j line, lines !! j = Some line → all !! (k + j)%nat = Some line) →
  (∀ i line, all !! i = Some line → hit line = true →
     P (matchLine relative (Z.of_nat i) line)) →
  Forall P matches →
  Z.of_nat (length matches) < Z.max 1 maxResults →
  match scanLines hit relative maxResults (Z.of_nat k) lines matches with
  | inl early => Forall P early ∧ Z.of_nat (length early) <= Z.max 1 maxResults
  | inr later => Forall P later ∧ Z.of_nat (length later) < Z.max 1 maxResults
  end.
Proof.
  intros Hlines Hhit. revert k matches Hlines.
  induction lines as [|line rest IH]; intros k matches Hlines HP Hlen; simpl; [done|].
  set (matches' := if hit line then _ else matches).
  assert (Forall P matches' ∧ Z.of_nat (length matches') <= Z.of_nat (length matches) + 1)
    as [HP' Hlen'].
  { subst matches'. destruct (hit line) eqn:Hline.
    - split.
      + apply Forall_app. split; [done|]. apply Forall_singleton.
        apply Hhit; [|done]. specialize (Hlines O line eq_refl).
        by rewrite Nat.add_0_r in Hlines.
      + rewrite length_app. simpl. lia.
    - split; [done|lia]. }
  destruct (_ >=? _) eqn:Hge.
  - split; [done|lia].
  - rewrite Z.geb_leb in Hge. apply Z.leb_gt in Hge.
    replace (Z.of_nat k + 1) with (Z.of_nat (S k)) by lia.
    apply IH; [|done|lia].
    intros j l Hj. specialize (Hlines (S j) l Hj).
    by replace (S k + j)%nat with (k + S j)%nat by lia.
Qed.

Lemma scanFiles_spec (hit : string → bool) matcher root maxResults (P : string → Prop)
    found matches (w : World) :
  (∀ relative text i line,
     RegExp_test matcher relative = true →
     isPathAllowed (path_join root relative) = true →
     files w !! path_join root relative = Some text →
     splitLines text !! i = Some line →
     hit line = true →
     P (matchLine relative (Z.of_nat i) line)) →
  Forall P matches →
  Z.of_nat (length matches) < Z.max 1 maxResults →
  match scanFiles path_join isPathAllowed RegExp_test hit matcher root maxResults found
          matches w with
  | inl early => Forall P early ∧ Z.of_nat (length early) <= Z.max 1 maxResults
  | inr later => Forall P later ∧ Z.of_nat (length later) < Z.max 1 maxResults
  end.
Proof.
  intros Hhit. revert matches.
  induction found as [|relative rest IH]; intros matches HP Hlen; simpl; [done|].
  destruct (RegExp_test matcher relative) eqn:Htest; simpl; [|by apply IH].
  unfold secureFs_readFile.
  destruct (isPathAllowed (path_join root relative)) eqn:Hallowed; simpl; [|by apply IH].
  destruct (files w !! path_join root relative) as [text|] eqn:Hfile; simpl; [|by apply IH].
  pose proof (scanLines_spec hit relative maxResults (splitLines text) P (splitLines text)
                O matches (λ j l H, H)
                (λ i line Hi Hl, Hhit relative text i line Htest Hallowed Hfile Hi Hl)
                HP Hlen) as Hscan.
  change (Z.of_nat 0) with 0 in Hscan.
  destruct (scanLines hit relative maxResults 0 (splitLines text) matches)
    as [early|matches']; [done|].
  destruct Hscan. by apply IH.
Qed.


(** *** Line ranges *)

Lemma splitLines_nonempty s : splitLines s ≠ [].
Proof.
  destruct s as [|c s]; [done|]. cbn [splitLines].
  destruct (Ascii.eqb c NL); [done|].
  assert (match splitLines s with
          | line :: lines => String c line :: lines
          | [] => [String c EmptyString]
          end ≠ []) by by destruct (splitLines s).
  destruct (Ascii.eqb c CR); [|done].
  destruct s as [|c2 s2]; [done|]. by destruct (Ascii.eqb c2 NL).
Qed.

(** Joining the lines of a text without carriage returns gives the text. *)
Lemma splitLines_join s i :
  0 <= i → Js.indexOf_from (String CR EmptyString) s i = -1 →
  Js.join Js.LF (splitLines s) = s.
Proof.
  revert i. induction s as [|c s IH]; intros i Hi Hcr; [done|].
  cbn [Js.indexOf_from] in Hcr.
  destruct (String.prefix (String CR EmptyString) (String c s)) eqn:Hp; [lia|].
  assert (Ascii.eqb c CR = false) as Hc.
  { apply Ascii.eqb_neq. intros ->. simpl in Hp.
    destruct (ascii_dec CR CR); [|done]. by destruct s. }
  specialize (IH (i + 1) ltac:(lia) Hcr).
  cbn [splitLines]. rewrite Hc.
  destruct (Ascii.eqb c NL) eqn:Hnl.
  - apply Ascii.eqb_eq in Hnl as ->.
    rewrite JsFacts.join_cons by apply splitLines_nonempty. by rewrite IH.
  - pose proof (splitLines_nonempty s) as Hne.
    destruct (splitLines s) as [|line lines]; [done|].
    destruct lines as [|l ls]; simpl in *; by rewrite <- IH.
Qed.

Lemma Array_slice_all {A} (items : list A) :
  Array_slice items 0 (Z.of_nat (length items)) = items.
Proof.
  unfold Array_slice, relativeIndex.
  replace (Z.of_nat (length items) <? 0) with false by (symmetry; apply Z.ltb_ge; lia).
  simpl. rewrite Z.min_id, Z.min_l by lia.
  rewrite Z.sub_0_r, Nat2Z.id. simpl. by rewrite firstn_all.
Qed.


End Search.

Section Bash.

Variable path_isAbsolute : string → bool.
Variable path_resolve : string → string → string.
Variable isPathAllowed : string → bool.
Variable stringToNumber : string → option Z.

Local Abbreviation bash :=
  (bashTool path_isAbsolute path_resolve isPathAllowed stringToNumber).

(** X9.  [Bash] starts a command only in a working directory the Path
    Guard allows: what the tool returns and does to the world does not depend
    on what running a command in any other directory would do, and when the
    directory asked for ([cwd] resolved against the context's, or the
    context's own) is not allowed the answer is the error "Bash cwd is not
    allowed: <dir>", with the world untouched. *)
Theorem bash_runs_only_where_allowed
    (exec1 exec2 : string → string → Z → M World (string * string))
    (input : option json) (context : ToolExecutionContext) (w : World) :
  (∀ command dir timeout w0,
     isPathAllowed dir = true → exec1 command dir timeout w0 = exec2 command dir timeout w0) →
  bash exec1 input context w = bash exec2 input context w ∧
  ∀ params command,
    Json.asObject input = Some params →
    coerceCommand params = Some command →
    let dir :=
      match Json.getString (Json.prop params "cwd") with
      | Some requestedCwd =>
          resolveInputPath path_isAbsolute path_resolve (cwd context) requestedCwd
      | None => cwd context
      end in
    isPathAllowed dir = false →
    bash exec1 input context w =
      (inr (failure ("Bash cwd is not allowed: " +:+ dir)), w).
Proof.
  intros Hsame. split.
  - unfold bashTool.
    destruct (Json.asObject input) as [params|]; [|done].
    destruct (coerceCommand params) as [command|]; [|done].
    match goal with |- context [isPathAllowed ?d] => destruct (isPathAllowed d) eqn:Hallowed end;
      [|done].
    simpl. unfold bind, attempt. by rewrite Hsame.
  - intros params command Hin Hcommand dir Hdir.
    unfold bashTool. rewrite Hin, Hcommand. fold dir. by rewrite Hdir.
Qed.

End Bash.

End SearchFacts.

(** ** The reader of the event stream *)

Module SseStreamFacts.

Import SseStream.

(** A text without a line feed. *)
Local Abbreviation noLF s := (Js.indexOf s Js.LF = -1).

Lemma indexOf_LF_cons c s i :
  Js.indexOf_from Js.LF (String c s) i =
  if Ascii.eqb c "010" then i else Js.indexOf_from Js.LF s (i + 1).
Proof.
  cbn [Js.indexOf_from]. unfold Js.LF.
  change (String.prefix (String "010" EmptyString) (String c s))
    with (if ascii_dec "010" c then String.prefix EmptyString s else false).
  destruct (ascii_dec "010" c) as [<-|Hne].
  - replace (String.prefix EmptyString s) with true by by destruct s.
    by rewrite Ascii.eqb_refl.
  - replace (Ascii.eqb c "010") with false; [done|].
    symmetry. apply Ascii.eqb_neq. congruence.
Qed.

Lemma noLF_from s i :
  0 <= i → Js.indexOf_from Js.LF s i = -1 → ∀ j, Js.indexOf_from Js.LF s j = -1.
Proof.
  revert i. induction s as [|c s IH]; intros i Hi Hno j; [done|].
  rewrite indexOf_LF_cons in *.
  destruct (Ascii.eqb c "010"); [lia|]. apply (IH (i + 1)); [lia|done].
Qed.

Lemma indexOf_from_offset s i j :
  0 <= i → Js.indexOf_from Js.LF s i ≠ -1 →
  Js.indexOf_from Js.LF s j = Js.indexOf_from Js.LF s i - i + j.
Proof.
  revert i j. induction s as [|c s IH]; intros i j Hi Hfound; [done|].
  rewrite !indexOf_LF_cons in *.
  destruct (Ascii.eqb c "010"); [lia|].
  rewrite (IH (i + 1) (j + 1)); [lia|lia|done].
Qed.

Lemma noLF_cons c s : noLF (String c s) ↔ Ascii.eqb c "010" = false ∧ noLF s.
Proof.
  unfold Js.indexOf. rewrite indexOf_LF_cons.
  destruct (Ascii.eqb c "010"); split.
  - lia.
  - by intros [? _].
  - intros Hno. split; [done|]. by apply (noLF_from s 1).
  - intros [_ Hno]. by apply (noLF_from s 0).
Qed.

(** A text either holds no line feed, or splits at its first one. *)
Lemma LF_cases s :
  noLF s ∨
  ∃ before after,
    s = before +:+ Js.LF +:+ after ∧ noLF before ∧
    Js.indexOf s Js.LF = Z.of_nat (String.length before).
Proof.
  induction s as [|c s IH].
  - by left.
  - destruct (Ascii.eqb c "010") eqn:Hc.
    + right. apply Ascii.eqb_eq in Hc as ->.
      exists EmptyString, s. split; [done|]. split; [done|].
      unfold Js.indexOf. by rewrite indexOf_LF_cons.
    + destruct IH as [Hno|(before & after & -> & Hno & Hidx)].
      * left. by apply noLF_cons.
      * right. exists (String c before), after. split; [done|]. split.
        -- by apply noLF_cons.
        -- unfold Js.indexOf in *. rewrite indexOf_LF_cons, Hc.
           rewrite (indexOf_from_offset _ 0 1); [|lia|lia].
           rewrite Hidx. simpl String.length. lia.
Qed.

Lemma noLF_app a b : noLF a → noLF b → noLF (a +:+ b).
Proof.
  intros Ha Hb. induction a as [|c a IH]; [done|].
  rewrite JsFacts.app_cons. apply noLF_cons. apply noLF_cons in Ha as [Hc Ha].
  split; [done|]. by apply IH.
Qed.

(** Cutting a text at its first line feed. *)
Lemma cut_at_LF before after :
  Js.slice (before +:+ Js.LF +:+ after) 0 (Z.of_nat (String.length before)) = before ∧
  Js.slice_from (before +:+ Js.LF +:+ after) (Z.of_nat (String.length before) + 1) = after.
Proof.
  unfold Js.slice, Js.slice_from. split.
  - rewrite Z.sub_0_r, Nat2Z.id. apply JsFacts.substring_prefix.
  - replace (Z.to_nat (Z.of_nat (String.length before) + 1))
      with (String.length (before +:+ Js.LF)) by (rewrite JsFacts.length_app; simpl; lia).
    rewrite <- (JsFacts.app_assoc before Js.LF after), JsFacts.substring_skip.
    rewrite !JsFacts.length_app.
    replace (String.length before + String.length Js.LF + String.length after
             - (String.length before + String.length Js.LF))%nat
      with (String.length after) by lia.
    apply JsFacts.substring_all.
Qed.

(** *** Trimmed strings *)

Lemma rev_app (a b : string) : String.rev (a +:+ b) = String.rev b +:+ String.rev a.
Proof.
  induction a as [|c a IH].
  - by rewrite JsFacts.app_empty_r.
  - rewrite JsFacts.app_cons, !JsFacts.rev_cons, IH. by rewrite JsFacts.app_assoc.
Qed.

Lemma rev_involutive (s : string) : String.rev (String.rev s) = s.
Proof.
  induction s as [|c s IH]; [done|].
  by rewrite JsFacts.rev_cons, rev_app, IH.
Qed.

Lemma rev_length (s : string) : String.length (String.rev s) = String.length s.
Proof.
  induction s as [|c s IH]; [done|].
  rewrite JsFacts.rev_cons, JsFacts.length_app, IH. simpl. lia.
Qed.

Lemma trimStart_length s : (String.length (Js.trimStart s) ≤ String.length s)%nat.
Proof.
  induction s as [|c s IH]; [done|]. simpl.
  destruct (Ascii.is_space c); simpl; lia.
Qed.

Lemma trimStart_head s c r : Js.trimStart s = String c r → Ascii.is_space c = false.
Proof.
  induction s as [|d s IH]; [done|]. simpl.
  destruct (Ascii.is_space d) eqn:Hd; [done|]. by intros [= <- _].
Qed.

Lemma trimStart_fixed c r : Ascii.is_space c = false → Js.trimStart (String c r) = String c r.
Proof. intros Hc. simpl. by rewrite Hc. Qed.

(** A string that [trim] leaves alone neither starts nor ends with white
    space. *)
Lemma trimmed_ends p :
  Js.trim p = p →
  (∀ c r, p = String c r → Ascii.is_space c = false) ∧
  (∀ c r, String.rev p = String c r → Ascii.is_space c = false).
Proof.
  intros Htrim. unfold Js.trim in Htrim. split.
  - intros c r -> .
    destruct (Ascii.is_space c) eqn:Hc; [|done]. exfalso.
    assert (String.length (String c r) ≤ String.length r)%nat; [|simpl in *; lia].
    rewrite <- Htrim at 1. rewrite rev_length.
    etrans; [apply trimStart_length|]. rewrite rev_length.
    simpl. rewrite Hc. apply trimStart_length.
  - intros c r Hrev.
    rewrite <- Htrim, rev_involutive in Hrev. by eapply trimStart_head.
Qed.

Lemma trim_data p :
  Js.trim p = p → p ≠ EmptyString → Js.trim ("data: " +:+ p) = "data: " +:+ p.
Proof.
  intros Htrim Hne. destruct (trimmed_ends p Htrim) as [_ Hlast].
  unfold Js.trim.
  change (Js.trimStart ("data: " +:+ p)) with ("data: " +:+ p).
  rewrite rev_app.
  destruct (String.rev p) as [|c r] eqn:Hrev.
  { exfalso. apply Hne. by rewrite <- (rev_involutive p), Hrev. }
  rewrite JsFacts.app_cons, trimStart_fixed by by eapply Hlast.
  by rewrite <- JsFacts.app_cons, <- Hrev, <- rev_app, rev_involutive.
Qed.

Section Reader.

Variable JSON_parse : string → Error + json.

Local Abbreviation handle := (onLine JSON_parse).
Local Abbreviation drainLoop := (drainLines JSON_parse).
Local Abbreviation stream := (streamResponseChunks JSON_parse).

(** One iteration of the inner loop. *)
Lemma drainLines_noLF fuel buffer yielded :
  noLF buffer → drainLoop fuel buffer yielded = (yielded, buffer, false).
Proof. intros Hno. destruct fuel; [done|]. simpl. by rewrite Hno. Qed.

Lemma drainLines_line fuel before after yielded :
  noLF before →
  drainLoop (S fuel) (before +:+ Js.LF +:+ after) yielded =
  match handle (Js.trim before) with
  | Skip => drainLoop fuel after yielded
  | Yield parsed => drainLoop fuel after (yielded ++ [parsed])
  | Return => (yielded, after, true)
  end.
Proof.
  intros Hno. cbn [drainLines].
  destruct (LF_cases (before +:+ Js.LF +:+ after)) as [Habs|(b & a & Hs & Hb & Hidx)].
  - exfalso. clear -Habs. induction before as [|c before IH].
    + change (EmptyString +:+ Js.LF +:+ after) with (String "010" after) in Habs.
      by apply noLF_cons in Habs as [Hc _].
    + rewrite JsFacts.app_cons in Habs. apply noLF_cons in Habs as [_ Habs].
      by apply IH.
  - assert (b = before ∧ a = after) as [-> ->].
    { clear Hidx. revert b Hs Hb. induction before as [|c before IH]; intros b Hs Hb.
      - change (EmptyString +:+ Js.LF +:+ after) with (String "010" after) in Hs.
        destruct b as [|d b].
        + change (EmptyString +:+ Js.LF +:+ a) with (String "010" a) in Hs.
          by injection Hs as ->.
        + change (String d b +:+ Js.LF +:+ a) with (String d (b +:+ Js.LF +:+ a)) in Hs.
          injection Hs as <- _. by apply noLF_cons in Hb as [Hd _].
      - apply noLF_cons in Hno as [Hc Hno].
        change (String c before +:+ Js.LF +:+ after)
          with (String c (before +:+ Js.LF +:+ after)) in Hs.
        destruct b as [|d b].
        + change (EmptyString +:+ Js.LF +:+ a) with (String "010" a) in Hs.
          injection Hs as -> _. done.
        + change (String d b +:+ Js.LF +:+ a) with (String d (b +:+ Js.LF +:+ a)) in Hs.
          injection Hs as <- Hs.
          apply noLF_cons in Hb as [_ Hb].
          destruct (IH Hno b Hs Hb) as [-> ->]. done. }
    rewrite Hidx.
    replace (Z.of_nat (String.length before) >=? 0) with true
      by (symmetry; rewrite Z.geb_leb; apply Z.leb_le; lia).
    by destruct (cut_at_LF before after) as [-> ->].
Qed.

(** Fuel above the length of the buffer is never used up. *)
Lemma drainLines_fuel fuel1 fuel2 buffer yielded :
  (String.length buffer < fuel1)%nat → (String.length buffer < fuel2)%nat →
  drainLoop fuel1 buffer yielded = drainLoop fuel2 buffer yielded.
Proof.
  revert fuel2 buffer yielded.
  induction fuel1 as [|fuel1 IH]; intros fuel2 buffer yielded H1 H2; [lia|].
  destruct fuel2 as [|fuel2]; [lia|].
  destruct (LF_cases buffer) as [Hno|(before & after & -> & Hno & _)].
  - by rewrite !drainLines_noLF.
  - rewrite !drainLines_line by done.
    rewrite !JsFacts.length_app in H1, H2. simpl in H1, H2.
    destruct (handle (Js.trim before)); [|
      |done]; apply IH; lia.
Qed.

(** What the inner loop makes of a buffer it makes of the buffer followed
    by more text, up to the remainder it leaves. *)
Lemma drainLines_app fuel buffer more yielded :
  (String.length buffer < fuel)%nat →
  match drainLoop fuel buffer yielded with
  | (yielded', remains, true) =>
      ∀ fuel', (String.length (buffer +:+ more) < fuel')%nat →
        drainLoop fuel' (buffer +:+ more) yielded = (yielded', remains +:+ more, true)
  | (yielded', remains, false) =>
      noLF remains ∧ (String.length remains ≤ String.length buffer)%nat ∧
      ∀ fuel', (String.length (buffer +:+ more) < fuel')%nat →
        drainLoop fuel' (buffer +:+ more) yielded = drainLoop fuel' (remains +:+ more) yielded'
  end.
Proof.
  revert buffer yielded.
  induction fuel as [|fuel IH]; intros buffer yielded Hfuel; [lia|].
  destruct (LF_cases buffer) as [Hno|(before & after & -> & Hno & _)].
  - rewrite drainLines_noLF by done. by split_and!.
  - rewrite drainLines_line by done.
    rewrite !JsFacts.length_app in Hfuel. simpl in Hfuel.
    assert (∀ y,
              match drainLoop fuel after y with
              | (yielded', remains, true) =>
                  ∀ fuel', (String.length ((before +:+ Js.LF +:+ after) +:+ more) < fuel')%nat →
                    drainLoop (Nat.pred fuel') (after +:+ more) y
                      = (yielded', remains +:+ more, true)
              | (yielded', remains, false) =>
                  noLF remains ∧
                  (String.length remains ≤ String.length (before +:+ Js.LF +:+ after))%nat ∧
                  ∀ fuel', (String.length ((before +:+ Js.LF +:+ after) +:+ more) < fuel')%nat →
                    drainLoop (Nat.pred fuel') (after +:+ more) y
                      = drainLoop fuel' (remains +:+ more) yielded'
              end) as Hafter.
    { intros y. specialize (IH after y ltac:(lia)).
      destruct (drainLoop fuel after y) as [[yielded' remains] [|]].
      - intros fuel' Hfuel'. apply IH.
        rewrite !JsFacts.length_app in *. simpl in *. lia.
      - destruct IH as (Hleft & Hlen & IH). split; [done|].
        split; [rewrite !JsFacts.length_app; simpl; lia|].
        intros fuel' Hfuel'.
        rewrite !JsFacts.length_app in Hfuel'. simpl in Hfuel'.
        rewrite IH by (rewrite JsFacts.length_app; lia).
        apply drainLines_fuel; rewrite JsFacts.length_app; lia. }
    assert (∀ fuel', (String.length ((before +:+ Js.LF +:+ after) +:+ more) < fuel')%nat →
              drainLoop fuel' ((before +:+ Js.LF +:+ after) +:+ more) yielded =
              match handle (Js.trim before) with
              | Skip => drainLoop (Nat.pred fuel') (after +:+ more) yielded
              | Yield parsed => drainLoop (Nat.pred fuel') (after +:+ more) (yielded ++ [parsed])
              | Return => (yielded, after +:+ more, true)
              end) as Hstep.
    { intros fuel' Hfuel'. destruct fuel' as [|fuel']; [lia|].
      rewrite !JsFacts.app_assoc. by rewrite drainLines_line. }
    destruct (handle (Js.trim before)) as [|parsed|].
    + specialize (Hafter yielded).
      destruct (drainLoop fuel after yielded) as [[yielded' remains] [|]].
      * intros fuel' Hfuel'. rewrite Hstep by done. by apply Hafter.
      * destruct Hafter as (? & ? & Hafter). split_and!; [done..|].
        intros fuel' Hfuel'. rewrite Hstep by done. by apply Hafter.
    + specialize (Hafter (yielded ++ [parsed])).
      destruct (drainLoop fuel after (yielded ++ [parsed])) as [[yielded' remains] [|]].
      * intros fuel' Hfuel'. rewrite Hstep by done. by apply Hafter.
      * destruct Hafter as (? & ? & Hafter). split_and!; [done..|].
        intros fuel' Hfuel'. rewrite Hstep by done. by apply Hafter.
    + intros fuel' Hfuel'. by rewrite Hstep.
Qed.

(** The text a list of values amounts to. *)
Local Abbreviation textOf values := (foldr String.append EmptyString values).

(** Reading values one by one is draining their concatenation. *)
Lemma readChunks_text values buffer yielded :
  noLF buffer →
  readChunks JSON_parse values buffer yielded =
  (drainLoop (S (String.length (buffer +:+ textOf values))) (buffer +:+ textOf values)
     yielded).1.1.
Proof.
  revert buffer yielded. induction values as [|value rest IH]; intros buffer yielded Hno.
  - cbn [readChunks foldr]. rewrite JsFacts.app_empty_r. by rewrite drainLines_noLF.
  - cbn [readChunks foldr].
    pose proof (drainLines_app (S (String.length (buffer +:+ value))) (buffer +:+ value)
                  (textOf rest) yielded ltac:(lia)) as Happ.
    rewrite <- JsFacts.app_assoc.
    destruct (drainLoop (S (String.length (buffer +:+ value))) (buffer +:+ value) yielded)
      as [[yielded' remains] [|]].
    + by rewrite Happ by lia.
    + destruct Happ as (Hleft & Hlen & Happ).
      rewrite Happ by lia. rewrite IH by done.
      f_equal. f_equal. apply drainLines_fuel; rewrite !JsFacts.length_app in *; lia.
Qed.

Lemma stream_text values :
  stream values =
  (drainLoop (S (String.length (textOf values))) (textOf values) []).1.1.
Proof. unfold streamResponseChunks. by rewrite readChunks_text. Qed.

Lemma textOf_app values1 values2 :
  textOf (values1 ++ values2) = textOf values1 +:+ textOf values2.
Proof.
  induction values1 as [|v vs IH]; [done|].
  cbn [foldr app]. by rewrite JsFacts.app_assoc, IH.
Qed.

(** X10.  How the network cuts the event stream into pieces does not
    matter: the generator yields for a list of pieces what it yields for
    their concatenation delivered in one piece; and an unterminated last
    line is never parsed: a final piece without a line feed adds nothing. *)
Theorem chunking_does_not_matter (values : list string) (tail : string) :
  streamResponseChunks JSON_parse values = streamResponseChunks JSON_parse [textOf values] ∧
  (noLF tail →
   streamResponseChunks JSON_parse (values ++ [tail]) =
   streamResponseChunks JSON_parse values).
Proof.
  split.
  - rewrite !stream_text. cbn [foldr]. by rewrite JsFacts.app_empty_r.
  - intros Htail. rewrite !stream_text, textOf_app. cbn [foldr].
    rewrite JsFacts.app_empty_r.
    pose proof (drainLines_app (S (String.length (textOf values))) (textOf values) tail []
                  ltac:(lia)) as Happ.
    destruct (drainLoop (S (String.length (textOf values))) (textOf values) [])
      as [[yielded' remains] [|]].
    + by rewrite Happ by lia.
    + destruct Happ as (Hremains & Hlen & Happ). rewrite Happ by lia.
      by rewrite drainLines_noLF by by apply noLF_app.
Qed.

(** The result of [JSON.parse] when it returns. *)
Local Abbreviation parsed payload :=
  (match JSON_parse payload with inr v => Some v | inl _ => None end).

Lemma onLine_data p :
  Js.trim p = p → p ≠ EmptyString →
  handle (Js.trim ("data: " +:+ p)) =
  if String.eqb p "[DONE]" then Return
  else match JSON_parse p with inr v => Yield v | inl _ => Skip end.
Proof.
  intros Htrim Hne. rewrite trim_data by done.
  destruct (trimmed_ends p Htrim) as [Hfirst _].
  unfold onLine.
  change (Js.truthy ("data: " +:+ p)) with true.
  replace (String.prefix "data:" ("data: " +:+ p)) with true
    by (symmetry; apply (JsFacts.prefix_of_app "data:" (" " +:+ p))).
  cbn [negb orb].
  assert (Js.trimStart (Js.slice_from ("data: " +:+ p) 5) = p) as ->.
  { unfold Js.slice_from.
    change (Z.to_nat 5) with 5%nat.
    change (String.length ("data: " +:+ p) - 5)%nat with (String.length (" " +:+ p)).
    change ("data: " +:+ p) with ("data:" +:+ " " +:+ p).
    rewrite (JsFacts.substring_skip "data:" (" " +:+ p)), JsFacts.substring_all.
    destruct p as [|c r]; [done|].
    change (Js.trimStart (" " +:+ String c r)) with (Js.trimStart (String c r)).
    apply trimStart_fixed. by eapply Hfirst. }
  done.
Qed.

Lemma drainLines_dataLines payloads more yielded fuel :
  Forall (λ p, Js.trim p = p ∧ p ≠ EmptyString ∧ noLF p ∧ p ≠ "[DONE]"%string) payloads →
  (String.length (dataLines payloads +:+ more) < fuel)%nat →
  drainLoop fuel (dataLines payloads +:+ more) yielded =
  drainLoop fuel more (yielded ++ omap (λ p, parsed p) payloads).
Proof.
  intros Hwf. revert yielded fuel.
  induction Hwf as [|p ps (Htrim & Hne & Hno & Hdone) _ IH]; intros yielded fuel Hfuel.
  - simpl. by rewrite app_nil_r.
  - destruct fuel as [|fuel]; [lia|].
    cbn [dataLines foldr] in *. fold (dataLines ps) in *.
    replace (("data: " +:+ p +:+ Js.LF +:+ dataLines ps) +:+ more)
      with (("data: " +:+ p) +:+ Js.LF +:+ (dataLines ps +:+ more)) in *
      by by rewrite !JsFacts.app_assoc.
    rewrite drainLines_line by by apply (noLF_app "data: ").
    rewrite onLine_data by done.
    replace (String.eqb p "[DONE]") with false
      by (symmetry; by apply String.eqb_neq).
    rewrite !JsFacts.length_app in Hfuel. simpl in Hfuel.
    cbn [omap list_omap]. destruct (JSON_parse p) as [error|v].
    + rewrite IH by (rewrite JsFacts.length_app; lia).
      apply drainLines_fuel; lia.
    + rewrite IH by (rewrite JsFacts.length_app; lia).
      rewrite <- app_assoc. apply drainLines_fuel; lia.
Qed.


End Reader.

End SseStreamFacts.

(** ** Runs of the tool loop *)

Module ProviderRunFacts.

Import OpenAIProvider ProviderTrace.

Lemma blocksOf_app events1 events2 :
  blocksOf (events1 ++ events2) = blocksOf events1 ++ blocksOf events2.
Proof. unfold blocksOf. by rewrite map_app, concat_app. Qed.

Lemma toolUseIds_app events1 events2 :
  toolUseIds (events1 ++ events2) = toolUseIds events1 ++ toolUseIds events2.
Proof. unfold toolUseIds. by rewrite blocksOf_app, omap_app. Qed.

Lemma toolResultIds_app events1 events2 :
  toolResultIds (events1 ++ events2) = toolResultIds events1 ++ toolResultIds events2.
Proof. unfold toolResultIds. by rewrite blocksOf_app, omap_app. Qed.

Lemma toolUseIds_cons e events :
  toolUseIds (e :: events) = omap toolUseId (default [] (msg_content e)) ++ toolUseIds events.
Proof. unfold toolUseIds, blocksOf. cbn [map concat]. by rewrite omap_app. Qed.

Lemma toolResultIds_cons e events :
  toolResultIds (e :: events) =
  omap toolResultId (default [] (msg_content e)) ++ toolResultIds events.
Proof. unfold toolResultIds, blocksOf. cbn [map concat]. by rewrite omap_app. Qed.

(** The text deltas of a round carry no tool block. *)
Lemma yielded_no_tools stream :
  toolUseIds (yielded (roundOf stream)) = [] ∧ toolResultIds (yielded (roundOf stream)) = [].
Proof.
  destruct (OpenAIProviderFacts.roundOf_text stream) as [_ ->].
  induction (textDeltas stream) as [|t ts [IH1 IH2]]; [done|].
  cbn [map]. by rewrite toolUseIds_cons, toolResultIds_cons, IH1, IH2.
Qed.

Lemma toolResultIds_results results :
  toolResultIds (map toolResultEvent results) = map out_id results.
Proof.
  induction results as [|r rs IH]; [done|].
  cbn [map]. by rewrite toolResultIds_cons, IH.
Qed.

Lemma toolUseIds_results results : toolUseIds (map toolResultEvent results) = [].
Proof.
  induction results as [|r rs IH]; [done|].
  cbn [map]. by rewrite toolUseIds_cons, IH.
Qed.

Section Runs.

Context {W : Type}.
Variable JSON_parse : string → Error + json.
Variable TOOL_DEFINITIONS : list (ToolDefinition W).
Variable apiKey : option string.
Variable backend : Request → Response.

Local Abbreviation loop := (toolLoop JSON_parse TOOL_DEFINITIONS backend).
Local Abbreviation query := (executeQuery JSON_parse TOOL_DEFINITIONS apiKey backend).

Lemma toolUseIds_blocks calls :
  toolUseIds [assistantMessage (map (toolUseBlock JSON_parse) calls)] = map acc_id calls ∧
  toolResultIds [assistantMessage (map (toolUseBlock JSON_parse) calls)] = [].
Proof.
  rewrite toolUseIds_cons, toolResultIds_cons.
  change (toolUseIds []) with (@nil string). change (toolResultIds []) with (@nil string).
  rewrite !app_nil_r.
  change (default [] (msg_content (assistantMessage (map (toolUseBlock JSON_parse) calls))))
    with (map (toolUseBlock JSON_parse) calls).
  induction calls as [|c cs [IH1 IH2]]; [done|].
  cbn [map omap list_omap toolUseBlock toolUseId toolResultId] in *.
  by rewrite IH1, IH2.
Qed.

(** One round of the loop, with the executor's outputs written out. *)
Lemma toolLoop_step turnsLeft options tools activeMessages (w : W) :
  let request := requestOf options tools activeMessages in
  let round := roundOf (chunks (backend request)) in
  let toolCalls := toolCallsOf (toolCallAccumulators round) in
  let outputs :=
    ToolExecutor.callOutputs JSON_parse
      (ToolExecutor.new_Map
         (ToolExecutor.getToolDefinitions TOOL_DEFINITIONS (allowedTools options)))
      (Build_ToolExecutionContext (cwd options)) (map toToolCall toolCalls) w in
  let next :=
    (activeMessages ++
       [ {| role := "assistant";
            text := truthyString (Some (assistantText round));
            msg_tool_calls := Some (map toOpenAIToolCall toolCalls);
            tool_call_id := None |} ]) ++ map toolMessage outputs.1 in
  loop (S turnsLeft) options tools activeMessages w =
  match failure (backend request) with
  | Some error => ({| events := yielded round; requests := [request]; outcome := inl error |}, w)
  | None =>
      match toolCalls with
      | [] =>
          ({| events := yielded round ++ [successResult (assistantText round)];
              requests := [request]; outcome := inr () |}, w)
      | _ :: _ =>
          (andThen (yielded round
                      ++ [assistantMessage (map (toolUseBlock JSON_parse) toolCalls)]
                      ++ map toolResultEvent outputs.1)
                   request (loop turnsLeft options tools next outputs.2).1,
           (loop turnsLeft options tools next outputs.2).2)
      end
  end.
Proof.
  intros request round toolCalls outputs next.
  cbn [toolLoop]. fold request. fold round. fold toolCalls.
  destruct (failure (backend request)); [done|].
  destruct toolCalls as [|c cs] eqn:Hcalls; [done|].
  replace (Z.of_nat (length (c :: cs)) =? 0) with false
    by (symmetry; apply Z.eqb_neq; simpl; lia).
  rewrite ToolExecutorFacts.executeToolCalls_spec.
  fold outputs. fold next.
  by destruct (loop turnsLeft options tools next outputs.2).
Qed.

Lemma toolLoop_pairs turnsLeft options tools activeMessages (w : W) :
  let run := (loop turnsLeft options tools activeMessages w).1 in
  toolResultIds (events run) = toolUseIds (events run).
Proof.
  revert activeMessages w.
  induction turnsLeft as [|n IH]; intros activeMessages w; [done|].
  rewrite toolLoop_step.
  set (round := roundOf _).
  destruct (yielded_no_tools (chunks (backend (requestOf options tools activeMessages))))
    as [Huse Hres]. fold round in Huse, Hres.
  destruct (failure _); [simpl; by rewrite Huse, Hres|].
  destruct (toolCallsOf _) as [|c cs] eqn:Hcalls.
  { simpl. rewrite toolUseIds_app, toolResultIds_app, Huse, Hres. done. }
  cbn [fst andThen events].
  rewrite !toolUseIds_app, !toolResultIds_app, Huse, Hres.
  destruct (toolUseIds_blocks (c :: cs)) as [-> ->].
  rewrite toolResultIds_results, toolUseIds_results, IH.
  destruct (ToolExecutorFacts.callOutputs_ids JSON_parse
              (ToolExecutor.new_Map
                 (ToolExecutor.getToolDefinitions TOOL_DEFINITIONS (allowedTools options)))
              (Build_ToolExecutionContext (cwd options))
              (map toToolCall (c :: cs)) w) as [-> _].
  rewrite <- list_fmap_compose. simpl. by rewrite app_nil_r.
Qed.

(** X12.  Every tool use gets its result: in any run of [executeQuery],
    however it ends, the ids of the tool results yielded are the ids of the
    tool uses announced, in the same order and as often. *)
Theorem every_tool_use_gets_its_result (options : ExecuteOptions) (w : W) :
  let run := (query options w).1 in
  toolResultIds (events run) = toolUseIds (events run).
Proof.
  intros run. subst run. unfold executeQuery.
  destruct (truthyString apiKey); [|done]. apply toolLoop_pairs.
Qed.

Lemma toolLoop_result_last turnsLeft options tools activeMessages (w : W) :
  let run := (loop turnsLeft options tools activeMessages w).1 in
  ∃ before,
    Forall (λ e, msg_type e = "assistant"%string) before ∧
    match outcome run with
    | inr _ => ∃ text, events run = before ++ [successResult text]
    | inl _ => events run = before
    end.
Proof.
  revert activeMessages w.
  induction turnsLeft as [|n IH]; intros activeMessages w.
  { exists []. by split. }
  rewrite toolLoop_step.
  set (round := roundOf _).
  assert (Forall (λ e, msg_type e = "assistant"%string) (yielded round)) as Hyielded.
  { apply Forall_forall. intros e He. by eapply OpenAIProviderFacts.yielded_assistant. }
  destruct (failure _).
  { exists (yielded round). by split. }
  destruct (toolCallsOf _) as [|c cs] eqn:Hcalls.
  { exists (yielded round). split; [done|]. by eexists. }
  match goal with |- context [loop n options tools ?ms ?w'] =>
    destruct (IH ms w') as (before & Hbefore & Hrest);
    destruct (loop n options tools ms w') as [rest w'']
  end.
  cbn [fst andThen events outcome] in *.
  match goal with |- context [(yielded round ++ ?mid) ++ events rest] =>
    exists ((yielded round ++ mid) ++ before)
  end.
  split.
  - apply Forall_app. split; [|done]. apply Forall_app. split; [done|].
    apply Forall_cons. split; [done|].
    apply Forall_forall. intros e He.
    by apply list_elem_of_fmap in He as (r & -> & _).
  - destruct (outcome rest).
    + by rewrite Hrest.
    + destruct Hrest as [text ->]. exists text. by rewrite app_assoc.
Qed.

(** X13.  The result message ends the stream and only a run that returns
    has one: when [executeQuery] returns, what it yielded is assistant
    messages followed by exactly one success result, the last message; when
    it throws (no API key, a failing request, the budget of turns used up)
    it has yielded assistant messages only. *)
Theorem result_message_is_last_and_only_on_return (options : ExecuteOptions) (w : W) :
  let run := (query options w).1 in
  ∃ before,
    Forall (λ e, msg_type e = "assistant"%string) before ∧
    match outcome run with
    | inr _ => ∃ text, events run = before ++ [successResult text]
    | inl _ => events run = before
    end.
Proof.
  intros run. subst run. unfold executeQuery.
  destruct (truthyString apiKey); [|exists []; by split]. apply toolLoop_result_last.
Qed.

(** One request extends the one before it by the assistant's message with
    its tool calls and one tool message per call. *)
Local Abbreviation extends r1 r2 :=
  (∃ calls answers said,
     calls ≠ [] ∧
     req_messages r2 =
       req_messages r1 ++
       {| role := "assistant"; text := said; msg_tool_calls := Some calls;
          tool_call_id := None |} :: answers ∧
     map tool_call_id answers = map (λ c, Some (tc_id c)) calls ∧
     Forall (λ m, role m = "tool"%string) answers).

Lemma toolLoop_history turnsLeft options tools activeMessages (w : W) :
  let run := (loop turnsLeft options tools activeMessages w).1 in
  (∀ r, head (requests run) = Some r → r = requestOf options tools activeMessages) ∧
  (∀ r, r ∈ requests run →
     req_model r = model options ∧
     req_tools r = req_tools (requestOf options tools activeMessages)) ∧
  ∀ k r1 r2, requests run !! k = Some r1 → requests run !! S k = Some r2 → extends r1 r2.
Proof.
  revert activeMessages w.
  induction turnsLeft as [|n IH]; intros activeMessages w.
  { simpl. split_and!; [done| |done]. intros r Hr. by apply elem_of_nil in Hr. }
  rewrite toolLoop_step.
  destruct (failure _).
  { simpl. split_and!; [by intros r [= <-]| |done].
    by intros r ->%list_elem_of_singleton. }
  destruct (toolCallsOf _) as [|c cs] eqn:Hcalls.
  { simpl. split_and!; [by intros r [= <-]| |done].
    by intros r ->%list_elem_of_singleton. }
  match goal with |- context [map toolMessage ?o] => set (outs := o) in * end.
  assert (map out_id outs = map call_id (map toToolCall (c :: cs))) as Hids.
  { subst outs. apply ToolExecutorFacts.callOutputs_ids. }
  clearbody outs.
  match goal with |- context [loop n options tools ?ms ?w'] =>
    set (next := ms) in *; set (world := w') in *
  end.
  destruct (IH next world) as (Hhead & Hsame & Hchain).
  destruct (loop n options tools next world) as [rest w''].
  clearbody world.
  cbn [fst andThen requests] in *.
  split_and!.
  - by intros r [= <-].
  - intros r [->|Hr]%elem_of_cons; [done|]. by apply Hsame.
  - intros k r1 r2 H1 H2. destruct k as [|k]; [|by eapply Hchain].
    simpl in H1, H2. injection H1 as <-.
    assert (r2 = requestOf options tools next) as ->.
    { apply Hhead. by destruct (requests rest). }
    exists (map toOpenAIToolCall (c :: cs)), (map toolMessage outs),
      (truthyString (Some (assistantText
         (roundOf (chunks (backend (requestOf options tools activeMessages))))))).
    split; [done|]. split; [subst next; simpl; by rewrite <- app_assoc|]. split.
    + transitivity (map Some (map out_id outs)).
      { clear. induction outs as [|o os IH]; [done|]. simpl in *. by rewrite IH. }
      rewrite Hids. clear.
      induction (c :: cs) as [|x xs IH]; [done|]. simpl in *. by rewrite IH.
    + apply Forall_forall. intros m Hm.
      by apply list_elem_of_fmap in Hm as (r & -> & _).
Qed.

(** X14.  The conversation sent to the backend only grows.  The first
    request of a run carries the messages the options hold; every later
    request carries the messages of the one before it followed by the
    assistant's message with the tool calls of that round and then one tool
    message per call, in the order of the calls and each bearing the id of
    its call; the model and the tool list are the same in every request. *)
Theorem requests_extend_the_history (options : ExecuteOptions) (w : W) :
  let run := (query options w).1 in
  (∀ r, head (requests run) = Some r → req_messages r = messages options) ∧
  (∀ r1 r2, r1 ∈ requests run → r2 ∈ requests run →
     req_model r1 = model options ∧ req_tools r1 = req_tools r2) ∧
  ∀ k r1 r2, requests run !! k = Some r1 → requests run !! S k = Some r2 → extends r1 r2.
Proof.
  intros run. subst run. unfold executeQuery.
  destruct (truthyString apiKey).
  2: { simpl. split_and!; [done| |done]. intros r1 r2 Hr. by apply elem_of_nil in Hr. }
  match goal with |- context [loop ?n options ?tools ?ms w] =>
    destruct (toolLoop_history n options tools ms w) as (Hhead & Hsame & Hchain)
  end.
  split_and!.
  - intros r Hr. by rewrite (Hhead r Hr).
  - intros r1 r2 H1 H2. destruct (Hsame r1 H1) as [-> ->].
    by destruct (Hsame r2 H2) as [_ ->].
  - done.
Qed.

End Runs.

End ProviderRunFacts.

(** ** Sessions, their files and their queues *)

Module SessionStoreFacts.

Import AgentService SessionStore.

Lemma findIndex_Some promptId queue index :
  findIndex promptId queue = Some index →
  ∃ before target after,
    queue = before ++ target :: after ∧
    length before = index ∧
    q_id target = promptId ∧
    Forall (λ p, q_id p ≠ promptId) before ∧
    delete index queue = before ++ after.
Proof.
  revert index. induction queue as [|p rest IH]; intros index Hfind; [done|].
  simpl in Hfind. destruct (String.eqb (q_id p) promptId) eqn:Hp.
  - injection Hfind as <-. apply String.eqb_eq in Hp.
    by exists [], p, rest.
  - destruct (findIndex promptId rest) as [i|] eqn:Hrest; [|done].
    injection Hfind as <-.
    destruct (IH i eq_refl) as (before & target & after & -> & <- & Htarget & Hbefore & Hdel).
    exists (p :: before), target, after. split_and!; try done.
    + apply Forall_cons. split; [|done]. by apply String.eqb_neq.
    + simpl. by rewrite Hdel.
Qed.

Lemma findIndex_None promptId queue :
  findIndex promptId queue = None → Forall (λ p, q_id p ≠ promptId) queue.
Proof.
  induction queue as [|p rest IH]; [done|]. simpl.
  destruct (String.eqb (q_id p) promptId) eqn:Hp; [done|].
  destruct (findIndex promptId rest); [done|]. intros _.
  apply Forall_cons. split; [by apply String.eqb_neq|by apply IH].
Qed.

Lemma findIndex_last promptId queue target :
  Forall (λ p, q_id p ≠ promptId) queue → q_id target = promptId →
  findIndex promptId (queue ++ [target]) = Some (length queue).
Proof.
  intros Hqueue Htarget. induction Hqueue as [|p rest Hp _ IH]; simpl.
  - by rewrite Htarget, String.eqb_refl.
  - apply String.eqb_neq in Hp. by rewrite Hp, IH.
Qed.

Section Store.

Variable idOf : nat → string.
Variable timeOf : nat → string.
Variable readImageAsBase64 : string → option Image.
Variable isAbortError : Error → bool.
Variable provider : TurnInput → list ProviderMessage * option Error.
Variable checkEditIntent : string → string → option Error.
Variable process_cwd : string.
Variable path_resolve : string → string.
Variable validateWorkingDirectory : string → option Error.

Local Abbreviation send :=
  (sendMessage idOf timeOf readImageAsBase64 isAbortError provider checkEditIntent).
Local Abbreviation begin := (sendMessage_begin idOf timeOf readImageAsBase64).
Local Abbreviation run :=
  (sendMessage_run idOf timeOf isAbortError provider checkEditIntent).
Local Abbreviation catch := (sendMessage_catch idOf timeOf isAbortError).
Local Abbreviation finish := (sendMessage_finish timeOf).
Local Abbreviation consumeStream := (consume idOf timeOf checkEditIntent).
Local Abbreviation enqueue := (addToQueue idOf timeOf).
Local Abbreviation drain :=
  (processNextInQueue idOf timeOf readImageAsBase64 isAbortError provider checkEditIntent).
Local Abbreviation start :=
  (startConversation process_cwd path_resolve validateWorkingDirectory).
Local Abbreviation create :=
  (createSession idOf timeOf process_cwd path_resolve validateWorkingDirectory).
Local Abbreviation clearAll := (clearSession timeOf).

(** The queue of [sid] in memory, its queue file and the one event emitted
    all hold [queue]. *)
Local Abbreviation inStep sid st st' queue :=
  (promptQueue <$> sessions st' !! sid = Some queue%list ∧
   queueFiles st' !! sid = Some queue%list ∧
   emitted st' = app (emitted st) (cons (sid, QueueUpdated queue) nil)).

(** X15.  The queue file follows the queue in memory.  Each of
    [addToQueue], [removeFromQueue] and [clearQueue], when it answers with
    success, leaves the queue of the session in memory, the queue file of the
    session and the payload of the one [queue_updated] event it emits all
    equal; when it answers with a failure (no such session, no such prompt)
    it changes nothing and emits nothing. *)
Theorem queue_file_follows_the_queue (sid promptId : string) (prompt : PromptInput)
    (st : State) :
  (let r := enqueue sid prompt st in
   if ok r.1.1 then ∃ queue, inStep sid st r.2 queue else r.2 = st) ∧
  (let r := removeFromQueue sid promptId st in
   if ok r.1 then ∃ queue, inStep sid st r.2 queue else r.2 = st) ∧
  (let r := clearQueue sid st in
   if ok r.1 then inStep sid st r.2 [] else r.2 = st).
Proof.
  split_and!.
  - destruct (sessions st !! sid) as [session|] eqn:Hsession.
    + destruct (AgentServiceFacts.enqueue_spec idOf timeOf sid prompt st session Hsession)
        as (queued & Hres & _ & _ & _ & Hs & Hf & He & _).
      simpl. rewrite Hres. simpl. exists (promptQueue session ++ [queued]).
      rewrite Hs, Hf, He, lookup_alter_eq, lookup_insert_eq, Hsession. done.
    + unfold addToQueue. by rewrite Hsession.
  - unfold removeFromQueue.
    destruct (sessions st !! sid) as [session|] eqn:Hsession; [|done].
    destruct (findIndex promptId (promptQueue session)) as [index|]; [|done].
    simpl. eexists. rewrite lookup_alter_eq, lookup_insert_eq, Hsession. done.
  - unfold clearQueue.
    destruct (sessions st !! sid) as [session|] eqn:Hsession; [|done].
    simpl. rewrite lookup_alter_eq, lookup_insert_eq, Hsession. done.
Qed.

(** X16.  [removeFromQueue] takes out the first prompt that bears the id
    and keeps the others in their order; it fails with "Prompt not found in
    queue" exactly when no queued prompt bears the id.  So removing a prompt
    right after adding it, when its fresh id is borne by no prompt already
    queued, gives back the queue as it was, in memory and in the queue
    file. *)
Theorem removeFromQueue_takes_out_the_first_match (sid promptId : string)
    (prompt : PromptInput) (st : State) (session : Session) :
  sessions st !! sid = Some session →
  (let r := removeFromQueue sid promptId st in
   (ok r.1 = true ∧
    ∃ before target after,
      promptQueue session = before ++ target :: after ∧
      q_id target = promptId ∧
      Forall (λ p, q_id p ≠ promptId) before ∧
      promptQueue <$> sessions r.2 !! sid = Some (before ++ after)) ∨
   (r = ({| ok := false; op_error := Some "Prompt not found in queue"%string |}, st) ∧
    Forall (λ p, q_id p ≠ promptId) (promptQueue session))) ∧
  (Forall (λ p, q_id p ≠ idOf (ticks st)) (promptQueue session) →
   ∃ queued,
     (enqueue sid prompt st).1 = ({| ok := true; op_error := None |}, Some queued) ∧
     let r := removeFromQueue sid (q_id queued) (enqueue sid prompt st).2 in
     ok r.1 = true ∧
     promptQueue <$> sessions r.2 !! sid = Some (promptQueue session) ∧
     queueFiles r.2 !! sid = Some (promptQueue session)).
Proof.
  intros Hsession. split.
  - unfold removeFromQueue. rewrite Hsession.
    destruct (findIndex promptId (promptQueue session)) as [index|] eqn:Hfind.
    + left. split; [done|].
      destruct (findIndex_Some _ _ _ Hfind)
        as (before & target & after & Hqueue & _ & Htarget & Hbefore & Hdel).
      exists before, target, after. split_and!; try done.
      simpl. by rewrite lookup_alter_eq, Hsession, Hdel.
    + right. split; [done|]. by apply findIndex_None.
  - intros Hfresh. unfold addToQueue. rewrite Hsession. simpl.
    eexists. split; [done|]. simpl.
    unfold removeFromQueue. simpl. rewrite lookup_alter_eq, Hsession. simpl.
    rewrite findIndex_last by done. simpl.
    rewrite !lookup_alter_eq, Hsession, lookup_insert_eq. simpl.
    assert (delete (length (promptQueue session))
              (promptQueue session ++
               [{| q_id := idOf (ticks st); q_message := p_message prompt;
                   q_imagePaths := p_imagePaths prompt; q_model := p_model prompt;
                   q_addedAt := timeOf (S (ticks st)) |}]) = promptQueue session) as ->; [|done].
    clear. induction (promptQueue session) as [|p rest IH]; simpl; [done|].
    by rewrite IH.
Qed.

(** X17.  The queue is first in, first out.  On an idle session with
    prompts waiting, a prompt added joins the end of the queue, and the drain
    that follows starts a turn with the message of the prompt that was first
    in the queue, leaving the others, the new one last, in the queue and in
    the queue file. *)
Theorem queue_is_first_in_first_out (sid : string) (prompt : PromptInput) (st : State)
    (session : Session) (first : QueuedPrompt) (others : list QueuedPrompt) :
  sessions st !! sid = Some session →
  isRunning session = false →
  promptQueue session = first :: others →
  let added := enqueue sid prompt st in
  let drained := drain sid added.2 in
  ∃ queued userMessage events,
    added.1 = ({| ok := true; op_error := None |}, Some queued) ∧
    q_message queued = p_message prompt ∧
    promptQueue <$> sessions added.2 !! sid = Some (first :: others ++ [queued]) ∧
    m_content userMessage = q_message first ∧
    emitted drained =
      emitted added.2 ++ [(sid, QueueUpdated (others ++ [queued])); (sid, Started);
                          (sid, MessageEvent userMessage)] ++ events ∧
    promptQueue <$> sessions drained !! sid = Some (others ++ [queued]) ∧
    queueFiles drained !! sid = Some (others ++ [queued]).
Proof.
  intros Hsession Hidle Hqueue added drained.
  destruct (AgentServiceFacts.enqueue_spec idOf timeOf sid prompt st session Hsession)
    as (queued & Hres & Hmessage & _ & _ & Hs & _ & _ & _).
  fold added in Hres, Hs.
  assert (sessions added.2 !! sid
          = Some (setPromptQueue (promptQueue session ++ [queued]) session)) as Hadded.
  { by rewrite Hs, lookup_alter_eq, Hsession. }
  destruct (AgentServiceFacts.drain_spec idOf timeOf readImageAsBase64 isAbortError provider
              checkEditIntent sid added.2 _ first (others ++ [queued]) Hadded)
    as (userMessage & events & _ & Hcontent & Hemitted & _ & Hq & Hf).
  { simpl. by rewrite Hqueue. }
  { done. }
  fold drained in Hemitted, Hq, Hf.
  exists queued, userMessage, events. split_and!; try done.
  rewrite Hadded. simpl. by rewrite Hqueue.
Qed.

(** *** How a turn ends *)

Lemma saveSession_files sid ms (st : State) :
  sessionFiles (saveSession timeOf sid ms st) = <[sid := ms]> (sessionFiles st) ∧
  sessions (saveSession timeOf sid ms st) = sessions st ∧
  immediates (saveSession timeOf sid ms st) = immediates st ∧
  emitted (saveSession timeOf sid ms st) = emitted st ∧
  queueFiles (saveSession timeOf sid ms st) = queueFiles st ∧
  aborted (saveSession timeOf sid ms st) = aborted st.
Proof.
  unfold saveSession, updateSessionTimestamp.
  by destruct (loadMetadata _ !! sid).
Qed.

(** The end of the [try] block. *)
Lemma finish_files sid turn (st : State) session :
  sessions st !! sid = Some session →
  let r := finish sid turn st in
  r.1 = inr {| success := true; res_aborted := None;
               res_message := currentAssistantMessage turn |} ∧
  sessions r.2 !! sid = Some (setRunning false None session) ∧
  sessionFiles r.2 !! sid = Some (messages session) ∧
  immediates r.2 = immediates st ++ [sid] ∧
  emitted r.2 = emitted st.
Proof.
  intros Hsession r. subst r. unfold sendMessage_finish.
  destruct (saveSession_files sid (sessionMessages sid st) st) as (Hf & Hs & Hi & He & _).
  simpl. rewrite Hf, Hs, Hi, He, lookup_alter_eq, lookup_insert_eq, Hsession.
  unfold sessionMessages. by rewrite Hsession.
Qed.

(** The [catch] block, for an abort and for any other error. *)
Lemma catch_files sid error (st : State) session :
  sessions st !! sid = Some session →
  let r := catch sid error st in
  if isAbortError error then
    r = (inr {| success := false; res_aborted := Some true; res_message := None |},
         updateSessionObject sid (setRunning false None) st)
  else
    r.1 = inl error ∧
    ∃ errorMessage,
      m_role errorMessage = "assistant"%string ∧
      m_content errorMessage = "Error: " +:+ err_message error ∧
      m_isError errorMessage = Some true ∧
      sessions r.2 !! sid =
        Some (setMessages (messages session ++ [errorMessage])
                (setRunning false None session)) ∧
      sessionFiles r.2 !! sid = Some (messages session ++ [errorMessage]) ∧
      immediates r.2 = immediates st ∧
      emitted r.2 = emitted st ++ [(sid, ErrorEvent (err_message error) errorMessage)].
Proof.
  intros Hsession r. subst r. unfold sendMessage_catch.
  destruct (isAbortError error); [done|].
  unfold generateId, now, tick. cbn [fst snd].
  match goal with |- context [saveSession timeOf sid ?ms ?s] =>
    pose proof (saveSession_files sid ms s) as (Hf & Hs & Hi & He & _);
    set (st5 := saveSession timeOf sid ms s) in *
  end.
  cbn [fst snd]. split; [done|].
  match goal with |- context [ErrorEvent _ ?m] => exists m end.
  split_and!; [reflexivity|reflexivity|reflexivity| | | |].
  - cbn [emitAgentEvent sessions]. rewrite Hs. simpl.
    rewrite !lookup_alter_eq, Hsession. simpl. reflexivity.
  - cbn [emitAgentEvent sessionFiles]. rewrite Hf, lookup_insert_eq.
    unfold sessionMessages. simpl. by rewrite !lookup_alter_eq, Hsession.
  - cbn [emitAgentEvent immediates]. by rewrite Hi.
  - cbn [emitAgentEvent emitted]. by rewrite He.
Qed.

(** What the scheduler holds after a turn: one more drain when the turn
    succeeded, nothing more otherwise. *)
Local Abbreviation scheduledBy sid outcome :=
  (match outcome with
   | inr res => if success res then cons sid nil else nil
   | inl _ => nil
   end).

(** The end of a turn leaves one of three marks: the transcript saved
    after success, nothing after an abort, the error on record. *)
Local Abbreviation recorded sid st' outcome :=
  (match outcome with
   | inr res =>
       success res = true ∧ res_aborted res = None ∧
       sessionFiles st' !! sid%string = Some (sessionMessages sid%string st') ∨
       res = {| success := false; res_aborted := Some true; res_message := None |}
   | inl error =>
       isAbortError error = false ∧
       sessionFiles st' !! sid%string = Some (sessionMessages sid%string st') ∧
       ∃ earlier errorMessage,
         sessionMessages sid%string st' = app earlier (cons errorMessage nil) ∧
         m_role errorMessage = "assistant"%string ∧
         m_content errorMessage = "Error: " +:+ err_message error ∧
         m_isError errorMessage = Some true ∧
         last (emitted st') = Some (sid%string, ErrorEvent (err_message error) errorMessage)
   end).

Lemma run_ends (args : SendArgs) turn (st : State) session :
  sessions st !! sessionId args = Some session →
  let r := run args turn st in
  (∃ session', sessions r.2 !! sessionId args = Some session' ∧
               isRunning session' = false ∧ abortController session' = None) ∧
  immediates r.2 = immediates st ++ scheduledBy (sessionId args) r.1 ∧
  recorded (sessionId args) r.2 r.1.
Proof.
  intros Hsession r. subst r. unfold sendMessage_run. rewrite Hsession.
  set (sid := sessionId args) in *.
  match goal with |- context [consume _ _ _ sid ?wd ?msgs turn st] =>
    pose proof (AgentServiceFacts.steady_consume idOf timeOf checkEditIntent sid wd msgs
                  turn st) as [[_ _ Hq] Hi Hr];
    destruct (consume idOf timeOf checkEditIntent sid wd msgs turn st) as [outcome st']
  end.
  cbn [snd] in *.
  assert (∃ session1, sessions st' !! sid = Some session1) as [session1 Hsession1].
  { specialize (Hr sid). rewrite Hsession in Hr.
    destruct (sessions st' !! sid) as [s1|]; [by exists s1|done]. }
  assert (∀ error,
            let r := catch sid error st' in
            (∃ session', sessions r.2 !! sid = Some session' ∧
                         isRunning session' = false ∧ abortController session' = None) ∧
            immediates r.2 = immediates st ++ scheduledBy sid r.1 ∧
            recorded sid r.2 r.1) as Hcatch.
  { intros error.
    pose proof (catch_files sid error st' session1 Hsession1) as Hfiles.
    destruct (isAbortError error) eqn:Habort.
    - cbn zeta in Hfiles. rewrite Hfiles. cbn [fst snd success].
      split; [|split; [by rewrite app_nil_r|by right]].
      eexists. simpl. by rewrite lookup_alter_eq, Hsession1.
    - destruct Hfiles as (Hout & errorMessage & Hrole & Hcontent & Hflag & Hs & Hf & Him & He).
      cbn zeta. rewrite Hout. split; [by eexists|].
      split; [by rewrite Him, Hi, app_nil_r|].
      split; [done|]. unfold sessionMessages. rewrite Hs, Hf. split; [done|].
      exists (messages session1), errorMessage. split_and!; try done.
      by rewrite He, last_snoc. }
  destruct outcome as [error|turn']; [apply Hcatch|].
  destruct (provider _).2 as [error|]; [apply Hcatch|].
  destruct (finish_files sid turn' st' session1 Hsession1) as (Hout & Hs & Hf & Him & He).
  rewrite Hout. cbn [success]. split; [by eexists|].
  split; [by rewrite Him, Hi|].
  left. split; [done|]. split; [done|]. unfold sessionMessages. by rewrite Hs, Hf.
Qed.

(** X18.  A turn always ends with the session idle.  On an idle session
    [sendMessage] leaves, however the turn ends (by success, by an abort, by
    an error, which it rethrows), the running flag cleared and the abort
    controller dropped; it schedules the drain of the queue exactly when it
    answers with success, so after an abort or an error queued prompts stay
    queued until a later turn succeeds. *)
Theorem turn_always_ends_idle (args : SendArgs) (st : State) (session : Session) :
  sessions st !! sessionId args = Some session →
  isRunning session = false →
  let r := send args st in
  (∃ session', sessions r.2 !! sessionId args = Some session' ∧
               isRunning session' = false ∧ abortController session' = None) ∧
  immediates r.2 = immediates st ++ scheduledBy (sessionId args) r.1 ∧
  ∀ s, promptQueue <$> sessions r.2 !! s = promptQueue <$> sessions st !! s.
Proof.
  intros Hsession Hidle r.
  destruct (AgentServiceFacts.send_idle idOf timeOf readImageAsBase64 isAbortError provider
              checkEditIntent args st session Hsession Hidle)
    as (? & ? & _ & _ & _ & _ & _ & Hqueue).
  split_and!; [| |exact Hqueue]; subst r.
  all: destruct (AgentServiceFacts.begin_idle idOf timeOf readImageAsBase64 args st session
                   Hsession Hidle)
         as (turn & userMessage & st' & Hbegin & _ & _ & _ & _ & Him & _ & Hrun & _).
  all: unfold sendMessage; rewrite Hbegin.
  all: destruct (sessions st' !! sessionId args) as [session1|] eqn:Hsession1; [|done].
  all: destruct (run_ends args turn st' session1 Hsession1) as (Hidle' & Hsched & _).
  - done.
  - by rewrite Hsched, Him.
Qed.

(** X19.  What a turn leaves on disk.  On an idle session, when
    [sendMessage] answers with success the transcript file holds exactly the
    messages the session has in memory; when it rethrows an error (never an
    abort error) the transcript file again holds what memory holds, whose
    last message is the error on record: an assistant message flagged
    [isError] reading "Error: <message>", also carried by the [error] event,
    the last event emitted.  Only after an abort, answered with
    [{ success: false, aborted: true }], is nothing saved at the end. *)
Theorem ended_turn_is_on_disk (args : SendArgs) (st : State) (session : Session) :
  sessions st !! sessionId args = Some session →
  isRunning session = false →
  let r := send args st in
  recorded (sessionId args) r.2 r.1.
Proof.
  intros Hsession Hidle r. subst r.
  destruct (AgentServiceFacts.begin_idle idOf timeOf readImageAsBase64 args st session
              Hsession Hidle)
    as (turn & userMessage & st' & Hbegin & _ & _ & _ & _ & Him & _ & Hrun & _).
  unfold sendMessage. rewrite Hbegin.
  destruct (sessions st' !! sessionId args) as [session1|] eqn:Hsession1; [|done].
  by destruct (run_ends args turn st' session1 Hsession1) as (_ & _ & Hrec).
Qed.

(** *** Restarting the server *)

(** The working directory [startConversation] validates. *)
Local Abbreviation startDirectory workingDirectory :=
  (path_resolve (default process_cwd (OpenAIProvider.truthyString workingDirectory))).

Lemma start_after_restart sid workingDirectory (st : State) :
  validateWorkingDirectory (startDirectory workingDirectory) = None →
  let r := start sid workingDirectory (restarted st) in
  r.1 = inr {| start_success := true; start_messages := loadSession sid st;
               start_sessionId := sid |} ∧
  getHistory sid r.2 =
    {| h_success := true; h_error := None; h_messages := Some (loadSession sid st);
       h_isRunning := Some false |} ∧
  getQueue sid r.2 =
    {| qr_success := true; qr_queue := Some (loadQueueState sid st); qr_error := None |}.
Proof.
  intros Hvalid. unfold startConversation, getHistory, getQueue.
  cbn [restarted sessions]. rewrite lookup_empty. cbv zeta. rewrite Hvalid.
  cbn [fst snd withSessions sessions]. by rewrite lookup_insert_eq.
Qed.

Lemma queue_after_restart sid workingDirectory (st : State) queue :
  validateWorkingDirectory (startDirectory workingDirectory) = None →
  promptQueue <$> sessions st !! sid = Some queue →
  queueFiles st !! sid = Some queue →
  getQueue sid (start sid workingDirectory (restarted st)).2 = getQueue sid st.
Proof.
  intros Hvalid Hmemory Hfile.
  destruct (start_after_restart sid workingDirectory st Hvalid) as (_ & _ & ->).
  unfold getQueue, loadQueueState. rewrite Hfile.
  destruct (sessions st !! sid) as [session|]; [|done].
  by injection Hmemory as ->.
Qed.

(** X20.  Queues and transcripts survive a restart.  Let the server
    restart (nothing left in memory, the files as they were) and the
    conversation be started again with a working directory that passes
    validation.  Then after a successful [addToQueue], [removeFromQueue] or
    [clearQueue], [getQueue] answers after the restart what it answered
    before; and after a turn of [sendMessage] on an idle session that did not
    end by an abort, [startConversation] returns exactly the messages the
    session had in memory, and [getHistory] shows them with the session not
    running. *)
Theorem restart_restores_queue_and_transcript (sid : string)
    (workingDirectory : option string) (st : State) :
  validateWorkingDirectory (startDirectory workingDirectory) = None →
  let again st' := (start sid workingDirectory (restarted st')) in
  (∀ prompt, let r := enqueue sid prompt st in
     ok r.1.1 = true → getQueue sid (again r.2).2 = getQueue sid r.2) ∧
  (∀ promptId, let r := removeFromQueue sid promptId st in
     ok r.1 = true → getQueue sid (again r.2).2 = getQueue sid r.2) ∧
  (let r := clearQueue sid st in
   ok r.1 = true → getQueue sid (again r.2).2 = getQueue sid r.2) ∧
  (∀ args session,
     sessionId args = sid → sessions st !! sid = Some session → isRunning session = false →
     let r := send args st in
     r.1 ≠ inr {| success := false; res_aborted := Some true; res_message := None |} →
     (again r.2).1 =
       inr {| start_success := true; start_messages := sessionMessages sid r.2;
              start_sessionId := sid |} ∧
     getHistory sid (again r.2).2 =
       {| h_success := true; h_error := None;
          h_messages := Some (sessionMessages sid r.2); h_isRunning := Some false |}).
Proof.
  intros Hvalid again. subst again. cbv beta. split_and!.
  - intros prompt r Hok. subst r.
    destruct (sessions st !! sid) as [session|] eqn:Hsession.
    + destruct (AgentServiceFacts.enqueue_spec idOf timeOf sid prompt st session Hsession)
        as (queued & _ & _ & _ & _ & Hs & Hf & _).
      apply queue_after_restart with (queue := promptQueue session ++ [queued]); [done| |].
      * by rewrite Hs, lookup_alter_eq, Hsession.
      * by rewrite Hf, lookup_insert_eq.
    + unfold addToQueue in Hok. by rewrite Hsession in Hok.
  - intros promptId r Hok. subst r. revert Hok. unfold removeFromQueue.
    destruct (sessions st !! sid) as [session|] eqn:Hsession; [|done].
    destruct (findIndex promptId (promptQueue session)) as [index|]; [|done].
    intros _. apply queue_after_restart with (queue := delete index (promptQueue session));
      [done| |]; simpl.
    + by rewrite lookup_alter_eq, Hsession.
    + by rewrite lookup_insert_eq.
  - intros r Hok. subst r. revert Hok. unfold clearQueue.
    destruct (sessions st !! sid) as [session|] eqn:Hsession; [|done].
    intros _. apply queue_after_restart with (queue := []); [done| |]; simpl.
    + by rewrite lookup_alter_eq, Hsession.
    + by rewrite lookup_insert_eq.
  - intros args session <- Hsession Hidle r Hended.
    destruct (start_after_restart (sessionId args) workingDirectory r.2 Hvalid)
      as (-> & -> & _).
    assert (loadSession (sessionId args) r.2 = sessionMessages (sessionId args) r.2) as ->;
      [|done].
    subst r.
    destruct (AgentServiceFacts.begin_idle idOf timeOf readImageAsBase64 args st session
                Hsession Hidle)
      as (turn & userMessage & st' & Hbegin & _ & _ & _ & _ & _ & _ & Hrun & _).
    revert Hended. unfold sendMessage. rewrite Hbegin.
    destruct (sessions st' !! sessionId args) as [session1|] eqn:Hsession1; [|done].
    destruct (run_ends args turn st' session1 Hsession1) as (_ & _ & Hrec).
    unfold loadSession.
    destruct (run args turn st').1 as [error|result].
    + destruct Hrec as (_ & -> & _). done.
    + destruct Hrec as [(_ & _ & Hfile)|Haborted]; [by rewrite Hfile|by subst result].
Qed.

(** *** Starting, clearing and creating *)

(** X21.  [startConversation] loads a conversation once.  When it
    succeeds, any later call, with whatever working directory (even one
    validation would refuse), returns the same answer and changes nothing:
    the working directory of a loaded conversation is never looked at again.
    When it fails, the conversation was not loaded, the failure is the one
    of validation, and nothing is registered. *)
Theorem startConversation_loads_once (sid : string)
    (workingDirectory workingDirectory' : option string) (st : State) :
  let r := start sid workingDirectory st in
  match r.1 with
  | inr result => start sid workingDirectory' r.2 = (inr result, r.2)
  | inl error =>
      r.2 = st ∧ sessions st !! sid = None ∧
      validateWorkingDirectory (startDirectory workingDirectory) = Some error
  end.
Proof.
  unfold startConversation.
  destruct (sessions st !! sid) as [session|] eqn:Hsession; cbn [fst snd].
  - by rewrite Hsession.
  - destruct (validateWorkingDirectory _) as [error|]; cbn [fst snd]; [done|].
    cbn [withSessions sessions]. by rewrite lookup_insert_eq.
Qed.

(** X22.  [clearSession] while a turn is running.  It empties the
    history in memory and on disk and marks the session as not running, but
    it does not abort the turn: the abort controller stays in place and is
    not signalled.  So a [sendMessage] that was refused with "Agent is
    already processing a message" before the clear is accepted right after
    it, while the earlier turn is still in flight. *)
Theorem clearSession_during_a_turn (args : SendArgs) (st : State) (session : Session) :
  sessions st !! sessionId args = Some session →
  isRunning session = true →
  let sid := sessionId args in
  let r := clearAll sid st in
  (begin args st).1 = inl alreadyRunning ∧
  r.1 = {| ok := true; op_error := None |} ∧
  aborted r.2 = aborted st ∧
  abortController <$> sessions r.2 !! sid = Some (abortController session) ∧
  getHistory sid r.2 =
    {| h_success := true; h_error := None; h_messages := Some [];
       h_isRunning := Some false |} ∧
  loadSession sid r.2 = [] ∧
  ∃ turn st', begin args r.2 = (inr turn, st').
Proof.
  intros Hsession Hrunning sid r. subst r sid.
  unfold clearSession. rewrite Hsession. cbn [fst snd].
  match goal with |- context [saveSession timeOf ?sid ?ms ?s] =>
    pose proof (saveSession_files sid ms s) as (Hf & Hs & _ & _ & _ & Ha);
    set (st' := saveSession timeOf sid ms s) in *
  end.
  assert (sessions st' !! sessionId args =
            Some (setRunning false (abortController session) (setMessages [] session)))
    as Hsession'.
  { rewrite Hs. simpl. by rewrite lookup_alter_eq, Hsession. }
  split_and!.
  - unfold sendMessage_begin. by rewrite Hsession, Hrunning.
  - done.
  - by rewrite Ha.
  - by rewrite Hsession'.
  - unfold getHistory. by rewrite Hsession'.
  - unfold loadSession. by rewrite Hf, lookup_insert_eq.
  - destruct (AgentServiceFacts.begin_idle idOf timeOf readImageAsBase64 args st' _
                Hsession' eq_refl) as (turn & _ & st'' & Hbegin & _).
    by exists turn, st''.
Qed.

(** X23.  [createSession] stores a metadata record and nothing else.
    No conversation is loaded, no transcript or queue file is written and no
    event is emitted.  On success the record is filed under a freshly
    generated id, and until [startConversation] is called a [sendMessage] to
    that id fails with "Session <id> not found" when no conversation of that
    id was loaded before.  When validation refuses the working directory or
    the project path, the stored metadata is left as it was.  A
    [deleteSession] of the new id right after succeeds and, when the id was
    unused before, gives back the metadata as it was. *)
Theorem createSession_stores_metadata_only (name : string)
    (projectPath workingDirectory model : option string) (args : SendArgs) (st : State) :
  let r := create name projectPath workingDirectory model st in
  sessions r.2 = sessions st ∧ sessionFiles r.2 = sessionFiles st ∧
  queueFiles r.2 = queueFiles st ∧ emitted r.2 = emitted st ∧
  match r.1 with
  | inl error => metadataFile r.2 = metadataFile st
  | inr created =>
      md_id created = idOf (ticks st) ∧
      loadMetadata r.2 = <[md_id created := created]> (loadMetadata st) ∧
      (sessionId args = md_id created → sessions st !! md_id created = None →
       send args r.2 =
         (inl (new_Error ("Session " +:+ md_id created +:+ " not found")), r.2)) ∧
      let d := deleteSession (md_id created) r.2 in
      d.1 = true ∧
      (loadMetadata st !! md_id created = None →
       sessionFiles st !! md_id created = None →
       sessions st !! md_id created = None →
       loadMetadata d.2 = loadMetadata st ∧ sessionFiles d.2 = sessionFiles st ∧
       sessions d.2 = sessions st)
  end.
Proof.
  unfold createSession, generateId, now, tick. cbn [fst snd].
  destruct (validateWorkingDirectory _) as [error|]; [done|].
  destruct (_ ≫= validateWorkingDirectory) as [error|]; [done|].
  cbn [fst snd]. split_and!; try done.
  - intros Hid Hfresh. unfold sendMessage, sendMessage_begin.
    cbn [saveMetadata withMetadataFile sessions]. rewrite Hid. cbn [md_id].
    cbn [md_id] in Hfresh. by rewrite Hfresh.
  - unfold deleteSession, loadMetadata. simpl. by rewrite lookup_insert_eq.
  - cbn [md_id]. intros Hmd Hfile Hsession.
    unfold deleteSession, loadMetadata. simpl. rewrite lookup_insert_eq. simpl.
    rewrite delete_insert_eq. split_and!; by apply delete_id.
Qed.

End Store.

End SessionStoreFacts.

(** ** Routing a model to its provider *)

Module ProviderFactoryFacts.

Import ProviderFactory.

Lemma prefix_head a p c s : String.prefix (String a p) (String c s) = true → a = c.
Proof. simpl. by destruct (ascii_dec a c). Qed.

Section Routing.

Variable toLowerCase : string → string.

(** X24.  Where a model is routed.  With [lower] the lower-cased model
    id: the OpenRouter provider serves exactly the ids that start with
    "openrouter/"; the OpenAI provider serves exactly the ids that start
    with "gpt-" or with the letter "o", other than "opus" and the
    "openrouter/" ids; every other id, known or not, falls to the Claude
    provider, so a provider is always returned. *)
Theorem route_by_prefix (modelId : string) :
  let lower := toLowerCase modelId in
  (getProviderForModel toLowerCase modelId = OpenRouter ↔
     String.prefix "openrouter/" lower = true) ∧
  (getProviderForModel toLowerCase modelId = OpenAI ↔
     (String.prefix "gpt-" lower = true ∨ String.prefix "o" lower = true) ∧
     lower ≠ "opus"%string ∧ String.prefix "openrouter/" lower = false) ∧
  (getProviderForModel toLowerCase modelId = Claude ↔
     String.prefix "openrouter/" lower = false ∧
     (lower = "opus"%string ∨
      String.prefix "gpt-" lower = false ∧ String.prefix "o" lower = false)).
Proof.
  intros lower. unfold getProviderForModel. fold lower. clearbody lower.
  destruct (decide (lower = "opus"%string)) as [->|Hopus].
  { cbn. split_and!; split; try done; intuition congruence. }
  assert (String.prefix "claude-" lower = true →
          String.prefix "openrouter/" lower = false ∧ String.prefix "gpt-" lower = false ∧
          String.prefix "o" lower = false) as Hclaude.
  { destruct lower as [|c rest]; [done|]. intros Hc. apply prefix_head in Hc as <-.
    by split_and!. }
  assert (lower ∈ ["haiku"; "sonnet"; "opus"]%string →
          String.prefix "openrouter/" lower = false ∧ String.prefix "gpt-" lower = false ∧
          String.prefix "o" lower = false) as Hnamed.
  { intros Hin. repeat (apply elem_of_cons in Hin as [->|Hin]); try done.
    by apply elem_of_nil in Hin. }
  destruct (String.prefix "claude-" lower) eqn:Hc.
  { destruct (Hclaude eq_refl) as (-> & -> & ->). cbn [orb].
    split_and!; split; try done; intuition congruence. }
  cbn [orb]. clear Hclaude. case_bool_decide as Hin.
  { destruct (Hnamed Hin) as (-> & -> & ->).
    split_and!; split; try done; intuition congruence. }
  clear Hnamed Hin.
  destruct (String.prefix "openrouter/" lower);
    destruct (String.prefix "gpt-" lower); destruct (String.prefix "o" lower); cbn [orb].
  all: split_and!; split; try done; intuition congruence.
Qed.

End Routing.

End ProviderFactoryFacts.

(** ** The properties at concrete inputs *)

Module ScenarioChecks.

Import Examples Scenarios.

(** Two spellings of the same set of catalog names, one with a name the
    catalog does not know. *)
Lemma same_tool_names (n : string) :
  n ∈ map name catalog →
  (n ∈ ["Read"; "Glob"]%string ↔ n ∈ ["Glob"; "Teleport"; "Read"; "Read"]%string).
Proof.
  intros Hn. cbn in Hn.
  repeat (apply elem_of_cons in Hn as [->|Hn]); [..|by apply elem_of_nil in Hn].
  all: rewrite !elem_of_cons, !elem_of_nil; split; intros Hin.
  all: repeat (destruct Hin as [Hin|Hin]); try discriminate Hin; try done; tauto.
Defined.

Lemma allowedTools_read_as_set_witness :
  (∀ n : string,
     n ∈ map name catalog →
     (n ∈ ["Read"; "Glob"]%string ↔ n ∈ ["Glob"; "Teleport"; "Read"; "Read"]%string)) ∧
  ToolExecutor.executeToolCalls noParse catalog [readCall] repo
    (Some ["Read"; "Glob"]%string) notes =
  ToolExecutor.executeToolCalls noParse catalog [readCall] repo
    (Some ["Glob"; "Teleport"; "Read"; "Read"]%string) notes.
Proof.
  split; [exact same_tool_names|].
  exact (proj1 (proj2 (proj2
           (ToolBatchFacts.allowedTools_read_as_set noParse catalog [readCall] repo
              ["Read"; "Glob"]%string ["Glob"; "Teleport"; "Read"; "Read"]%string notes
              same_tool_names)))).
Defined.



Lemma join_truthy (a b : string) : Js.truthy (join a b) = true.
Proof. unfold join. by destruct a. Defined.



Lemma echoes_agree_in_repo (command dir : string) (timeout : Z) (w0 : ToolRegistry.World) :
  inRepo dir = true → echo command dir timeout w0 = echoInRepo command dir timeout w0.
Proof. intros Hdir. unfold echo, echoInRepo. by rewrite Hdir. Defined.

(** [ls] asked for in /etc, outside the guarded tree. *)
Lemma bash_runs_only_where_allowed_witness :
  (∀ command dir timeout w0,
     inRepo dir = true → echo command dir timeout w0 = echoInRepo command dir timeout w0) ∧
  FileTools.bashTool isAbsolute resolve inRepo noNumber echo lsInEtc repo notes =
    FileTools.bashTool isAbsolute resolve inRepo noNumber echoInRepo lsInEtc repo notes ∧
  FileTools.bashTool isAbsolute resolve inRepo noNumber echo lsInEtc repo notes =
    (inr (ToolRegistry.failure "Bash cwd is not allowed: /etc"), notes).
Proof.
  split; [exact echoes_agree_in_repo|].
  destruct (SearchFacts.bash_runs_only_where_allowed isAbsolute resolve inRepo noNumber
              echo echoInRepo lsInEtc repo notes echoes_agree_in_repo) as [Hsame Hguard].
  split; [exact Hsame|].
  exact (Hguard _ "ls"%string eq_refl eq_refl eq_refl).
Defined.


(** The waiting prompt of [stored] taken out of its queue. *)
Lemma removeFromQueue_witness :
  AgentService.sessions stored !! "s1"%string = Some idle ∧
  (AgentService.ok (SessionStore.removeFromQueue "s1" "msg_q" stored).1 = true ∨
   Forall (λ p, AgentService.q_id p ≠ "msg_q"%string) (AgentService.promptQueue idle)).
Proof.
  assert (AgentService.sessions stored !! "s1"%string = Some idle) as Hsession by reflexivity.
  split; [exact Hsession|].
  destruct (proj1 (SessionStoreFacts.removeFromQueue_takes_out_the_first_match idOf timeOf
                     "s1" "msg_q" followUp stored idle Hsession))
    as [[Hok _]|[_ Hnone]]; [left; exact Hok|right; exact Hnone].
Defined.

(** A prompt added behind the waiting one, then the drain. *)
Lemma queue_is_first_in_first_out_witness :
  AgentService.sessions stored !! "s1"%string = Some idle ∧
  AgentService.promptQueue idle = [waiting] ∧
  ∃ queued,
    AgentService.q_message queued = "run the tests"%string ∧
    AgentService.queueFiles
      (AgentService.processNextInQueue idOf timeOf noImage isAbortError silentProvider
         noIntent "s1" (AgentService.addToQueue idOf timeOf "s1" followUp stored).2)
      !! "s1"%string = Some [queued].
Proof.
  assert (AgentService.sessions stored !! "s1"%string = Some idle) as Hsession by reflexivity.
  split; [exact Hsession|]. split; [reflexivity|].
  destruct (SessionStoreFacts.queue_is_first_in_first_out idOf timeOf noImage isAbortError
              silentProvider noIntent "s1" followUp stored idle waiting [] Hsession
              eq_refl eq_refl)
    as (queued & _ & _ & _ & Hmessage & _ & _ & _ & _ & Hfile).
  exists queued. split; [exact Hmessage|exact Hfile].
Defined.

(** A turn on the idle conversation of [stored]. *)
Lemma turn_always_ends_idle_witness :
  AgentService.sessions stored !! AgentService.sessionId next = Some idle ∧
  AgentService.isRunning idle = false ∧
  ∃ session',
    AgentService.sessions
      (AgentService.sendMessage idOf timeOf noImage isAbortError silentProvider noIntent
         next stored).2 !! "s1"%string = Some session' ∧
    AgentService.isRunning session' = false ∧
    AgentService.abortController session' = None.
Proof.
  assert (AgentService.sessions stored !! AgentService.sessionId next = Some idle)
    as Hsession by reflexivity.
  split; [exact Hsession|]. split; [reflexivity|].
  exact (proj1 (SessionStoreFacts.turn_always_ends_idle idOf timeOf noImage isAbortError
                  silentProvider noIntent next stored idle Hsession eq_refl)).
Defined.

Lemma ended_turn_is_on_disk_witness :
  AgentService.sessions stored !! AgentService.sessionId next = Some idle ∧
  AgentService.isRunning idle = false ∧
  let r :=
    AgentService.sendMessage idOf timeOf noImage isAbortError silentProvider noIntent
      next stored in
  AgentService.sessionFiles r.2 !! "s1"%string = Some (AgentService.sessionMessages "s1" r.2).
Proof.
  assert (AgentService.sessions stored !! AgentService.sessionId next = Some idle)
    as Hsession by reflexivity.
  split; [exact Hsession|]. split; [reflexivity|].
  pose proof (SessionStoreFacts.ended_turn_is_on_disk idOf timeOf noImage isAbortError
                silentProvider noIntent next stored idle Hsession eq_refl) as Hrecorded.
  cbv zeta in Hrecorded |- *.
  destruct (AgentService.sendMessage idOf timeOf noImage isAbortError silentProvider
              noIntent next stored) as [[error|result] st'] eqn:Hsend.
  - exact (proj1 (proj2 Hrecorded)).
  - destruct Hrecorded as [(_ & _ & Hfile)|Haborted]; [exact Hfile|].
    exfalso. vm_compute in Hsend. subst result. discriminate Hsend.
Defined.

(** The queue of [stored] cleared, the server restarted. *)
Lemma restart_witness :
  acceptAll (asGiven (default "/repo"%string (OpenAIProvider.truthyString None))) = None ∧
  AgentService.ok (SessionStore.clearQueue "s1" stored).1 = true ∧
  SessionStore.getQueue "s1"
    (SessionStore.startConversation "/repo" asGiven acceptAll "s1" None
       (SessionStore.restarted (SessionStore.clearQueue "s1" stored).2)).2 =
  SessionStore.getQueue "s1" (SessionStore.clearQueue "s1" stored).2.
Proof.
  split; [reflexivity|]. split; [reflexivity|].
  exact (proj1 (proj2 (proj2
           (SessionStoreFacts.restart_restores_queue_and_transcript idOf timeOf noImage
              isAbortError silentProvider noIntent "/repo" asGiven acceptAll "s1" None
              stored eq_refl))) eq_refl).
Defined.

(** The running conversation of [busy] cleared in the middle of its
    turn. *)
Lemma clearSession_during_a_turn_witness :
  AgentService.sessions busy !! AgentService.sessionId again = Some running ∧
  AgentService.isRunning running = true ∧
  AgentService.aborted (SessionStore.clearSession timeOf "s1" busy).2 =
    AgentService.aborted busy ∧
  ∃ turn st',
    AgentService.sendMessage_begin idOf timeOf noImage again
      (SessionStore.clearSession timeOf "s1" busy).2 = (inr turn, st').
Proof.
  assert (AgentService.sessions busy !! AgentService.sessionId again = Some running)
    as Hsession by reflexivity.
  split; [exact Hsession|]. split; [reflexivity|].
  destruct (SessionStoreFacts.clearSession_during_a_turn idOf timeOf noImage again busy
              running Hsession eq_refl) as (_ & _ & Haborted & _ & _ & _ & Hbegin).
  split; [exact Haborted|exact Hbegin].
Defined.

End ScenarioChecks.
